(** * citywave-multiplayer-server: the session registry and the
      location-scoped broadcast router of [server.js]

    A shallow embedding of class [MultiplayerServer].  The registry
    [this.players] is a JavaScript [Map], kept here as an association list in
    insertion order; JavaScript strings are sequences of 16-bit code units;
    JavaScript numbers are IEEE 754 binary64 values, kept as primitive floats;
    every call of [ws.send] that goes through is appended to a wire trace, so
    that what each client receives can be stated.  A call ends normally or by
    raising, and either way leaves a server state behind. *)

From Stdlib Require Import List String Ascii Bool Arith NArith ZArith Lia DecimalString.
From Stdlib Require Import Floats.
Import ListNotations.
Local Open Scope string_scope.
Local Open Scope bool_scope.
Local Open Scope list_scope.
Set Warnings "-register-all".

(** ** JavaScript strings *)

(** A string is the sequence of its UTF-16 code units. *)
Definition JSString := list N.

(** A string literal of the source (all of them are ASCII), and the ids and
    addresses the server makes up, as code units. *)
Definition lit (s : string) : JSString := map N_of_ascii (list_ascii_of_string s).

Coercion lit : string >-> JSString.

Fixpoint JSString_eqb (a b : JSString) : bool :=
  match a, b with
  | [], [] => true
  | x :: a', y :: b' => N.eqb x y && JSString_eqb a' b'
  | _, _ => false
  end.

(** ** JavaScript values *)

(** The values that flow through the server: what [JSON.parse] returns, plus
    [undefined] for absent properties. *)
Inductive Value : Type :=
| VUndefined
| VNull
| VBool (b : bool)
| VNumber (n : float)
| VString (s : JSString)
| VArray (items : list Value)
| VObject (props : list (JSString * Value)).

(** A plain object: its own properties in property order. *)
Definition Object := list (JSString * Value).

(** The property [k: v] of an object literal. *)
Notation "k |-> v" := (pair (lit k) v) (at level 60).

Fixpoint obj_get (k : JSString) (o : Object) : Value :=
  match o with
  | [] => VUndefined
  | (k', v) :: o' => if JSString_eqb k' k then v else obj_get k o'
  end.

(** [o[k] = v]: an existing property keeps its place, a new one goes last. *)
Fixpoint obj_set (k : JSString) (v : Value) (o : Object) : Object :=
  match o with
  | [] => [(k, v)]
  | (k', v') :: o' =>
      if JSString_eqb k' k then (k, v) :: o' else (k', v') :: obj_set k v o'
  end.

Fixpoint obj_has (k : JSString) (o : Object) : bool :=
  match o with
  | [] => false
  | (k', _) :: o' => JSString_eqb k' k || obj_has k o'
  end.

Definition isNullish (v : Value) : bool :=
  match v with
  | VUndefined | VNull => true
  | _ => false
  end.

(** [v.k] for the property names the server reads ([type], [data], [text],
    [x], [y], [nickname], [username]): none of them is an index or a built-in
    property of an array, a string, a number or a boolean, so only objects
    answer with something else than [undefined]. *)
Definition get (v : Value) (k : JSString) : Value :=
  match v with
  | VObject o => obj_get k o
  | _ => VUndefined
  end.

(** Property access proper: reading a property of [null] or [undefined]
    raises a TypeError ([None]). *)
Definition getProp (v : Value) (k : JSString) : option Value :=
  if isNullish v then None else Some (get v k).

(** ToBoolean. *)
Definition truthy (v : Value) : bool :=
  match v with
  | VUndefined | VNull => false
  | VBool b => b
  | VNumber n => negb (PrimFloat.is_nan n || PrimFloat.is_zero n)
  | VString [] => false
  | VString (_ :: _) => true
  | VArray _ | VObject _ => true
  end.

(** [v === 'literal']: strict equality with a string of the source. *)
Definition strictEq (v : Value) (literal : string) : bool :=
  match v with
  | VString t => JSString_eqb t literal
  | _ => false
  end.

(** Whether ToString raises a TypeError on [v], as it is applied by a
    template literal [`${v}`] and by [parseFloat(v)].  Primitives convert.
    An object made by [JSON.parse] converts through [Object.prototype.toString]
    unless it has an own property [toString]: that property shadows the
    method and, coming from JSON, is not callable, and [valueOf] (own and not
    callable, or inherited and returning the object) yields no primitive.  An
    array converts through [join], which converts every element other than
    [null] and [undefined]. *)
Fixpoint ToString_throws (v : Value) : bool :=
  match v with
  | VObject o => existsb (fun kv => JSString_eqb (fst kv) "toString") o
  | VArray items => existsb ToString_throws items
  | _ => false
  end.

Definition indexKey (i : nat) : JSString :=
  NilEmpty.string_of_uint (Nat.to_uint i).

Fixpoint indexed {A : Type} (i : nat) (l : list A) : list (JSString * A) :=
  match l with
  | [] => []
  | a :: l' => (indexKey i, a) :: indexed (S i) l'
  end.

Definition codeUnits (s : JSString) : list Value :=
  map (fun c => VString [c]) s.

(** Object spread [{...v}]: the own enumerable properties of [v]; arrays and
    strings contribute their indices, every other value nothing. *)
Definition spread (v : Value) : Object :=
  match v with
  | VObject o => o
  | VArray items => indexed 0 items
  | VString s => indexed 0 (codeUnits s)
  | _ => []
  end.

(** ** Strings: [trim] and [substring] *)

(** WhiteSpace and LineTerminator of ECMAScript: TAB, LF, VT, FF, CR, SP,
    NBSP, U+1680, U+2000 to U+200A, LS, PS, U+202F, U+205F, U+3000 and
    U+FEFF.  All lie in the basic plane, so each is one code unit. *)
Definition isWhiteSpace (c : N) : bool :=
  ((9 <=? c) && (c <=? 13) || (c =? 32) || (c =? 160) || (c =? 5760) ||
   (8192 <=? c) && (c <=? 8202) || (c =? 8232) || (c =? 8233) ||
   (c =? 8239) || (c =? 8287) || (c =? 12288) || (c =? 65279))%N.

Fixpoint trimStart (s : JSString) : JSString :=
  match s with
  | [] => []
  | c :: s' => if isWhiteSpace c then trimStart s' else s
  end.

Fixpoint trimEnd (s : JSString) : JSString :=
  match s with
  | [] => []
  | c :: s' =>
      match trimEnd s' with
      | [] => if isWhiteSpace c then [] else [c]
      | t => c :: t
      end
  end.

Definition trim (s : JSString) : JSString := trimEnd (trimStart s).

(** [s.substring(from, to)] for [from <= to]. *)
Definition substring (from to : nat) (s : JSString) : JSString :=
  firstn (to - from) (skipn from s).

(** ** Numbers: [||], [Math.min] and [Math.max] *)

(** [n || 0]: NaN, [+0] and [-0] are falsy. *)
Definition orZero (n : float) : float :=
  if truthy (VNumber n) then n else 0%float.

Definition Math_min (a b : float) : float :=
  if PrimFloat.is_nan a || PrimFloat.is_nan b then nan
  else if PrimFloat.ltb a b then a
  else if PrimFloat.ltb b a then b
  else if PrimFloat.get_sign a then a else b.

Definition Math_max (a b : float) : float :=
  if PrimFloat.is_nan a || PrimFloat.is_nan b then nan
  else if PrimFloat.ltb a b then b
  else if PrimFloat.ltb b a then a
  else if PrimFloat.get_sign a then b else a.

(** ** Transports, sessions, envelopes *)

Module WebSocket.

Inductive ReadyState := CONNECTING | OPEN | CLOSING | CLOSED.

(** What the server sees of a connection: its [readyState], and whether a
    call of [send] on it raises. *)
Record t := mk { readyState : ReadyState; sendFails : bool }.

Definition isOpen (w : t) : bool :=
  match readyState w with
  | OPEN => true
  | _ => false
  end.

End WebSocket.

Module Message.

(** The envelope [{ type, data }]. *)
Record t := mk { type : string; data : Value }.

End Message.

Module Player.

(** The object built by [handleNewConnection]; [data] is [null] until the
    client joins. *)
Record t := mk {
  id : string;
  ws : WebSocket.t;
  data : option Object;
  location : string;
  lastActivity : float;
  ip : string
}.

Definition set_data (d : option Object) (p : t) : t :=
  mk (id p) (ws p) d (location p) (lastActivity p) (ip p).

Definition set_lastActivity (n : float) (p : t) : t :=
  mk (id p) (ws p) (data p) (location p) n (ip p).

Definition set_ws (w : WebSocket.t) (p : t) : t :=
  mk (id p) w (data p) (location p) (lastActivity p) (ip p).

(** [p.data] as a value, for [otherPlayers.map(p => p.data)]. *)
Definition dataValue (p : t) : Value :=
  match data p with
  | Some d => VObject d
  | None => VNull
  end.

Definition isActive (p : t) : bool :=
  match data p with
  | Some _ => true
  | None => false
  end.

End Player.

(** ** The registry: a JavaScript [Map] keyed by player id *)

Definition Map (V : Type) := list (string * V).

Fixpoint Map_get {V : Type} (k : string) (m : Map V) : option V :=
  match m with
  | [] => None
  | (k', v) :: m' => if k' =? k then Some v else Map_get k m'
  end.

Fixpoint Map_set {V : Type} (k : string) (v : V) (m : Map V) : Map V :=
  match m with
  | [] => [(k, v)]
  | (k', v') :: m' =>
      if k' =? k then (k, v) :: m' else (k', v') :: Map_set k v m'
  end.

Definition Map_delete {V : Type} (k : string) (m : Map V) : Map V :=
  filter (fun kv => negb (fst kv =? k)) m.

(** The server: the registry, and the trace of the envelopes written to the
    transports, oldest first, each with the id of the player it went to. *)
Record Server := mkServer {
  players : Map Player.t;
  wire : list (string * Message.t)
}.

Definition newServer : Server := mkServer [] [].

Definition setPlayers (m : Map Player.t) (s : Server) : Server :=
  mkServer m (wire s).

(** [player.f = v] on the player registered under [k]. *)
Definition updated (k : string) (p : Player.t) (s : Server) : Server :=
  setPlayers (Map_set k p (players s)) s.

(** [player.ws.send(JSON.stringify(message))] going through. *)
Definition transmit (playerId : string) (message : Message.t) (s : Server) : Server :=
  mkServer (players s) (wire s ++ [(playerId, message)]).

(** ** How a call ends *)

(** Normally, or by raising: a TypeError (a property of [null] or
    [undefined] is read, a missing method is called, a value does not convert
    to a string) or the RangeError of an exhausted call stack.  Both carry
    the state the server is left in; what was assigned or sent before the
    exception stays. *)
Inductive Completion :=
| Normal (s : Server)
| Throw (s : Server).

Definition stateOf (c : Completion) : Server :=
  match c with
  | Normal s => s
  | Throw s => s
  end.

(** Sequencing: an exception skips what follows. *)
Definition andThen (c : Completion) (rest : Server -> Completion) : Completion :=
  match c with
  | Normal s => rest s
  | Throw s => Throw s
  end.

Notation "'do' s <- c ; rest" := (andThen c (fun s => rest))
  (at level 10, s name, c at level 100, rest at level 200).

(** ** Envelopes the server writes *)

Definition connection_established (playerId : string) : Message.t :=
  Message.mk "connection_established" (VObject ["playerId" |-> VString playerId]).

Definition error (message : string) : Message.t :=
  Message.mk "error" (VObject ["message" |-> VString message]).

Definition player_list (otherPlayers : list Player.t) : Message.t :=
  Message.mk "player_list" (VArray (map Player.dataValue otherPlayers)).

Definition player_joined (profile : Object) : Message.t :=
  Message.mk "player_joined" (VObject profile).

Definition player_left (playerId : string) (profile : Object) : Message.t :=
  Message.mk "player_left"
    (VObject ["id" |-> VString playerId; "nickname" |-> obj_get "nickname" profile]).

Definition chat_message (playerId : string) (profile : Object) (text : JSString)
    (now : float) : Message.t :=
  Message.mk "chat_message"
    (VObject ["playerId" |-> VString playerId;
              "username" |-> obj_get "username" profile;
              "nickname" |-> obj_get "nickname" profile;
              "text" |-> VString text;
              "timestamp" |-> VNumber now]).

Definition player_moved (playerId : string) (x y : float) : Message.t :=
  Message.mk "player_moved"
    (VObject ["id" |-> VString playerId; "x" |-> VNumber x; "y" |-> VNumber y]).

Definition server_shutdown : Message.t :=
  Message.mk "server_shutdown" (VObject ["message" |-> VString "Server is shutting down"]).

(** ** Outbound delivery and disconnect cleanup *)

(** [getPlayersInLocation(location, excludePlayerId = null)]. *)
Definition excluded (excludePlayerId : option string) (playerId : string) : bool :=
  match excludePlayerId with
  | Some e => playerId =? e
  | None => false
  end.

Fixpoint getPlayersInLocation (m : Map Player.t) (location : string)
    (excludePlayerId : option string) : list Player.t :=
  match m with
  | [] => []
  | (playerId, player) :: m' =>
      if excluded excludePlayerId playerId then
        getPlayersInLocation m' location excludePlayerId
      else if (Player.location player =? location) && Player.isActive player then
        player :: getPlayersInLocation m' location excludePlayerId
      else getPlayersInLocation m' location excludePlayerId
  end.

(** [sendToPlayer], [broadcastToLocation] and [handlePlayerDisconnect] call
    one another: a send that raises runs the disconnect cleanup, which
    broadcasts, which sends.  The three are first written over the handler
    [onFailure] of the [catch] branch, and the knot is tied below.  The
    [catch] block is not itself guarded: what the cleanup raises leaves
    [sendToPlayer]. *)
Definition sendToPlayer_ (onFailure : string -> Server -> Completion)
    (playerId : string) (message : Message.t) (s : Server) : Completion :=
  match Map_get playerId (players s) with
  | Some player =>
      if WebSocket.isOpen (Player.ws player) then
        if WebSocket.sendFails (Player.ws player) then onFailure playerId s
        else Normal (transmit playerId message s)
      else Normal s
  | None => Normal s
  end.

(** [list.forEach(f)] over a state that [f] may change; an exception ends
    the loop. *)
Fixpoint forEach {A : Type} (f : A -> Server -> Completion) (l : list A)
    (s : Server) : Completion :=
  match l with
  | [] => Normal s
  | a :: l' => do s' <- f a s; forEach f l' s'
  end.

Definition broadcastToLocation_ (onFailure : string -> Server -> Completion)
    (location : string) (message : Message.t) (excludePlayerId : option string)
    (s : Server) : Completion :=
  forEach (fun player => sendToPlayer_ onFailure (Player.id player) message)
    (getPlayersInLocation (players s) location excludePlayerId) s.

(** [fuel] is the room left on the call stack, counted in cleanups nested
    through failing sends: with none left the call of [handlePlayerDisconnect]
    in the [catch] branch raises a RangeError.  The player is deleted after
    the broadcast, so an exception in the broadcast leaves it registered. *)
Fixpoint handlePlayerDisconnect (fuel : nat) (playerId : string) (s : Server)
    {struct fuel} : Completion :=
  let onFailure :=
    match fuel with
    | O => fun _ s => Throw s
    | S fuel' => handlePlayerDisconnect fuel'
    end in
  match Map_get playerId (players s) with
  | Some player =>
      do s' <-
        match Player.data player with
        | Some profile =>
            broadcastToLocation_ onFailure (Player.location player)
              (player_left playerId profile) (Some playerId) s
        | None => Normal s
        end;
      Normal (setPlayers (Map_delete playerId (players s')) s')
  | None => Normal s
  end.

Definition onSendFailure (fuel : nat) : string -> Server -> Completion :=
  match fuel with
  | O => fun _ s => Throw s
  | S fuel' => handlePlayerDisconnect fuel'
  end.

Definition sendToPlayer (fuel : nat) := sendToPlayer_ (onSendFailure fuel).

Definition broadcastToLocation (fuel : nat) := broadcastToLocation_ (onSendFailure fuel).

(** ** Inbound messages *)

(** A received frame, represented by what [JSON.parse(rawMessage.toString())]
    makes of it: [None] when it raises a SyntaxError. *)
Definition RawMessage := option Value.

Definition JSON_parse (rawMessage : RawMessage) : option Value := rawMessage.

Definition timeout : float := (5 * 60 * 1000)%float.

Section Handlers.

(** The built-in [parseFloat]: the number it returns for an argument that
    converts to a string.  (For one that does not, see [ToString_throws], the
    call raises; [handlePlayerMove] tests that first.) *)
Variable parseFloat : Value -> float.

Definition clampCoordinate (v : Value) : float :=
  Math_max 0 (Math_min 100 (orZero (parseFloat v))).

Definition handlePlayerJoin (fuel : nat) (now : float) (playerId : string)
    (playerData : Value) (s : Server) : Completion :=
  match Map_get playerId (players s) with
  | None => Normal s
  | Some player =>
      let profile :=
        obj_set "joinTime" (VNumber now)
          (obj_set "id" (VString playerId) (spread playerData)) in
      let player := Player.set_data (Some profile) player in
      let s := updated playerId player s in
      (* console.log(`... ${player.data.nickname} ...`) *)
      if ToString_throws (obj_get "nickname" profile) then Throw s
      else
        let otherPlayers :=
          getPlayersInLocation (players s) (Player.location player) (Some playerId) in
        do s <- sendToPlayer fuel playerId (player_list otherPlayers) s;
        broadcastToLocation fuel (Player.location player)
          (player_joined profile) (Some playerId) s
  end.

Definition handlePlayerLeave (fuel : nat) (playerId : string) (s : Server)
    : Completion :=
  match Map_get playerId (players s) with
  | None => Normal s
  | Some player =>
      match Player.data player with
      | None => Normal s
      | Some profile =>
          (* console.log(`... ${player.data.nickname} ...`) *)
          if ToString_throws (obj_get "nickname" profile) then Throw s
          else
            do s <- broadcastToLocation fuel (Player.location player)
                      (player_left playerId profile) (Some playerId) s;
            Normal (setPlayers (Map_delete playerId (players s)) s)
      end
  end.

Definition handleChatMessage (fuel : nat) (now : float) (playerId : string)
    (messageData : Value) (s : Server) : Completion :=
  match Map_get playerId (players s) with
  | None => Normal s
  | Some player =>
      match Player.data player with
      | None => Normal s
      | Some profile =>
          match getProp messageData "text" with
          | None => Throw s
          | Some text =>
              if negb (truthy text) then Normal s
              else
                match text with
                | VString str =>
                    if (List.length (trim str) =? 0)%nat then Normal s
                    else
                      let text := substring 0 200 (trim str) in
                      (* console.log(`... ${player.data.nickname}: ${text}`) *)
                      if ToString_throws (obj_get "nickname" profile) then Throw s
                      else
                        broadcastToLocation fuel (Player.location player)
                          (chat_message playerId profile text now)
                          (Some playerId) s
                | _ => Throw s (* [text.trim] is not a function *)
                end
          end
      end
  end.

Definition handlePlayerMove (fuel : nat) (playerId : string) (moveData : Value)
    (s : Server) : Completion :=
  match Map_get playerId (players s) with
  | None => Normal s
  | Some player =>
      match Player.data player with
      | None => Normal s
      | Some profile =>
          match getProp moveData "x" with
          | None => Throw s
          | Some mx =>
              if ToString_throws mx then Throw s
              else
                let x := clampCoordinate mx in
                let my := get moveData "y" in
                if ToString_throws my then Throw s
                else
                  let y := clampCoordinate my in
                  let profile := obj_set "y" (VNumber y) (obj_set "x" (VNumber x) profile) in
                  let player := Player.set_data (Some profile) player in
                  let s := updated playerId player s in
                  broadcastToLocation fuel (Player.location player)
                    (player_moved playerId x y) (Some playerId) s
          end
      end
  end.

(** The [switch] on [message.type]; strict equality, so only strings match. *)
Definition dispatch (fuel : nat) (now : float) (playerId : string)
    (message type : Value) (s : Server) : Completion :=
  if strictEq type "player_join" then
    handlePlayerJoin fuel now playerId (get message "data") s
  else if strictEq type "player_leave" then
    handlePlayerLeave fuel playerId s
  else if strictEq type "chat_message" then
    handleChatMessage fuel now playerId (get message "data") s
  else if strictEq type "player_move" then
    handlePlayerMove fuel playerId (get message "data") s
  else sendToPlayer fuel playerId (error "Unknown message type") s.

(** [now] is the reading of [Date.now()] taken for [lastActivity], [now']
    the one taken afterwards by the handler the message is dispatched to.
    Whatever is raised inside the [try] block, the RangeError of a cleanup
    included, is caught and answered; what the [catch] block raises is
    not. *)
Definition handlePlayerMessage (fuel : nat) (now now' : float) (playerId : string)
    (rawMessage : RawMessage) (s : Server) : Completion :=
  let catch := sendToPlayer fuel playerId (error "Invalid message format") in
  match JSON_parse rawMessage with
  | None => catch s
  | Some message =>
      match Map_get playerId (players s) with
      | None => Normal s
      | Some player =>
          let s := updated playerId (Player.set_lastActivity now player) s in
          match getProp message "type" with
          | None => catch s
          | Some type =>
              (* console.log(`... ${message.type}`) *)
              if ToString_throws type then catch s
              else
                match dispatch fuel now' playerId message type s with
                | Normal s => Normal s
                | Throw s => catch s
                end
          end
      end
  end.

(** [playerId] is the value [uuidv4()] returned. *)
Definition handleNewConnection (fuel : nat) (now : float) (playerId : string)
    (ws : WebSocket.t) (clientIP : string) (s : Server) : Completion :=
  let player := Player.mk playerId ws None "Park" now clientIP in
  let s := updated playerId player s in
  sendToPlayer fuel playerId (connection_established playerId) s.

(** [for (const [playerId, player] of this.players)]: the iteration is
    live, an entry deleted before its turn is not visited. *)
Fixpoint forEachLive (f : string -> Player.t -> Server -> Completion)
    (keys : list string) (s : Server) : Completion :=
  match keys with
  | [] => Normal s
  | playerId :: keys' =>
      match Map_get playerId (players s) with
      | None => forEachLive f keys' s
      | Some player => do s' <- f playerId player s; forEachLive f keys' s'
      end
  end.

Definition isStale (now : float) (player : Player.t) : bool :=
  negb (WebSocket.isOpen (Player.ws player)) ||
  PrimFloat.ltb timeout (now - Player.lastActivity player).

Definition cleanupDisconnectedPlayers (fuel : nat) (now : float) (s : Server)
    : Completion :=
  forEachLive
    (fun playerId player s =>
       if isStale now player then handlePlayerDisconnect fuel playerId s
       else Normal s)
    (map fst (players s)) s.

Fixpoint increment (location : string) (stats : list (string * nat))
    : list (string * nat) :=
  match stats with
  | [] => [(location, 1)]
  | (l, n) :: stats' =>
      if l =? location then (l, S n) :: stats'
      else (l, n) :: increment location stats'
  end.

(** What [logServerStats] prints: total, active, active per location.  It
    changes nothing. *)
Definition logServerStats (s : Server) : nat * nat * list (string * nat) :=
  let active := filter Player.isActive (map snd (players s)) in
  (List.length (players s), List.length active,
   fold_left (fun stats p => increment (Player.location p) stats) active []).

Definition shutdown (fuel : nat) (s : Server) : Completion :=
  forEachLive (fun playerId _ s => sendToPlayer fuel playerId server_shutdown s)
    (map fst (players s)) s.

(** ** The server as a transition system *)

Inductive Event :=
| Connection (playerId : string) (ws : WebSocket.t) (clientIP : string) (now : float)
| WsMessage (playerId : string) (rawMessage : RawMessage) (now now' : float)
| WsClose (playerId : string)
| WsError (playerId : string)
| ReaperTick (now : float)
| StatsTick
| Shutdown
| TransportChange (playerId : string) (ws : WebSocket.t).

(** The last event is the environment's: the socket of a registered player
    changes state. *)
Definition transportChange (playerId : string) (ws : WebSocket.t) (s : Server) : Server :=
  match Map_get playerId (players s) with
  | Some player => setPlayers (Map_set playerId (Player.set_ws ws player) (players s)) s
  | None => s
  end.

(** The listeners and timers are called by the event loop: an exception
    that leaves one of them is not caught by anything, and the process ends
    ([None]). *)
Definition returned (c : Completion) : option Server :=
  match c with
  | Normal s => Some s
  | Throw _ => None
  end.

Definition step (fuel : nat) (e : Event) (s : Server) : option Server :=
  match e with
  | Connection playerId ws clientIP now =>
      returned (handleNewConnection fuel now playerId ws clientIP s)
  | WsMessage playerId rawMessage now now' =>
      returned (handlePlayerMessage fuel now now' playerId rawMessage s)
  | WsClose playerId => returned (handlePlayerDisconnect fuel playerId s)
  | WsError playerId => returned (handlePlayerDisconnect fuel playerId s)
  | ReaperTick now => returned (cleanupDisconnectedPlayers fuel now s)
  | StatsTick => Some s
  | Shutdown => returned (shutdown fuel s)
  | TransportChange playerId ws => Some (transportChange playerId ws s)
  end.

Inductive reachable : Server -> Prop :=
| reachable_new : reachable newServer
| reachable_step fuel e s s' :
    reachable s -> step fuel e s = Some s' -> reachable s'.

End Handlers.

(** ** Reference descriptions used in the statements *)

(** The registry is well formed: one entry per key, each under its own id. *)
Definition wf (s : Server) : Prop :=
  NoDup (map fst (players s)) /\
  forall k p, In (k, p) (players s) -> Player.id p = k.

(** No transport of the registry raises on [send]. *)
Definition quiet (s : Server) : Prop :=
  forall k p, In (k, p) (players s) -> WebSocket.sendFails (Player.ws p) = false.

(** The players of [l] whose socket is open, paired with [message]. *)
Definition deliveries (message : Message.t) (l : list Player.t) : list (string * Message.t) :=
  map (fun p => (Player.id p, message))
    (filter (fun p => WebSocket.isOpen (Player.ws p)) l).

(** A send on a transport that does not raise. *)
Definition deliver (playerId : string) (message : Message.t) (s : Server) : Server :=
  match Map_get playerId (players s) with
  | Some player =>
      if WebSocket.isOpen (Player.ws player) then transmit playerId message s else s
  | None => s
  end.

(** The disconnect cleanup when no transport raises. *)
Definition disconnected (playerId : string) (s : Server) : Server :=
  match Map_get playerId (players s) with
  | Some player =>
      mkServer (Map_delete playerId (players s))
        (wire s ++
         match Player.data player with
         | Some profile =>
             deliveries (player_left playerId profile)
               (getPlayersInLocation (players s) (Player.location player) (Some playerId))
         | None => []
         end)
  | None => s
  end.

(** [s'] keeps some of the entries of [s], unchanged and in order. *)
Definition restricts (s s' : Server) : Prop :=
  exists keep : string -> bool,
    players s' = filter (fun kp => keep (fst kp)) (players s).

(** A [player_left] notice as the cleanup of [a] sends it: to an active
    player other than [a], in the location of [a]. *)
Definition left_notice (m : Map Player.t) (e : string * Message.t) : Prop :=
  exists p a pa profile,
    Map_get (fst e) m = Some p /\ Player.data p <> None /\
    Map_get a m = Some pa /\ Player.data pa = Some profile /\
    a <> fst e /\ Player.location p = Player.location pa /\
    snd e = player_left a profile.

(** [message] written by a broadcast to [location] that leaves
    [excludePlayerId] out. *)
Definition cast (m : Map Player.t) (location : string) (message : Message.t)
    (excludePlayerId : option string) (e : string * Message.t) : Prop :=
  snd e = message /\
  exists p,
    Map_get (fst e) m = Some p /\ Player.data p <> None /\
    Player.location p = location /\ excludePlayerId <> Some (fst e) /\
    WebSocket.isOpen (Player.ws p) = true.

(** What a run wrote: [sent] extends the wire, every entry satisfying [P]. *)
Definition wrote (P : string * Message.t -> Prop) (s s' : Server) : Prop :=
  exists sent, wire s' = wire s ++ sent /\ Forall P sent.

(** A failure handler is tidy when, however it ends, it has only removed
    entries and only written [player_left] notices. *)
Definition tidy (h : string -> Server -> Completion) : Prop :=
  forall k s c, wf s -> h k s = c ->
    restricts s (stateOf c) /\ wrote (left_notice (players s)) s (stateOf c).

(** The envelopes of the four location broadcasts, and whom they name. *)
Definition isBroadcast (type : string) : bool :=
  (type =? "player_joined") || (type =? "player_left") ||
  (type =? "player_moved") || (type =? "chat_message").

Definition actorOf (message : Message.t) : Value :=
  if Message.type message =? "chat_message"
  then get (Message.data message) "playerId"
  else get (Message.data message) "id".

(** A broadcast envelope in a registry where both its recipient and the
    player it names are active, distinct and in one location. *)
Definition visible (m : Map Player.t) (e : string * Message.t) : Prop :=
  exists p a pa,
    Map_get (fst e) m = Some p /\ Player.data p <> None /\
    Map_get a m = Some pa /\ Player.data pa <> None /\
    a <> fst e /\ Player.location p = Player.location pa /\
    actorOf (snd e) = VString a.

(** A [player_list] going to an active player, listing active players of
    the same location other than that player. *)
Definition listing (m : Map Player.t) (e : string * Message.t) : Prop :=
  exists p others,
    snd e = player_list others /\
    Map_get (fst e) m = Some p /\ Player.data p <> None /\
    forall q, In q others ->
      Map_get (Player.id q) m = Some q /\ Player.data q <> None /\
      Player.id q <> fst e /\ Player.location q = Player.location p.

(** Every envelope the server writes is of one of three sorts. *)
Definition emitted (m : Map Player.t) (e : string * Message.t) : Prop :=
  (isBroadcast (Message.type (snd e)) = false /\
   Message.type (snd e) <> "player_list") \/
  listing m e \/
  (isBroadcast (Message.type (snd e)) = true /\ visible m e).

(** The event is a [player_join] message of player [k]. *)
Definition isJoinBy (e : Event) (k : string) : bool :=
  match e with
  | WsMessage playerId (Some message) _ _ =>
      (playerId =? k) && strictEq (get message "type") "player_join"
  | _ => false
  end.

(** What an event assigns before anything is sent: nothing, a fresh player
    object, or fields of the player the event is about (never its id or
    location; its profile only by a join, or from one profile to another). *)
Inductive touches (e : Event) (s : Server) : Server -> Prop :=
| touches_none : touches e s s
| touches_new k p' :
    Player.id p' = k -> Player.data p' = None -> Player.location p' = "Park" ->
    touches e s (setPlayers (Map_set k p' (players s)) s)
| touches_update k p p' :
    Map_get k (players s) = Some p ->
    Player.id p' = Player.id p -> Player.location p' = Player.location p ->
    (Player.data p' = Player.data p \/ isJoinBy e k = true \/
     (Player.data p <> None /\ Player.data p' <> None)) ->
    touches e s (setPlayers (Map_set k p' (players s)) s).

(** The shape of every transition: assignments to at most one player,
    then entries removed and envelopes of known sorts written. *)
Definition sound (e : Event) (s s' : Server) : Prop :=
  exists s1,
    touches e s s1 /\ restricts s1 s' /\ wrote (emitted (players s1)) s1 s'.

(** The profile of an active player. *)
Definition profileOf (q : Player.t) : Object :=
  match Player.data q with
  | Some d => d
  | None => []
  end.

(** The text [t] is [str] without the white space at its two ends. *)
Definition allWhiteSpace (s : JSString) : bool := forallb isWhiteSpace s.

Definition bare (t : JSString) : Prop :=
  (forall c r, t = c :: r -> isWhiteSpace c = false) /\
  (forall r c, t = r ++ [c] -> isWhiteSpace c = false).

Definition trimmed (str t : JSString) : Prop :=
  exists lead trail,
    str = lead ++ t ++ trail /\
    allWhiteSpace lead = true /\ allWhiteSpace trail = true /\ bare t.

(** ** A sample registry *)

Definition openSocket : WebSocket.t := WebSocket.mk WebSocket.OPEN false.
Definition closedSocket : WebSocket.t := WebSocket.mk WebSocket.CLOSED false.

Definition joined (playerId nickname location : string) (ws : WebSocket.t)
    (lastActivity : float) : Player.t :=
  Player.mk playerId ws
    (Some ["nickname" |-> VString nickname; "id" |-> VString playerId;
           "joinTime" |-> VNumber lastActivity])
    location lastActivity "10.0.0.7".

Definition connected (playerId : string) (ws : WebSocket.t) (lastActivity : float)
    : Player.t :=
  Player.mk playerId ws None "Park" lastActivity "10.0.0.7".

(** Al and Bo in the park, Cy on the beach, Di connected but not joined, Ed in
    the park behind a closed socket. *)
Definition lobby : Server :=
  mkServer
    [("a", joined "a" "Al" "Park" openSocket 1000);
     ("b", joined "b" "Bo" "Park" openSocket 2000);
     ("c", joined "c" "Cy" "Beach" openSocket 3000);
     ("d", connected "d" openSocket 4000);
     ("e", joined "e" "Ed" "Park" closedSocket 5000)]
    [].

Ltac solve_wf :=
  split;
  [ simpl; repeat constructor; simpl; intuition discriminate
  | intros ? ? Hin; simpl in Hin;
    repeat (destruct Hin as [Hin|Hin]; [injection Hin as <- <-; reflexivity|]);
    destruct Hin ].

Ltac ne_lit := let H := fresh in intro H; vm_compute in H; discriminate H.

Ltac solve_quiet :=
  intros ? ? Hin; simpl in Hin;
  repeat (destruct Hin as [Hin|Hin]; [injection Hin as <- <-; reflexivity|]);
  destruct Hin.

(** A stand-in for the built-in [parseFloat] on the inputs of the examples:
    a number reads back as itself (the sign of zero is lost, as it is through
    the decimal form), the strings listed read as JavaScript reads them, and
    the other values used are not numbers. *)
Definition parseFloat_sample (v : Value) : float :=
  match v with
  | VNumber n => if PrimFloat.is_zero n then 0%float else n
  | VString s =>
      if JSString_eqb s "150" then 150%float
      else if JSString_eqb s "-3" then (-3)%float
      else if JSString_eqb s "42.5" then 42.5%float
      else nan
  | _ => nan
  end.

(** Al connects and joins, Bo connects and joins; each step returns with no
    fuel. *)
Definition script : list Event :=
  [Connection "a" openSocket "10.0.0.7" 1000;
   WsMessage "a"
     (Some (VObject ["type" |-> VString "player_join";
                     "data" |-> VObject ["nickname" |-> VString "Al"]]))
     1001 1002;
   Connection "b" openSocket "10.0.0.8" 2000;
   WsMessage "b"
     (Some (VObject ["type" |-> VString "player_join";
                     "data" |-> VObject ["nickname" |-> VString "Bo";
                                         "id" |-> VString "a"]]))
     2001 2002].

Fixpoint run (parseFloat : Value -> float) (fuel : nat) (events : list Event)
    (s : Server) : option Server :=
  match events with
  | [] => Some s
  | e :: events' =>
      match step parseFloat fuel e s with
      | Some s' => run parseFloat fuel events' s'
      | None => None
      end
  end.

Definition twoPlayers : Server :=
  mkServer
    [("a", Player.mk "a" openSocket
             (Some ["nickname" |-> VString "Al"; "id" |-> VString "a";
                    "joinTime" |-> VNumber 1002])
             "Park" 1001 "10.0.0.7");
     ("b", Player.mk "b" openSocket
             (Some ["nickname" |-> VString "Bo"; "id" |-> VString "b";
                    "joinTime" |-> VNumber 2002])
             "Park" 2001 "10.0.0.8")]
    [("a", connection_established "a");
     ("a", Message.mk "player_list" (VArray []));
     ("b", connection_established "b");
     ("b", Message.mk "player_list"
             (VArray [VObject ["nickname" |-> VString "Al"; "id" |-> VString "a";
                               "joinTime" |-> VNumber 1002]]));
     ("a", Message.mk "player_joined"
             (VObject ["nickname" |-> VString "Bo"; "id" |-> VString "b";
                       "joinTime" |-> VNumber 2002]))].

(** The server after [events], each run with no fuel. *)
Definition after (parseFloat : Value -> float) (events : list Event) : Server :=
  match run parseFloat 0 events newServer with
  | Some s => s
  | None => newServer
  end.

(** Al and Bo have joined; Di has connected and not joined. *)
Definition withGuest : Server :=
  after parseFloat_sample (script ++ [Connection "d" openSocket "10.0.0.7" 3000]).

(** Al moves far east and, by a numeric string, south of the map. *)
Definition moveOut : Event :=
  WsMessage "a"
    (Some (VObject ["type" |-> VString "player_move";
                    "data" |-> VObject ["x" |-> VNumber 150; "y" |-> VString "-3"]]))
    4000 4001.

Definition afterMove : Server :=
  after parseFloat_sample
    (script ++ [Connection "d" openSocket "10.0.0.7" 3000; moveOut]).

(** The [case] labels of the [switch]. *)
Definition isKnownType (type : Value) : bool :=
  strictEq type "player_join" || strictEq type "player_leave" ||
  strictEq type "chat_message" || strictEq type "player_move".

(** A [player_move] envelope without [data]. *)
Definition moveWithoutData : RawMessage :=
  Some (VObject ["type" |-> VString "player_move"]).

(** An envelope of unknown type. *)
Definition bogus : RawMessage := Some (VObject ["type" |-> VString "bogus"]).

(** A chat text of [n] letters x. *)
Definition letters (n : nat) : JSString := repeat 120%N n.

(** The sweep when no transport raises: every entry of the snapshot that is
    still registered and stale is cleaned up as a disconnect is. *)
Definition reapOne (now : float) (s : Server) (k : string) : Server :=
  match Map_get k (players s) with
  | Some p => if isStale now p then disconnected k s else s
  | None => s
  end.

Definition reaped (now : float) (s : Server) : Server :=
  fold_left (reapOne now) (map fst (players s)) s.

(** The body of the reaper's loop. *)
Definition reapStep (fuel : nat) (now : float) (playerId : string)
    (player : Player.t) (s : Server) : Completion :=
  if isStale now player then handlePlayerDisconnect fuel playerId s else Normal s.

Definition failingSocket : WebSocket.t := WebSocket.mk WebSocket.OPEN true.

(** Al and Bo in the park; the socket of Bo raises on [send]. *)
Definition oneFailing : Server :=
  mkServer
    [("a", joined "a" "Al" "Park" openSocket 1000);
     ("b", joined "b" "Bo" "Park" failingSocket 2000)]
    [].

(** The sockets of both raise. *)
Definition bothFailing : Server :=
  mkServer
    [("a", joined "a" "Al" "Park" failingSocket 1000);
     ("b", joined "b" "Bo" "Park" failingSocket 2000)]
    [].

(** Ed behind a closed socket, beside Al and Bo whose sockets raise. *)
Definition staleBesideFailing : Server :=
  mkServer
    [("e", joined "e" "Ed" "Park" closedSocket 5000);
     ("a", joined "a" "Al" "Park" failingSocket 1000);
     ("b", joined "b" "Bo" "Park" failingSocket 2000)]
    [].

(** Cy watches from an open socket while the sockets of Al and Bo raise. *)
Definition watched : Server :=
  mkServer
    [("c", joined "c" "Cy" "Park" openSocket 3000);
     ("a", joined "a" "Al" "Park" failingSocket 1000);
     ("b", joined "b" "Bo" "Park" failingSocket 2000)]
    [].

(** A value that does not convert to a string: [{"toString": null}]. *)
Definition unconvertible : Value := VObject ["toString" |-> VNull].

(** Di joins under a nickname that does not convert. *)
Definition oddJoin : Event :=
  WsMessage "d"
    (Some (VObject ["type" |-> VString "player_join";
                    "data" |-> VObject ["nickname" |-> unconvertible]]))
    4000 4001.

Definition masked : Server :=
  after parseFloat_sample
    (script ++ [Connection "d" openSocket "10.0.0.7" 3000; oddJoin]).

(** ** Further descriptions: delivery, ownership, white space *)

(** The player an envelope goes to is registered with a socket that is open
    and does not raise. *)
Definition hears (m : Map Player.t) (e : string * Message.t) : Prop :=
  exists p,
    Map_get (fst e) m = Some p /\
    WebSocket.isOpen (Player.ws p) = true /\
    WebSocket.sendFails (Player.ws p) = false.

(** A failure handler that, however it ends, has only removed entries and
    only written to players who hear. *)
Definition discreet (h : string -> Server -> Completion) : Prop :=
  forall k s c, h k s = c ->
    restricts s (stateOf c) /\ wrote (hears (players s)) s (stateOf c).

(** Every player is stored under its own id, and a profile carries that id
    and a numeric [joinTime]. *)
Definition owned (s : Server) : Prop :=
  forall k p,
    Map_get k (players s) = Some p ->
    Player.id p = k /\
    forall d, Player.data p = Some d ->
      obj_get "id" d = VString k /\ exists t, obj_get "joinTime" d = VNumber t.

Definition isString (v : Value) : bool :=
  match v with
  | VString _ => true
  | _ => false
  end.

(** The entries of the registry whose socket is open, each paired with
    [message]. *)
Definition notices (message : Message.t) (m : Map Player.t) : list (string * Message.t) :=
  map (fun kp => (fst kp, message))
    (filter (fun kp => WebSocket.isOpen (Player.ws (snd kp))) m).

(** Al in the park, Di connected and not joined. *)
Definition lounge : Server :=
  mkServer
    [("a", joined "a" "Al" "Park" openSocket 1000);
     ("d", connected "d" openSocket 4000)]
    [].

(** Every player of [s'] was in [s] with the same socket, address and
    [lastActivity]. *)
Definition sameLinks (s s' : Server) : Prop :=
  forall k p',
    Map_get k (players s') = Some p' ->
    exists p,
      Map_get k (players s) = Some p /\
      Player.ws p' = Player.ws p /\
      Player.lastActivity p' = Player.lastActivity p /\
      Player.ip p' = Player.ip p.

(** The socket is open and raises on [send]. *)
Definition failing (p : Player.t) : Prop :=
  WebSocket.isOpen (Player.ws p) = true /\ WebSocket.sendFails (Player.ws p) = true.

(** A failure handler that, however it ends, has removed, besides the
    player it is called for, only players whose socket raises. *)
Definition sparing (h : string -> Server -> Completion) : Prop :=
  forall k s c, h k s = c ->
    restricts s (stateOf c) /\
    forall k' p', Map_get k' (players s) = Some p' ->
                  Map_get k' (players (stateOf c)) = None ->
                  k' = k \/ failing p'.
(** ** The registry as a map *)

Lemma Map_get_In {V : Type} (k : string) (v : V) (m : Map V) :
  Map_get k m = Some v -> In (k, v) m.
Proof.
  induction m as [|[k' v'] m IH]; simpl; [discriminate|].
  destruct (String.eqb_spec k' k) as [->|].
  - intros [= ->]. now left.
  - intros H. right. now apply IH.
Qed.

Lemma In_Map_get {V : Type} (k : string) (v : V) (m : Map V) :
  NoDup (map fst m) -> In (k, v) m -> Map_get k m = Some v.
Proof.
  induction m as [|[k' v'] m IH]; simpl; [easy|].
  intros Hnd [[= -> ->]|Hin].
  - now rewrite String.eqb_refl.
  - inversion Hnd as [|? ? Hk Hnd']; subst.
    destruct (String.eqb_spec k' k) as [->|].
    + exfalso. apply Hk. now apply (in_map fst) in Hin.
    + now apply IH.
Qed.

Lemma Map_get_set_eq {V : Type} (k : string) (v : V) (m : Map V) :
  Map_get k (Map_set k v m) = Some v.
Proof.
  induction m as [|[k' v'] m IH]; simpl.
  - now rewrite String.eqb_refl.
  - destruct (String.eqb_spec k' k) as [->|Hne]; simpl.
    + now rewrite String.eqb_refl.
    + destruct (String.eqb_spec k' k); [contradiction|exact IH].
Qed.

Lemma Map_get_set_neq {V : Type} (k k' : string) (v : V) (m : Map V) :
  k <> k' -> Map_get k' (Map_set k v m) = Map_get k' m.
Proof.
  intros Hne. induction m as [|[k0 v0] m IH]; simpl.
  - destruct (String.eqb_spec k k'); [contradiction|reflexivity].
  - destruct (String.eqb_spec k0 k) as [->|]; simpl.
    + destruct (String.eqb_spec k k'); [contradiction|reflexivity].
    + now rewrite IH.
Qed.

Lemma Map_get_filter {V : Type} (keep : string -> bool) (k : string) (m : Map V) :
  Map_get k (filter (fun kv => keep (fst kv)) m) =
  if keep k then Map_get k m else None.
Proof.
  induction m as [|[k' v'] m IH]; simpl.
  - now destruct (keep k).
  - destruct (keep k') eqn:Hk'; simpl.
    + destruct (String.eqb_spec k' k) as [->|]; [now rewrite Hk'|exact IH].
    + destruct (String.eqb_spec k' k) as [->|]; [|exact IH].
      rewrite Hk' in IH. now rewrite Hk'.
Qed.

Lemma Map_get_delete {V : Type} (k k' : string) (m : Map V) :
  Map_get k' (Map_delete k m) = if k' =? k then None else Map_get k' m.
Proof.
  unfold Map_delete.
  rewrite (Map_get_filter (fun x => negb (x =? k))).
  now destruct (k' =? k).
Qed.

Lemma Map_set_keys {V : Type} (k : string) (v v0 : V) (m : Map V) :
  Map_get k m = Some v0 -> map fst (Map_set k v m) = map fst m.
Proof.
  induction m as [|[k' v'] m IH]; simpl; [discriminate|].
  destruct (String.eqb_spec k' k) as [->|]; simpl; [reflexivity|].
  intros H. now rewrite IH.
Qed.

Lemma Map_set_keys_new {V : Type} (k : string) (v : V) (m : Map V) :
  Map_get k m = None -> map fst (Map_set k v m) = map fst m ++ [k].
Proof.
  induction m as [|[k' v'] m IH]; simpl; [reflexivity|].
  destruct (String.eqb_spec k' k) as [->|]; simpl; [discriminate|].
  intros H. now rewrite IH.
Qed.

Lemma Map_get_None_keys {V : Type} (k : string) (m : Map V) :
  Map_get k m = None -> ~ In k (map fst m).
Proof.
  induction m as [|[k' v'] m IH]; simpl; [tauto|].
  destruct (String.eqb_spec k' k) as [->|]; [discriminate|].
  intros H [Heq|Hin]; [contradiction|]. now apply IH.
Qed.

Lemma NoDup_filter_keys {V : Type} (keep : string -> bool) (m : Map V) :
  NoDup (map fst m) -> NoDup (map fst (filter (fun kv => keep (fst kv)) m)).
Proof.
  induction m as [|[k v] m IH]; simpl; [easy|].
  intros Hnd. inversion Hnd as [|? ? Hk Hnd']; subst.
  destruct (keep k); simpl; [|now apply IH].
  constructor; [|now apply IH].
  intros Hin. apply Hk.
  apply in_map_iff in Hin as [[k' v'] [Hfst Hin]]. simpl in Hfst. subst k'.
  apply filter_In in Hin as [Hin _]. now apply (in_map fst) in Hin.
Qed.

Lemma In_Map_set {V : Type} (k k0 : string) (v v0 : V) (m : Map V) :
  In (k0, v0) (Map_set k v m) -> (k0 = k /\ v0 = v) \/ In (k0, v0) m.
Proof.
  induction m as [|[k' v'] m IH]; simpl.
  - intros [[= <- <-]|[]]. now left.
  - destruct (String.eqb_spec k' k) as [->|Hne]; simpl.
    + intros [[= <- <-]|Hin]; [now left|right; now right].
    + intros [Heq|Hin]; [right; now left|].
      destruct (IH Hin) as [?|?]; [now left|right; now right].
Qed.

Lemma NoDup_Map_set {V : Type} (k : string) (v : V) (m : Map V) :
  NoDup (map fst m) -> NoDup (map fst (Map_set k v m)).
Proof.
  intros Hnd. destruct (Map_get k m) as [v0|] eqn:Hget.
  - now rewrite (Map_set_keys k v v0).
  - rewrite Map_set_keys_new by assumption.
    apply NoDup_app; [assumption|repeat constructor; easy|].
    intros x Hx [<-|[]]. now apply (Map_get_None_keys k m).
Qed.

(** ** Well-formedness and restriction *)

Lemma wf_new : wf newServer.
Proof. split; [constructor|intros k p []]. Qed.

Lemma wf_set (k : string) (p : Player.t) (s : Server) :
  wf s -> Player.id p = k -> wf (setPlayers (Map_set k p (players s)) s).
Proof.
  intros [Hnd Hid] Hp. split; simpl.
  - now apply NoDup_Map_set.
  - intros k0 p0 Hin. apply In_Map_set in Hin as [[-> ->]|Hin]; [assumption|].
    now apply Hid.
Qed.

Lemma wf_restricts (s s' : Server) : wf s -> restricts s s' -> wf s'.
Proof.
  intros [Hnd Hid] [keep Hk]. split; rewrite Hk.
  - now apply NoDup_filter_keys.
  - intros k p Hin. apply filter_In in Hin as [Hin _]. now apply Hid.
Qed.

Lemma wf_get (s : Server) (k : string) (p : Player.t) :
  wf s -> In (k, p) (players s) ->
  Map_get (Player.id p) (players s) = Some p /\ Player.id p = k.
Proof.
  intros [Hnd Hid] Hin. rewrite (Hid _ _ Hin). split; [|reflexivity].
  now apply In_Map_get.
Qed.

Lemma restricts_refl (s : Server) : restricts s s.
Proof.
  exists (fun _ => true). induction (players s) as [|kp m IH]; simpl; [reflexivity|].
  now rewrite <- IH.
Qed.

Lemma restricts_trans (s1 s2 s3 : Server) :
  restricts s1 s2 -> restricts s2 s3 -> restricts s1 s3.
Proof.
  intros [f Hf] [g Hg]. exists (fun k => f k && g k).
  rewrite Hg, Hf. clear. induction (players s1) as [|kp m IH]; simpl; [reflexivity|].
  destruct (f (fst kp)); simpl; [|exact IH].
  destruct (g (fst kp)); simpl; [now rewrite IH|exact IH].
Qed.

Lemma restricts_delete (k : string) (s : Server) :
  restricts s (setPlayers (Map_delete k (players s)) s).
Proof. now exists (fun x => negb (x =? k)). Qed.

Lemma restricts_wire (s : Server) (w : list (string * Message.t)) :
  restricts s (mkServer (players s) w).
Proof. destruct (restricts_refl s) as [f Hf]. now exists f. Qed.

Lemma restricts_get (s s' : Server) (k : string) (p : Player.t) :
  restricts s s' -> Map_get k (players s') = Some p -> Map_get k (players s) = Some p.
Proof.
  intros [keep Hk]. rewrite Hk, Map_get_filter. now destruct (keep k).
Qed.

Lemma restricts_quiet (s s' : Server) : restricts s s' -> quiet s -> quiet s'.
Proof.
  intros [keep Hk] Hq k p Hin. rewrite Hk in Hin.
  apply filter_In in Hin as [Hin _]. now apply (Hq k).
Qed.

Lemma left_notice_mono (s s' : Server) (e : string * Message.t) :
  restricts s s' -> left_notice (players s') e -> left_notice (players s) e.
Proof.
  intros Hr (p & a & pa & profile & Hp & Hd & Ha & Hda & Hne & Hloc & Hmsg).
  exists p, a, pa, profile. repeat split; eauto using restricts_get.
Qed.

Lemma wrote_refl (P : string * Message.t -> Prop) (s : Server) : wrote P s s.
Proof. exists []. now rewrite app_nil_r. Qed.

Lemma wrote_trans (P : string * Message.t -> Prop) (s1 s2 s3 : Server) :
  wrote P s1 s2 -> wrote P s2 s3 -> wrote P s1 s3.
Proof.
  intros (d1 & H1 & F1) (d2 & H2 & F2). exists (d1 ++ d2). split.
  - now rewrite H2, H1, app_assoc.
  - apply Forall_app. now split.
Qed.

Lemma wrote_impl (P Q : string * Message.t -> Prop) (s s' : Server) :
  (forall e, P e -> Q e) -> wrote P s s' -> wrote Q s s'.
Proof.
  intros HPQ (d & H & F). exists d. split; [assumption|].
  eapply Forall_impl; [|exact F]. exact HPQ.
Qed.

Lemma wrote_players (P : string * Message.t -> Prop) (s s' : Server) (m : Map Player.t) :
  wrote P s s' -> wrote P s (setPlayers m s').
Proof. intros H. exact H. Qed.

(** ** [getPlayersInLocation] *)

Lemma excluded_false (excludePlayerId : option string) (k : string) :
  excluded excludePlayerId k = false <-> excludePlayerId <> Some k.
Proof.
  destruct excludePlayerId as [e|]; simpl; [|split; [discriminate|reflexivity]].
  destruct (String.eqb_spec k e) as [->|Hne]; split; congruence.
Qed.

Lemma isActive_true (p : Player.t) : Player.isActive p = true <-> Player.data p <> None.
Proof. unfold Player.isActive. destruct (Player.data p); split; congruence. Qed.

Lemma getPlayersInLocation_In (m : Map Player.t) (location : string)
    (excludePlayerId : option string) (p : Player.t) :
  In p (getPlayersInLocation m location excludePlayerId) <->
  exists k, In (k, p) m /\ excludePlayerId <> Some k /\
            Player.location p = location /\ Player.data p <> None.
Proof.
  induction m as [|[k q] m IH]; simpl.
  - split; [tauto|]. now intros (k & [] & _).
  - assert (Hskip :
      (excluded excludePlayerId k = true \/ Player.location q <> location \/
       Player.data q = None) ->
      (In p (getPlayersInLocation m location excludePlayerId) <->
       exists k0, ((k, q) = (k0, p) \/ In (k0, p) m) /\ excludePlayerId <> Some k0 /\
                  Player.location p = location /\ Player.data p <> None)).
    { intros Hskip. rewrite IH. split.
      - intros (k0 & Hin & Hrest). exists k0. split; [now right|exact Hrest].
      - intros (k0 & [Heq|Hin] & Hne & Hl & Hd); [|exists k0; tauto].
        injection Heq as <- <-. apply excluded_false in Hne.
        destruct Hskip as [Hx|[Hx|Hx]]; congruence. }
    destruct (excluded excludePlayerId k) eqn:Hex; [apply Hskip; now left|].
    destruct (String.eqb_spec (Player.location q) location) as [Hloc|Hloc]; simpl;
      [|apply Hskip; right; now left].
    destruct (Player.isActive q) eqn:Hact; simpl.
    + apply isActive_true in Hact. apply excluded_false in Hex. rewrite IH. split.
      * intros [<-|(k0 & Hin & Hrest)]; [exists k; split; [now left|tauto]|].
        exists k0. split; [now right|exact Hrest].
      * intros (k0 & [Heq|Hin] & Hrest); [injection Heq as <- <-; now left|].
        right. exists k0. tauto.
    + apply Hskip. right. right. unfold Player.isActive in Hact.
      now destruct (Player.data q).
Qed.

(** ** Strings and objects *)

Lemma JSString_eqb_spec (a b : JSString) : reflect (a = b) (JSString_eqb a b).
Proof.
  revert b. induction a as [|x a IH]; intros [|y b]; simpl; try (constructor; congruence).
  destruct (N.eqb_spec x y) as [->|Hne]; simpl.
  - destruct (IH b) as [->|Hne]; constructor; congruence.
  - constructor. congruence.
Qed.

Lemma JSString_eqb_refl (a : JSString) : JSString_eqb a a = true.
Proof. now destruct (JSString_eqb_spec a a). Qed.

Lemma lit_inj (a b : string) : lit a = lit b -> a = b.
Proof.
  unfold lit. revert b. induction a as [|c a IH]; intros [|d b]; simpl; try discriminate.
  - reflexivity.
  - intros [= Hc Hrest]. f_equal; [|now apply IH].
    rewrite <- (ascii_N_embedding c), <- (ascii_N_embedding d). now rewrite Hc.
Qed.

Lemma strictEq_true (v : Value) (literal : string) :
  strictEq v literal = true <-> v = VString literal.
Proof.
  destruct v; simpl; try (split; [discriminate|discriminate]).
  destruct (JSString_eqb_spec s literal) as [->|Hne]; split; congruence.
Qed.

Lemma strictEq_lit (a b : string) : strictEq (VString a) b = true -> a = b.
Proof. intros H. apply strictEq_true in H. injection H as H. now apply lit_inj. Qed.

Lemma obj_get_set_eq (k : JSString) (v : Value) (o : Object) :
  obj_get k (obj_set k v o) = v.
Proof.
  induction o as [|[k' v'] o IH]; simpl.
  - now rewrite JSString_eqb_refl.
  - destruct (JSString_eqb_spec k' k) as [->|Hne]; simpl.
    + now rewrite JSString_eqb_refl.
    + destruct (JSString_eqb_spec k' k); [contradiction|exact IH].
Qed.

Lemma obj_get_set_neq (k k' : JSString) (v : Value) (o : Object) :
  k <> k' -> obj_get k' (obj_set k v o) = obj_get k' o.
Proof.
  intros Hne. induction o as [|[k0 v0] o IH]; simpl.
  - destruct (JSString_eqb_spec k k'); [contradiction|reflexivity].
  - destruct (JSString_eqb_spec k0 k) as [->|]; simpl.
    + destruct (JSString_eqb_spec k k'); [contradiction|reflexivity].
    + now rewrite IH.
Qed.

Lemma Map_set_same {V : Type} (k : string) (v : V) (m : Map V) :
  Map_get k m = Some v -> Map_set k v m = m.
Proof.
  induction m as [|[k' v'] m IH]; simpl; [discriminate|].
  destruct (String.eqb_spec k' k) as [->|]; [now intros [= ->]|].
  intros H. now rewrite IH.
Qed.

Lemma Map_set_set {V : Type} (k : string) (v v' : V) (m : Map V) :
  Map_set k v' (Map_set k v m) = Map_set k v' m.
Proof.
  induction m as [|[k0 v0] m IH]; simpl.
  - now rewrite String.eqb_refl.
  - destruct (String.eqb_spec k0 k) as [->|Hne]; simpl.
    + now rewrite String.eqb_refl.
    + destruct (String.eqb_spec k0 k); [contradiction|now rewrite IH].
Qed.

Lemma Map_delete_set {V : Type} (k : string) (v : V) (m : Map V) :
  Map_delete k (Map_set k v m) = Map_delete k m.
Proof.
  unfold Map_delete. induction m as [|[k' v'] m IH]; simpl.
  - now rewrite String.eqb_refl.
  - destruct (String.eqb_spec k' k) as [->|Hne]; simpl.
    + now rewrite String.eqb_refl.
    + destruct (String.eqb_spec k' k); [contradiction|]. simpl. now rewrite IH.
Qed.

Lemma Map_delete_absent {V : Type} (k : string) (m : Map V) :
  Map_get k m = None -> Map_delete k m = m.
Proof.
  unfold Map_delete. induction m as [|[k' v'] m IH]; simpl; [reflexivity|].
  destruct (String.eqb_spec k' k) as [->|Hne]; [discriminate|].
  intros H. simpl. now rewrite IH.
Qed.

Lemma updated_same (k : string) (p : Player.t) (s : Server) :
  Map_get k (players s) = Some p -> updated k p s = s.
Proof.
  intros Hget. unfold updated, setPlayers. rewrite Map_set_same by assumption.
  now destruct s.
Qed.

Lemma updated_updated (k : string) (p p2 : Player.t) (s : Server) :
  updated k p2 (updated k p s) = updated k p2 s.
Proof. unfold updated, setPlayers. simpl. now rewrite Map_set_set. Qed.

Lemma wf_updated (k : string) (p p2 : Player.t) (s : Server) :
  wf s -> Map_get k (players s) = Some p -> Player.id p2 = Player.id p ->
  wf (updated k p2 s) /\ Map_get k (players (updated k p2 s)) = Some p2.
Proof.
  intros Hwf Hget Hid. split; [|apply Map_get_set_eq].
  apply wf_set; [exact Hwf|]. rewrite Hid.
  now destruct (wf_get _ _ _ Hwf (Map_get_In _ _ _ Hget)).
Qed.

(** ** How calls end *)

Lemma andThen_Normal (c : Completion) (rest : Server -> Completion) (s' : Server) :
  andThen c rest = Normal s' -> exists s1, c = Normal s1 /\ rest s1 = Normal s'.
Proof. destruct c as [s1|s1]; simpl; [|discriminate]. intros H. now exists s1. Qed.

Lemma returned_Some (c : Completion) (s' : Server) :
  returned c = Some s' <-> c = Normal s'.
Proof. destruct c; simpl; split; congruence. Qed.

(** ** What sends, broadcasts and cleanups do, whatever the transports do *)

Lemma wrote_transmit (P : string * Message.t -> Prop) (k : string)
    (message : Message.t) (s : Server) :
  P (k, message) -> wrote P s (transmit k message s).
Proof. intros HP. exists [(k, message)]. split; [reflexivity|now constructor]. Qed.

Lemma sendToPlayer_tidy (h : string -> Server -> Completion) (k : string)
    (message : Message.t) (s : Server) (c : Completion) :
  tidy h -> wf s -> sendToPlayer_ h k message s = c ->
  restricts s (stateOf c) /\
  wrote (fun e =>
           (e = (k, message) /\
            exists p, Map_get k (players s) = Some p /\
                      WebSocket.isOpen (Player.ws p) = true) \/
           left_notice (players s) e) s (stateOf c).
Proof.
  intros Hh Hwf. unfold sendToPlayer_.
  destruct (Map_get k (players s)) as [p|] eqn:Hget.
  - destruct (WebSocket.isOpen (Player.ws p)) eqn:Hopen.
    + destruct (WebSocket.sendFails (Player.ws p)).
      * intros H. destruct (Hh _ _ _ Hwf H) as [Hr Hw]. split; [exact Hr|].
        eapply wrote_impl; [|exact Hw]. intros e He. now right.
      * intros <-. split; [apply restricts_wire|].
        apply wrote_transmit. left. split; [reflexivity|]. now exists p.
    + intros <-. split; [apply restricts_refl|apply wrote_refl].
  - intros <-. split; [apply restricts_refl|apply wrote_refl].
Qed.

Lemma forEach_send_tidy (h : string -> Server -> Completion) (location : string)
    (message : Message.t) (excludePlayerId : option string) (s0 : Server)
    (l : list Player.t) :
  tidy h -> wf s0 ->
  (forall p, In p l -> In p (getPlayersInLocation (players s0) location excludePlayerId)) ->
  forall s c,
    restricts s0 s ->
    forEach (fun player => sendToPlayer_ h (Player.id player) message) l s = c ->
    restricts s (stateOf c) /\
    wrote (fun e => cast (players s0) location message excludePlayerId e \/
                    left_notice (players s0) e) s (stateOf c).
Proof.
  intros Hh Hwf0. induction l as [|p l IH]; intros Hl s c Hr; simpl.
  - intros <-. split; [apply restricts_refl|apply wrote_refl].
  - assert (Hwf : wf s) by (eapply wf_restricts; eassumption).
    assert (Hone : forall c1,
              sendToPlayer_ h (Player.id p) message s = c1 ->
              restricts s (stateOf c1) /\
              wrote (fun e => cast (players s0) location message excludePlayerId e \/
                              left_notice (players s0) e) s (stateOf c1)).
    { intros c1 Hsend.
      destruct (sendToPlayer_tidy _ _ _ _ _ Hh Hwf Hsend) as [Hr1 Hw1].
      split; [exact Hr1|]. eapply wrote_impl; [|exact Hw1].
      intros e [[-> (q & Hq & Hopen)]|He].
      + left. split; [reflexivity|]. simpl.
        apply (restricts_get _ _ _ _ Hr) in Hq.
        destruct (proj1 (getPlayersInLocation_In _ _ _ _) (Hl p (or_introl eq_refl)))
          as (k & Hin & Hex & Hloc & Hdata).
        destruct (wf_get _ _ _ Hwf0 Hin) as [Hp Hk].
        rewrite Hp in Hq. injection Hq as <-.
        exists p. simpl. rewrite Hk in *.
        split; [assumption|]. split; [assumption|]. split; [assumption|].
        split; assumption.
      + right. eapply left_notice_mono; [|exact He]. exact Hr. }
    destruct (sendToPlayer_ h (Player.id p) message s) as [s1|s1] eqn:Hsend; simpl.
    + intros Hrest. destruct (Hone _ eq_refl) as [Hr1 Hw1]. simpl in Hr1, Hw1.
      assert (Hr01 : restricts s0 s1) by (eapply restricts_trans; eassumption).
      destruct (IH (fun q Hq => Hl q (or_intror Hq)) s1 c Hr01 Hrest) as [Hr2 Hw2].
      split; [eapply restricts_trans; eassumption|].
      eapply wrote_trans; eassumption.
    + intros <-. exact (Hone _ eq_refl).
Qed.

Lemma broadcastToLocation_tidy (h : string -> Server -> Completion)
    (location : string) (message : Message.t) (excludePlayerId : option string)
    (s : Server) (c : Completion) :
  tidy h -> wf s ->
  broadcastToLocation_ h location message excludePlayerId s = c ->
  restricts s (stateOf c) /\
  wrote (fun e => cast (players s) location message excludePlayerId e \/
                  left_notice (players s) e) s (stateOf c).
Proof.
  intros Hh Hwf H. unfold broadcastToLocation_ in H.
  eapply forEach_send_tidy; try eassumption; [now intros p Hp|apply restricts_refl].
Qed.

Lemma handlePlayerDisconnect_eq (fuel : nat) (playerId : string) (s : Server) :
  handlePlayerDisconnect fuel playerId s =
  match Map_get playerId (players s) with
  | Some player =>
      do s' <-
        match Player.data player with
        | Some profile =>
            broadcastToLocation fuel (Player.location player)
              (player_left playerId profile) (Some playerId) s
        | None => Normal s
        end;
      Normal (setPlayers (Map_delete playerId (players s')) s')
  | None => Normal s
  end.
Proof. destruct fuel; reflexivity. Qed.

Lemma cast_left_notice (m : Map Player.t) (k : string) (player : Player.t)
    (profile : Object) (e : string * Message.t) :
  Map_get k m = Some player -> Player.data player = Some profile ->
  cast m (Player.location player) (player_left k profile) (Some k) e ->
  left_notice m e.
Proof.
  intros Hget Hdata (Hmsg & p & Hp & Hd & Hloc & Hex & _).
  exists p, k, player, profile. repeat split; try assumption.
  intros ->. now apply Hex.
Qed.

Lemma handlePlayerDisconnect_tidy_step (fuel : nat) :
  tidy (onSendFailure fuel) -> tidy (handlePlayerDisconnect fuel).
Proof.
  intros Hh k s c Hwf. rewrite handlePlayerDisconnect_eq.
  destruct (Map_get k (players s)) as [player|] eqn:Hget.
  - destruct (Player.data player) as [profile|] eqn:Hdata.
    + destruct (broadcastToLocation _ _ _ _ _) as [s1|s1] eqn:Hb; simpl; intros <-;
        destruct (broadcastToLocation_tidy _ _ _ _ _ _ Hh Hwf Hb) as [Hr Hw];
        simpl in Hr, Hw |- *.
      * split; [eapply restricts_trans; [exact Hr|apply restricts_delete]|].
        apply wrote_players. eapply wrote_impl; [|exact Hw].
        intros e [He|He]; [|exact He]. eapply cast_left_notice; eassumption.
      * split; [exact Hr|]. eapply wrote_impl; [|exact Hw].
        intros e [He|He]; [|exact He]. eapply cast_left_notice; eassumption.
    + simpl. intros <-. simpl.
      split; [apply restricts_delete|apply wrote_players, wrote_refl].
  - intros <-. split; [apply restricts_refl|apply wrote_refl].
Qed.

Lemma onSendFailure_tidy (fuel : nat) : tidy (onSendFailure fuel).
Proof.
  induction fuel as [|fuel IH]; simpl.
  - intros k s c _ <-. split; [apply restricts_refl|apply wrote_refl].
  - now apply handlePlayerDisconnect_tidy_step.
Qed.

Lemma handlePlayerDisconnect_tidy (fuel : nat) : tidy (handlePlayerDisconnect fuel).
Proof. apply handlePlayerDisconnect_tidy_step, onSendFailure_tidy. Qed.

Lemma handlePlayerDisconnect_absent (fuel : nat) (k : string) (s s' : Server) :
  handlePlayerDisconnect fuel k s = Normal s' -> Map_get k (players s') = None.
Proof.
  rewrite handlePlayerDisconnect_eq.
  destruct (Map_get k (players s)) as [player|] eqn:Hget.
  - intros H. apply andThen_Normal in H as (s1 & _ & [= <-]).
    simpl. now rewrite Map_get_delete, String.eqb_refl.
  - now intros [= <-].
Qed.

(** An exception in the cleanup leaves the player it was called for where it
    was. *)
Lemma handlePlayerDisconnect_thrown (fuel : nat) (k : string) (s s' : Server) :
  wf s -> handlePlayerDisconnect fuel k s = Throw s' ->
  exists player profile,
    Map_get k (players s) = Some player /\ Player.data player = Some profile /\
    broadcastToLocation fuel (Player.location player) (player_left k profile)
      (Some k) s = Throw s'.
Proof.
  intros Hwf. rewrite handlePlayerDisconnect_eq.
  destruct (Map_get k (players s)) as [player|] eqn:Hget; [|discriminate].
  destruct (Player.data player) as [profile|] eqn:Hdata; [|discriminate].
  destruct (broadcastToLocation _ _ _ _ _) as [s1|s1] eqn:Hb; simpl; [discriminate|].
  intros [= <-]. now exists player, profile.
Qed.

(** ** Failing sends, on examples *)

(** A send to Bo raises: Bo is cleaned up, and Al, although excluded from
    the broadcast, is told that Bo left.  One level of nesting is needed;
    with no room for it the broadcast raises, nothing sent, nobody removed. *)
Example failing_recipient :
  broadcastToLocation 1 "Park" (player_moved "a" 10 20) (Some "a") oneFailing =
  Normal (mkServer [("a", joined "a" "Al" "Park" openSocket 1000)]
            [("a", player_left "b" ["nickname" |-> VString "Bo"])]) /\
  broadcastToLocation 0 "Park" (player_moved "a" 10 20) (Some "a") oneFailing =
  Throw oneFailing.
Proof. split; reflexivity. Qed.

(** When two active players of one location both have a socket that raises,
    the cleanup of either starts the cleanup of the other, which starts the
    first again (it is deleted only after its broadcast): whatever room the
    stack has, the run ends in the RangeError, and both are still
    registered. *)
Example mutual_failure_never_returns (fuel : nat) :
  handlePlayerDisconnect fuel "a" bothFailing = Throw bothFailing /\
  handlePlayerDisconnect fuel "b" bothFailing = Throw bothFailing.
Proof.
  induction fuel as [|fuel [IHa IHb]]; [split; reflexivity|].
  split; rewrite handlePlayerDisconnect_eq; cbn -[handlePlayerDisconnect];
    [now rewrite IHb|now rewrite IHa].
Qed.
(** ** Sends, broadcasts and cleanups when no transport raises *)

Lemma sendToPlayer_quiet (h : string -> Server -> Completion) (k : string)
    (message : Message.t) (s : Server) :
  quiet s -> sendToPlayer_ h k message s = Normal (deliver k message s).
Proof.
  intros Hq. unfold sendToPlayer_, deliver.
  destruct (Map_get k (players s)) as [p|] eqn:Hget; [|reflexivity].
  destruct (WebSocket.isOpen (Player.ws p)); [|reflexivity].
  now rewrite (Hq k p (Map_get_In _ _ _ Hget)).
Qed.

Lemma forEach_send_quiet (h : string -> Server -> Completion)
    (message : Message.t) (m : Map Player.t) (l : list Player.t) :
  (forall k p, In (k, p) m -> WebSocket.sendFails (Player.ws p) = false) ->
  (forall p, In p l -> Map_get (Player.id p) m = Some p) ->
  forall w,
    forEach (fun player => sendToPlayer_ h (Player.id player) message) l (mkServer m w) =
    Normal (mkServer m (w ++ deliveries message l)).
Proof.
  intros Hq. induction l as [|p l IH]; intros Hl w; simpl.
  - unfold deliveries. simpl. now rewrite app_nil_r.
  - rewrite sendToPlayer_quiet by exact Hq.
    unfold deliver, deliveries. simpl.
    rewrite (Hl p (or_introl eq_refl)).
    destruct (WebSocket.isOpen (Player.ws p)); simpl.
    + unfold transmit. simpl. rewrite IH by (intros q Hq'; apply Hl; now right).
      unfold deliveries. now rewrite <- app_assoc.
    + rewrite IH by (intros q Hq'; apply Hl; now right). reflexivity.
Qed.

Lemma snapshot_get (s : Server) (location : string) (excludePlayerId : option string)
    (p : Player.t) :
  wf s -> In p (getPlayersInLocation (players s) location excludePlayerId) ->
  Map_get (Player.id p) (players s) = Some p.
Proof.
  intros Hwf Hin. apply getPlayersInLocation_In in Hin as (k & Hin & _).
  now destruct (wf_get _ _ _ Hwf Hin).
Qed.

Lemma broadcastToLocation_quiet (h : string -> Server -> Completion)
    (location : string) (message : Message.t) (excludePlayerId : option string)
    (s : Server) :
  wf s -> quiet s ->
  broadcastToLocation_ h location message excludePlayerId s =
  Normal (mkServer (players s)
          (wire s ++
           deliveries message (getPlayersInLocation (players s) location excludePlayerId))).
Proof.
  intros Hwf Hq. unfold broadcastToLocation_.
  destruct s as [m w]. simpl. apply forEach_send_quiet; [exact Hq|].
  intros p Hp. eapply (snapshot_get (mkServer m w)); eassumption.
Qed.

Lemma handlePlayerDisconnect_quiet (fuel : nat) (k : string) (s : Server) :
  wf s -> quiet s -> handlePlayerDisconnect fuel k s = Normal (disconnected k s).
Proof.
  intros Hwf Hq. rewrite handlePlayerDisconnect_eq. unfold disconnected.
  destruct (Map_get k (players s)) as [player|]; [|reflexivity].
  destruct (Player.data player) as [profile|].
  - unfold broadcastToLocation. now rewrite broadcastToLocation_quiet.
  - unfold setPlayers. now rewrite app_nil_r.
Qed.

Lemma deliveries_In (message : Message.t) (l : list Player.t) (e : string * Message.t) :
  In e (deliveries message l) <->
  exists p, In p l /\ WebSocket.isOpen (Player.ws p) = true /\ e = (Player.id p, message).
Proof.
  unfold deliveries. rewrite in_map_iff. split.
  - intros (p & <- & Hin). apply filter_In in Hin as [Hin Hopen]. now exists p.
  - intros (p & Hin & Hopen & ->). exists p. split; [reflexivity|].
    apply filter_In. now split.
Qed.

(** ** The sample registry is well formed and quiet *)

Lemma wf_lobby : wf lobby.
Proof. solve_wf. Qed.

Lemma quiet_lobby : quiet lobby.
Proof. solve_quiet. Qed.

(** ** The recipients of a broadcast *)

(** C1: the recipients of [broadcastToLocation(location, message,
    excludePlayerId)] are exactly the registered players whose profile is set,
    whose location is [location] and whose id is not the excluded one; so
    the excluded (acting) player is never among them, and a player on the
    beach is never among the recipients of a broadcast to the park.  Every
    envelope a terminating broadcast writes is [message] going to such a
    recipient, or the [player_left] notice of a cleanup started by a failing
    send, going to an active player other than the one who left and in the
    same location.  When no transport raises, the broadcast returns with any fuel,
    removes nobody and writes [message] once to each recipient with an open
    socket, in registry order. *)
Theorem broadcastToLocation_recipients (fuel : nat) (location : string)
    (message : Message.t) (excludePlayerId : option string) (s : Server) :
  wf s ->
  (forall player,
      In player (getPlayersInLocation (players s) location excludePlayerId) <->
      Map_get (Player.id player) (players s) = Some player /\
      Player.data player <> None /\
      Player.location player = location /\
      excludePlayerId <> Some (Player.id player)) /\
  (forall player,
      In player (getPlayersInLocation (players s) location excludePlayerId) ->
      excludePlayerId <> Some (Player.id player) /\
      (location = "Park" -> Player.location player <> "Beach")) /\
  (forall s',
      broadcastToLocation fuel location message excludePlayerId s = Normal s' ->
      exists sent,
        wire s' = wire s ++ sent /\
        forall e, In e sent ->
          cast (players s) location message excludePlayerId e \/
          left_notice (players s) e) /\
  (quiet s ->
   broadcastToLocation fuel location message excludePlayerId s =
   Normal (mkServer (players s)
             (wire s ++
              deliveries message
                (getPlayersInLocation (players s) location excludePlayerId)))).
Proof.
  intros Hwf.
  assert (Hmem : forall player,
      In player (getPlayersInLocation (players s) location excludePlayerId) <->
      Map_get (Player.id player) (players s) = Some player /\
      Player.data player <> None /\
      Player.location player = location /\
      excludePlayerId <> Some (Player.id player)).
  { intros player. rewrite getPlayersInLocation_In. split.
    - intros (k & Hin & Hex & Hloc & Hdata).
      destruct (wf_get _ _ _ Hwf Hin) as [Hget Hk]. rewrite <- Hk in Hex. tauto.
    - intros (Hget & Hdata & Hloc & Hex). exists (Player.id player).
      split; [now apply Map_get_In|tauto]. }
  split; [exact Hmem|]. split; [|split].
  - intros player Hin. apply Hmem in Hin as (_ & _ & Hloc & Hex).
    split; [exact Hex|]. intros -> Hbeach. rewrite Hbeach in Hloc. discriminate.
  - intros s' Hb.
    destruct (broadcastToLocation_tidy _ _ _ _ _ _ (onSendFailure_tidy fuel) Hwf Hb)
      as [_ (sent & Hw & Hall)].
    exists sent. split; [exact Hw|]. now apply Forall_forall.
  - intros Hq. now apply broadcastToLocation_quiet.
Qed.

Lemma broadcastToLocation_recipients_witness :
  wf lobby /\
  broadcastToLocation 0 "Park" (player_moved "a" 10 20) (Some "a") lobby =
  Normal (mkServer (players lobby) [("b", player_moved "a" 10 20)]).
Proof.
  split; [exact wf_lobby|].
  exact (proj2 (proj2 (proj2
    (broadcastToLocation_recipients 0 "Park" (player_moved "a" 10 20) (Some "a")
       lobby wf_lobby))) quiet_lobby).
Defined.

(** ** Disconnect cleanup *)

Lemma NoDup_map_filter {A B : Type} (g : A -> B) (f : A -> bool) (l : list A) :
  NoDup (map g l) -> NoDup (map g (filter f l)).
Proof.
  induction l as [|a l IH]; simpl; [easy|].
  intros Hnd. inversion Hnd as [|? ? Ha Hnd']; subst.
  destruct (f a); simpl; [|now apply IH].
  constructor; [|now apply IH].
  intros Hin. apply Ha. apply in_map_iff in Hin as (a' & Heq & Hin).
  apply filter_In in Hin as [Hin _]. rewrite <- Heq. now apply in_map.
Qed.

Lemma snapshot_NoDup (m : Map Player.t) (location : string)
    (excludePlayerId : option string) :
  NoDup (map fst m) -> (forall k p, In (k, p) m -> Player.id p = k) ->
  NoDup (map Player.id (getPlayersInLocation m location excludePlayerId)).
Proof.
  induction m as [|[k q] m IH]; simpl; intros Hnd Hid; [constructor|].
  inversion Hnd as [|? ? Hk Hnd']; subst.
  assert (IH' := IH Hnd' (fun k0 p Hin => Hid k0 p (or_intror Hin))).
  destruct (excluded excludePlayerId k); [exact IH'|].
  destruct ((Player.location q =? location) && Player.isActive q); [|exact IH'].
  simpl. constructor; [|exact IH'].
  intros Hin. apply Hk. apply in_map_iff in Hin as (p & Heq & Hin).
  apply getPlayersInLocation_In in Hin as (k0 & Hin & _).
  rewrite (Hid k q (or_introl eq_refl)) in Heq.
  rewrite (Hid k0 p (or_intror Hin)) in Heq. subst k0.
  now apply (in_map fst) in Hin.
Qed.

Lemma deliveries_NoDup (message : Message.t) (s : Server) (location : string)
    (excludePlayerId : option string) :
  wf s ->
  NoDup (map fst (deliveries message
                    (getPlayersInLocation (players s) location excludePlayerId))).
Proof.
  intros [Hnd Hid]. unfold deliveries. rewrite map_map. simpl.
  apply NoDup_map_filter. now apply snapshot_NoDup.
Qed.

(** ** Every envelope is of a known sort *)

Lemma visible_mono (s s' : Server) (e : string * Message.t) :
  restricts s s' -> visible (players s') e -> visible (players s) e.
Proof.
  intros Hr (p & a & pa & Hp & Hd & Ha & Hda & Hne & Hloc & Hact).
  exists p, a, pa. repeat split; eauto using restricts_get.
Qed.

Lemma listing_mono (s s' : Server) (e : string * Message.t) :
  restricts s s' -> listing (players s') e -> listing (players s) e.
Proof.
  intros Hr (p & others & Hmsg & Hp & Hd & Hall).
  exists p, others. split; [exact Hmsg|].
  split; [eapply restricts_get; eassumption|]. split; [exact Hd|].
  intros q Hq. destruct (Hall q Hq) as (H1 & H2).
  split; [eapply restricts_get; eassumption|exact H2].
Qed.

Lemma emitted_mono (s s' : Server) (e : string * Message.t) :
  restricts s s' -> emitted (players s') e -> emitted (players s) e.
Proof.
  intros Hr [H|[H|[Hb H]]].
  - now left.
  - right. left. eapply listing_mono; eassumption.
  - right. right. split; [exact Hb|]. eapply visible_mono; eassumption.
Qed.

Lemma left_notice_emitted (m : Map Player.t) (e : string * Message.t) :
  left_notice m e -> emitted m e.
Proof.
  intros (p & a & pa & profile & Hp & Hd & Ha & Hda & Hne & Hloc & Hmsg).
  right. right. rewrite Hmsg. split; [reflexivity|].
  exists p, a, pa. rewrite Hmsg. repeat split; try assumption.
  rewrite Hda. discriminate.
Qed.

Lemma sendToPlayer_emitted (fuel : nat) (k : string) (message : Message.t)
    (s0 s : Server) (c : Completion) :
  wf s0 -> restricts s0 s ->
  (forall p, Map_get k (players s0) = Some p -> emitted (players s0) (k, message)) ->
  sendToPlayer fuel k message s = c ->
  restricts s (stateOf c) /\ wrote (emitted (players s0)) s (stateOf c).
Proof.
  intros Hwf0 Hr Hmsg Hsend.
  assert (Hwf : wf s) by (eapply wf_restricts; eassumption).
  destruct (sendToPlayer_tidy _ _ _ _ _ (onSendFailure_tidy fuel) Hwf Hsend) as [Hr1 Hw].
  split; [exact Hr1|]. eapply wrote_impl; [|exact Hw].
  intros e [[-> (p & Hp & _)]|He].
  - eapply Hmsg, restricts_get; eassumption.
  - apply left_notice_emitted. eapply left_notice_mono; eassumption.
Qed.

Lemma broadcastToLocation_emitted (fuel : nat) (a : string) (pa : Player.t)
    (message : Message.t) (s0 s : Server) (c : Completion) :
  wf s0 -> restricts s0 s ->
  Map_get a (players s0) = Some pa -> Player.data pa <> None ->
  isBroadcast (Message.type message) = true -> actorOf message = VString a ->
  broadcastToLocation fuel (Player.location pa) message (Some a) s = c ->
  restricts s (stateOf c) /\ wrote (emitted (players s0)) s (stateOf c).
Proof.
  intros Hwf0 Hr Ha Hda Hb Hact Hcast.
  assert (Hwf : wf s) by (eapply wf_restricts; eassumption).
  destruct (broadcastToLocation_tidy _ _ _ _ _ _ (onSendFailure_tidy fuel) Hwf Hcast)
    as [Hr1 Hw].
  split; [exact Hr1|]. eapply wrote_impl; [|exact Hw].
  intros e [(Hmsg & p & Hp & Hd & Hloc & Hex & _)|He].
  - right. right. rewrite Hmsg. split; [exact Hb|].
    exists p, a, pa. rewrite Hmsg. repeat split; try assumption.
    + eapply restricts_get; eassumption.
    + intros ->. now apply Hex.
  - apply left_notice_emitted. eapply left_notice_mono; eassumption.
Qed.

Lemma control_emitted (m : Map Player.t) (k : string) (message : Message.t) :
  isBroadcast (Message.type message) = false ->
  Message.type message <> "player_list" ->
  emitted m (k, message).
Proof. intros Hb Hl. left. now split. Qed.

(** ** The handlers, one by one *)

Lemma handlePlayerJoin_sound (fuel : nat) (now : float) (k : string)
    (playerData : Value) (s : Server) (p : Player.t) (c : Completion) :
  wf s -> Map_get k (players s) = Some p ->
  handlePlayerJoin fuel now k playerData s = c ->
  exists p2,
    Player.id p2 = Player.id p /\ Player.location p2 = Player.location p /\
    Player.data p2 <> None /\
    restricts (updated k p2 s) (stateOf c) /\
    wrote (emitted (players (updated k p2 s))) (updated k p2 s) (stateOf c).
Proof.
  intros Hwf Hget. unfold handlePlayerJoin. rewrite Hget.
  set (profile := obj_set "joinTime" _ _).
  set (p2 := Player.set_data (Some profile) p).
  destruct (wf_updated k p p2 s Hwf Hget eq_refl) as [Hwf2 Hget2].
  intros Hrun. exists p2. split; [reflexivity|]. split; [reflexivity|].
  split; [discriminate|].
  destruct (ToString_throws (obj_get "nickname" profile)).
  { subst c. split; [apply restricts_refl|apply wrote_refl]. }
  assert (Hlist : forall c1,
            sendToPlayer fuel k
              (player_list (getPlayersInLocation (players (updated k p2 s))
                              (Player.location p2) (Some k))) (updated k p2 s) = c1 ->
            restricts (updated k p2 s) (stateOf c1) /\
            wrote (emitted (players (updated k p2 s))) (updated k p2 s) (stateOf c1)).
  { intros c1 Hsend.
    eapply sendToPlayer_emitted; [exact Hwf2|apply restricts_refl| |exact Hsend].
    intros p0 _. right. left. exists p2. eexists. split; [reflexivity|].
    split; [exact Hget2|]. split; [discriminate|].
    intros q Hq. apply getPlayersInLocation_In in Hq as (kq & Hin & Hex & Hloc & Hd).
    destruct (wf_get _ _ _ Hwf2 Hin) as [Hgq Hkq]. cbn [fst].
    split; [exact Hgq|]. split; [exact Hd|]. split; [congruence|exact Hloc]. }
  destruct (sendToPlayer _ _ _ _) as [s3|s3] eqn:Hsend; simpl in Hrun;
    destruct (Hlist _ eq_refl) as [Hr3 Hw3]; simpl in Hr3, Hw3.
  - apply broadcastToLocation_emitted with (s0 := updated k p2 s) (a := k) (pa := p2)
      in Hrun; try assumption; try reflexivity; try discriminate.
    + destruct Hrun as [Hr4 Hw4].
      split; [eapply restricts_trans; eassumption|eapply wrote_trans; eassumption].
    + unfold actorOf, player_joined, profile. cbn [Message.type Message.data get].
      change ("player_joined" =? "chat_message") with false. cbv iota.
      rewrite obj_get_set_neq by ne_lit. apply obj_get_set_eq.
  - subst c. now split.
Qed.

Lemma handlePlayerLeave_sound (fuel : nat) (k : string) (s : Server) (c : Completion) :
  wf s -> handlePlayerLeave fuel k s = c ->
  restricts s (stateOf c) /\ wrote (emitted (players s)) s (stateOf c).
Proof.
  intros Hwf. unfold handlePlayerLeave.
  assert (Hsame : forall c0 : Completion, stateOf c0 = s -> c0 = c ->
            restricts s (stateOf c) /\ wrote (emitted (players s)) s (stateOf c)).
  { intros c0 H0 <-. rewrite H0. split; [apply restricts_refl|apply wrote_refl]. }
  destruct (Map_get k (players s)) as [p|] eqn:Hget; [|now apply Hsame].
  destruct (Player.data p) as [profile|] eqn:Hdata; [|now apply Hsame].
  destruct (ToString_throws _); [now apply Hsame|].
  assert (Hp : Player.data p <> None) by congruence.
  destruct (broadcastToLocation _ _ _ _ _) as [s1|s1] eqn:Hcast; simpl; intros <-;
    destruct (broadcastToLocation_emitted fuel k p (player_left k profile) s s _ Hwf
                (restricts_refl s) Hget Hp eq_refl eq_refl Hcast) as [Hr Hw]; simpl in Hr, Hw |- *.
  - split; [eapply restricts_trans; [exact Hr|apply restricts_delete]|].
    now apply wrote_players.
  - now split.
Qed.

Lemma handleChatMessage_sound (fuel : nat) (now : float) (k : string)
    (messageData : Value) (s : Server) (c : Completion) :
  wf s -> handleChatMessage fuel now k messageData s = c ->
  restricts s (stateOf c) /\ wrote (emitted (players s)) s (stateOf c).
Proof.
  intros Hwf. unfold handleChatMessage.
  assert (Hsame : forall c0 : Completion, stateOf c0 = s -> c0 = c ->
            restricts s (stateOf c) /\ wrote (emitted (players s)) s (stateOf c)).
  { intros c0 H0 <-. rewrite H0. split; [apply restricts_refl|apply wrote_refl]. }
  destruct (Map_get k (players s)) as [p|] eqn:Hget; [|now apply Hsame].
  destruct (Player.data p) as [profile|] eqn:Hdata; [|now apply Hsame].
  destruct (getProp messageData "text") as [text|]; [|now apply Hsame].
  destruct (negb (truthy text)); [now apply Hsame|].
  destruct text; try now apply Hsame.
  destruct (List.length (trim s0) =? 0)%nat; [now apply Hsame|].
  destruct (ToString_throws _); [now apply Hsame|].
  intros Hcast.
  apply broadcastToLocation_emitted with (s0 := s) (a := k) in Hcast;
    try assumption; try reflexivity; [apply restricts_refl|congruence].
Qed.

Section Soundness.

Variable parseFloat : Value -> float.

Lemma handlePlayerMove_sound (fuel : nat) (k : string) (moveData : Value)
    (s : Server) (p : Player.t) (c : Completion) :
  wf s -> Map_get k (players s) = Some p ->
  handlePlayerMove parseFloat fuel k moveData s = c ->
  exists p2,
    Player.id p2 = Player.id p /\ Player.location p2 = Player.location p /\
    (Player.data p2 = Player.data p \/
     (Player.data p <> None /\ Player.data p2 <> None)) /\
    restricts (updated k p2 s) (stateOf c) /\
    wrote (emitted (players (updated k p2 s))) (updated k p2 s) (stateOf c).
Proof.
  intros Hwf Hget. unfold handlePlayerMove. rewrite Hget.
  assert (Hsame : forall c0 : Completion, stateOf c0 = s -> c0 = c ->
            exists p2,
              Player.id p2 = Player.id p /\ Player.location p2 = Player.location p /\
              (Player.data p2 = Player.data p \/
               (Player.data p <> None /\ Player.data p2 <> None)) /\
              restricts (updated k p2 s) (stateOf c) /\
              wrote (emitted (players (updated k p2 s))) (updated k p2 s) (stateOf c)).
  { intros c0 H0 <-. exists p. rewrite H0, updated_same by assumption.
    repeat split; [now left|apply restricts_refl|apply wrote_refl]. }
  destruct (Player.data p) as [profile|] eqn:Hdata; [|now apply Hsame].
  destruct (getProp moveData "x") as [mx|]; [|now apply Hsame].
  destruct (ToString_throws mx); [now apply Hsame|].
  destruct (ToString_throws (get moveData "y")); [now apply Hsame|].
  set (profile' := obj_set "y" _ _).
  set (p2 := Player.set_data (Some profile') p).
  destruct (wf_updated k p p2 s Hwf Hget eq_refl) as [Hwf2 Hget2].
  intros Hcast. exists p2. split; [reflexivity|]. split; [reflexivity|].
  split; [right; split; discriminate|].
  apply broadcastToLocation_emitted with (s0 := updated k p2 s) (a := k) in Hcast;
    try assumption; try reflexivity; [apply restricts_refl|discriminate].
Qed.

Lemma dispatch_sound (fuel : nat) (now : float) (k : string) (message type : Value)
    (s : Server) (p : Player.t) (c : Completion) :
  wf s -> Map_get k (players s) = Some p ->
  dispatch parseFloat fuel now k message type s = c ->
  exists p2,
    Player.id p2 = Player.id p /\ Player.location p2 = Player.location p /\
    (Player.data p2 = Player.data p \/ strictEq type "player_join" = true \/
     (Player.data p <> None /\ Player.data p2 <> None)) /\
    restricts (updated k p2 s) (stateOf c) /\
    wrote (emitted (players (updated k p2 s))) (updated k p2 s) (stateOf c).
Proof.
  intros Hwf Hget. unfold dispatch.
  assert (Hplain :
            restricts s (stateOf c) /\ wrote (emitted (players s)) s (stateOf c) ->
            exists p2,
              Player.id p2 = Player.id p /\ Player.location p2 = Player.location p /\
              (Player.data p2 = Player.data p \/ strictEq type "player_join" = true \/
               (Player.data p <> None /\ Player.data p2 <> None)) /\
              restricts (updated k p2 s) (stateOf c) /\
              wrote (emitted (players (updated k p2 s))) (updated k p2 s) (stateOf c)).
  { intros [Hr Hw]. exists p. rewrite updated_same by assumption.
    repeat split; [now left|assumption..]. }
  destruct (strictEq type "player_join") eqn:Hjoin.
  { intros Hc.
    destruct (handlePlayerJoin_sound _ _ _ _ _ _ _ Hwf Hget Hc)
      as (p2 & Hid & Hloc & _ & Hr & Hw).
    exists p2. repeat split; try assumption. right. now left. }
  destruct (strictEq type "player_leave").
  { intros Hc. apply Hplain. now apply (handlePlayerLeave_sound fuel k). }
  destruct (strictEq type "chat_message").
  { intros Hc. apply Hplain.
    now apply (handleChatMessage_sound fuel now k (get message "data")). }
  destruct (strictEq type "player_move").
  { intros Hc.
    destruct (handlePlayerMove_sound _ _ _ _ _ _ Hwf Hget Hc)
      as (p2 & Hid & Hloc & Hd & Hr & Hw).
    exists p2. repeat split; try assumption. tauto. }
  intros Hsend. apply Hplain.
  eapply sendToPlayer_emitted; [exact Hwf|apply restricts_refl| |exact Hsend].
  intros _ _. now apply control_emitted.
Qed.

Lemma handlePlayerMessage_sound (fuel : nat) (now now' : float) (k : string)
    (rawMessage : RawMessage) (s s' : Server) :
  wf s ->
  handlePlayerMessage parseFloat fuel now now' k rawMessage s = Normal s' ->
  sound (WsMessage k rawMessage now now') s s'.
Proof.
  intros Hwf. unfold handlePlayerMessage, JSON_parse.
  assert (Hinvalid : forall s0,
            wf s0 -> sendToPlayer fuel k (error "Invalid message format") s0 = Normal s' ->
            restricts s0 s' /\ wrote (emitted (players s0)) s0 s').
  { intros s0 Hwf0 Hsend.
    apply (sendToPlayer_emitted fuel k (error "Invalid message format") s0 s0 (Normal s'));
      [exact Hwf0|apply restricts_refl| |exact Hsend].
    intros _ _. now apply control_emitted. }
  destruct rawMessage as [message|].
  2:{ intros Hsend. exists s. split; [constructor|]. now apply Hinvalid. }
  destruct (Map_get k (players s)) as [p|] eqn:Hget.
  2:{ intros [= <-]. exists s. split; [constructor|].
      split; [apply restricts_refl|apply wrote_refl]. }
  set (pa := Player.set_lastActivity now p).
  destruct (wf_updated k p pa s Hwf Hget eq_refl) as [Hwfa Hgeta].
  assert (Hrefresh : touches (WsMessage k (Some message) now now') s (updated k pa s)).
  { apply (touches_update _ _ k p pa); auto. }
  destruct (getProp message "type") as [type|] eqn:Htype.
  2:{ intros Hsend. exists (updated k pa s). split; [exact Hrefresh|]. now apply Hinvalid. }
  destruct (ToString_throws type).
  { intros Hsend. exists (updated k pa s). split; [exact Hrefresh|]. now apply Hinvalid. }
  destruct (dispatch _ _ _ _ _ _ _) as [s2|s2] eqn:Hc;
    destruct (dispatch_sound _ _ _ _ _ _ _ _ Hwfa Hgeta Hc)
      as (p2 & Hid & Hloc & Hd & Hr & Hw);
    rewrite updated_updated in Hr, Hw; simpl in Hr, Hw;
    assert (Htouch : touches (WsMessage k (Some message) now now') s (updated k p2 s))
      by (apply (touches_update _ _ k p p2); [exact Hget|exact Hid|exact Hloc|];
          destruct Hd as [Hd|[Hd|Hd]]; [now left| |right; right; exact Hd];
          right; left; cbn [isJoinBy]; rewrite String.eqb_refl;
          unfold getProp in Htype; destruct (isNullish message); [discriminate|];
          injection Htype as ->; exact Hd);
    destruct (wf_updated k p p2 s Hwf Hget Hid) as [Hwf2 _];
    intros Hend; exists (updated k p2 s); (split; [exact Htouch|]).
  - injection Hend as <-. now split.
  - assert (Hsend := Hend).
    apply sendToPlayer_emitted with (s0 := updated k p2 s) in Hsend;
      [|exact Hwf2|exact Hr|intros _ _; now apply control_emitted].
    destruct Hsend as [Hr' Hw']. simpl in Hr', Hw'.
    split; [eapply restricts_trans; eassumption|eapply wrote_trans; eassumption].
Qed.

End Soundness.

(** ** Every transition has the shape [sound] *)

Lemma handleNewConnection_sound (fuel : nat) (now : float) (k : string)
    (ws : WebSocket.t) (clientIP : string) (s s' : Server) :
  wf s -> handleNewConnection fuel now k ws clientIP s = Normal s' ->
  sound (Connection k ws clientIP now) s s'.
Proof.
  intros Hwf. unfold handleNewConnection.
  set (p := Player.mk k ws None "Park" now clientIP).
  intros Hsend. exists (updated k p s). split; [now apply touches_new|].
  apply (sendToPlayer_emitted fuel k (connection_established k) (updated k p s)
           (updated k p s) (Normal s'));
    [|apply restricts_refl| |exact Hsend].
  - now apply wf_set.
  - intros _ _. now apply control_emitted.
Qed.

Lemma forEachLive_sound (f : string -> Player.t -> Server -> Completion)
    (s0 : Server) :
  wf s0 ->
  (forall k p s s', restricts s0 s -> f k p s = Normal s' ->
                    restricts s s' /\ wrote (emitted (players s0)) s s') ->
  forall keys s s',
    restricts s0 s -> forEachLive f keys s = Normal s' ->
    restricts s s' /\ wrote (emitted (players s0)) s s'.
Proof.
  intros Hwf0 Hf. induction keys as [|k keys IH]; intros s s' Hr; simpl.
  - intros [= <-]. split; [apply restricts_refl|apply wrote_refl].
  - destruct (Map_get k (players s)) as [p|]; [|now apply IH].
    intros H. apply andThen_Normal in H as (s1 & Hstep & Hrest).
    destruct (Hf _ _ _ _ Hr Hstep) as [Hr1 Hw1].
    destruct (IH s1 s' (restricts_trans _ _ _ Hr Hr1) Hrest) as [Hr2 Hw2].
    split; [eapply restricts_trans; eassumption|eapply wrote_trans; eassumption].
Qed.

Lemma handlePlayerDisconnect_emitted (fuel : nat) (k : string) (s0 s : Server)
    (c : Completion) :
  wf s0 -> restricts s0 s -> handlePlayerDisconnect fuel k s = c ->
  restricts s (stateOf c) /\ wrote (emitted (players s0)) s (stateOf c).
Proof.
  intros Hwf0 Hr Hd.
  assert (Hwf : wf s) by (eapply wf_restricts; eassumption).
  destruct (handlePlayerDisconnect_tidy fuel _ _ _ Hwf Hd) as [Hr1 Hw].
  split; [exact Hr1|]. eapply wrote_impl; [|exact Hw].
  intros e He. apply left_notice_emitted. eapply left_notice_mono; eassumption.
Qed.

Lemma cleanupDisconnectedPlayers_sound (fuel : nat) (now : float) (s s' : Server) :
  wf s -> cleanupDisconnectedPlayers fuel now s = Normal s' ->
  restricts s s' /\ wrote (emitted (players s)) s s'.
Proof.
  intros Hwf. unfold cleanupDisconnectedPlayers.
  apply forEachLive_sound; [exact Hwf| |apply restricts_refl].
  intros k p s1 s2 Hr. destruct (isStale now p).
  - intros Hd. now apply (handlePlayerDisconnect_emitted fuel k s s1 (Normal s2)).
  - intros [= <-]. split; [apply restricts_refl|apply wrote_refl].
Qed.

Lemma shutdown_sound (fuel : nat) (s s' : Server) :
  wf s -> shutdown fuel s = Normal s' ->
  restricts s s' /\ wrote (emitted (players s)) s s'.
Proof.
  intros Hwf. unfold shutdown.
  apply forEachLive_sound; [exact Hwf| |apply restricts_refl].
  intros k p s1 s2 Hr Hsend.
  apply (sendToPlayer_emitted fuel k server_shutdown s s1 (Normal s2));
    [exact Hwf|exact Hr| |exact Hsend].
  intros _ _. now apply control_emitted.
Qed.

Section Transitions.

Variable parseFloat : Value -> float.

Lemma step_sound (fuel : nat) (e : Event) (s s' : Server) :
  wf s -> step parseFloat fuel e s = Some s' -> sound e s s'.
Proof.
  intros Hwf. destruct e as [k ws ip now|k raw now now'|k|k|now| | |k ws]; cbn [step];
    rewrite ?returned_Some.
  - now apply handleNewConnection_sound.
  - now apply handlePlayerMessage_sound.
  - intros H. exists s. split; [constructor|].
    apply (handlePlayerDisconnect_emitted fuel k s s (Normal s'));
      [exact Hwf|apply restricts_refl|exact H].
  - intros H. exists s. split; [constructor|].
    apply (handlePlayerDisconnect_emitted fuel k s s (Normal s'));
      [exact Hwf|apply restricts_refl|exact H].
  - intros H. exists s. split; [constructor|].
    now apply (cleanupDisconnectedPlayers_sound fuel now).
  - intros [= <-]. exists s. split; [constructor|].
    split; [apply restricts_refl|apply wrote_refl].
  - intros H. exists s. split; [constructor|]. now apply (shutdown_sound fuel).
  - intros [= <-]. unfold transportChange.
    destruct (Map_get k (players s)) as [p|] eqn:Hget.
    + exists (updated k (Player.set_ws ws p) s).
      split; [apply (touches_update _ _ k p); auto|].
      split; [apply restricts_refl|apply wrote_refl].
    + exists s. split; [constructor|].
      split; [apply restricts_refl|apply wrote_refl].
Qed.

Lemma touches_wf (e : Event) (s s1 : Server) : wf s -> touches e s s1 -> wf s1.
Proof.
  intros Hwf [|k p' Hid _ _|k p p' Hget Hid _ _]; [exact Hwf|now apply wf_set|].
  now destruct (wf_updated k p p' s Hwf Hget Hid).
Qed.

Lemma step_wf (fuel : nat) (e : Event) (s s' : Server) :
  wf s -> step parseFloat fuel e s = Some s' -> wf s'.
Proof.
  intros Hwf Hstep. destruct (step_sound _ _ _ _ Hwf Hstep) as (s1 & Ht & Hr & _).
  eapply wf_restricts; [|exact Hr]. eapply touches_wf; eassumption.
Qed.

Lemma reachable_wf (s : Server) : reachable parseFloat s -> wf s.
Proof.
  induction 1 as [|fuel e s s' _ IH Hstep]; [exact wf_new|].
  eapply step_wf; eassumption.
Qed.

End Transitions.

(** ** Reachable states *)

Lemma run_reachable (parseFloat : Value -> float) (fuel : nat) (events : list Event) :
  forall s s', reachable parseFloat s -> run parseFloat fuel events s = Some s' ->
               reachable parseFloat s'.
Proof.
  induction events as [|e events IH]; intros s s' Hs; simpl.
  - now intros [= <-].
  - destruct (step parseFloat fuel e s) as [s1|] eqn:Hstep; [|discriminate].
    apply IH. eapply reachable_step; eassumption.
Qed.

(** The join flow of the specification: Al, alone, gets an empty
    [player_list]; Bo gets Al's profile and Al gets [player_joined] with Bo's,
    whose client-chosen [id] was overwritten. *)
Example join_flow : run parseFloat_sample 0 script newServer = Some twoPlayers.
Proof. reflexivity. Qed.

Lemma reachable_twoPlayers : reachable parseFloat_sample twoPlayers.
Proof. exact (run_reachable _ 0 script _ _ (reachable_new _) join_flow). Qed.

Section Locations.

Variable parseFloat : Value -> float.

Lemma touches_location (e : Event) (s s1 : Server) (k : string) (p1 : Player.t) :
  touches e s s1 -> Map_get k (players s1) = Some p1 ->
  Player.location p1 = "Park" \/
  exists p, Map_get k (players s) = Some p /\ Player.location p1 = Player.location p.
Proof.
  intros [|k0 p0 Hid Hd Hloc|k0 p p0 Hget Hid Hloc Hd]; simpl.
  - intros H. right. now exists p1.
  - destruct (String.eqb_spec k0 k) as [->|Hne].
    + rewrite Map_get_set_eq. intros [= <-]. now left.
    + rewrite Map_get_set_neq by assumption. intros H. right. now exists p1.
  - destruct (String.eqb_spec k0 k) as [->|Hne].
    + rewrite Map_get_set_eq. intros [= <-]. right. now exists p.
    + rewrite Map_get_set_neq by assumption. intros H. right. now exists p1.
Qed.

Lemma step_location (fuel : nat) (e : Event) (s s' : Server) (k : string)
    (p' : Player.t) :
  wf s -> step parseFloat fuel e s = Some s' ->
  Map_get k (players s') = Some p' ->
  Player.location p' = "Park" \/
  exists p, Map_get k (players s) = Some p /\ Player.location p' = Player.location p.
Proof.
  intros Hwf Hstep Hget.
  destruct (step_sound _ _ _ _ _ Hwf Hstep) as (s1 & Ht & Hr & _).
  eapply touches_location; [exact Ht|]. eapply restricts_get; eassumption.
Qed.

Lemma reachable_Park (s : Server) :
  reachable parseFloat s ->
  forall k p, Map_get k (players s) = Some p -> Player.location p = "Park".
Proof.
  induction 1 as [|fuel e s s' Hs IH Hstep]; intros k p Hget; [discriminate|].
  destruct (step_location _ _ _ _ _ _ (reachable_wf _ _ Hs) Hstep Hget)
    as [H|(p0 & Hp0 & Hloc)]; [exact H|].
  rewrite Hloc. now apply (IH k).
Qed.

End Locations.


Lemma after_reachable (parseFloat : Value -> float) (events : list Event) :
  reachable parseFloat (after parseFloat events).
Proof.
  unfold after. destruct (run parseFloat 0 events newServer) as [s|] eqn:Hrun.
  - eapply run_reachable; [apply reachable_new|exact Hrun].
  - apply reachable_new.
Qed.

(** ** Players who have not joined *)

Lemma touches_unjoined (e : Event) (s s1 : Server) (sid : string) (p : Player.t) :
  touches e s s1 -> Map_get sid (players s) = Some p -> Player.data p = None ->
  isJoinBy e sid = false ->
  exists p1, Map_get sid (players s1) = Some p1 /\ Player.data p1 = None.
Proof.
  intros [|k p' Hid Hd Hloc|k p0 p' Hget Hid Hloc Hd] Hp Hnone Hjoin; simpl.
  - now exists p.
  - destruct (String.eqb_spec k sid) as [->|Hne].
    + exists p'. now rewrite Map_get_set_eq.
    + exists p. now rewrite Map_get_set_neq.
  - destruct (String.eqb_spec k sid) as [->|Hne].
    + exists p'. rewrite Map_get_set_eq. split; [reflexivity|].
      rewrite Hp in Hget. injection Hget as <-.
      destruct Hd as [Hd|[Hd|[Hd _]]]; congruence.
    + exists p. now rewrite Map_get_set_neq.
Qed.
(** ** Numbers: order and clamping *)

Lemma SFcompare_antisym (a b : spec_float) :
  SFcompare b a = option_map CompOpp (SFcompare a b).
Proof.
  destruct a as [s1|s1| |s1 m1 e1], b as [s2|s2| |s2 m2 e2]; simpl;
    try reflexivity; try (destruct s1; reflexivity); try (destruct s2; reflexivity);
    try (destruct s1, s2; reflexivity).
  destruct s1, s2; simpl; try reflexivity; f_equal.
  - rewrite (Z.compare_antisym e1 e2). destruct (e1 ?= e2)%Z; simpl; try reflexivity.
    f_equal. change Eq with (CompOpp Eq) at 1.
    now rewrite <- (Pos.compare_cont_antisym m1 m2 Eq).
  - rewrite (Z.compare_antisym e1 e2). destruct (e1 ?= e2)%Z; simpl; try reflexivity.
    change Eq with (CompOpp Eq) at 1.
    now rewrite <- (Pos.compare_cont_antisym m1 m2 Eq).
Qed.

Lemma SFcompare_refl (a : spec_float) : a <> S754_nan -> SFcompare a a = Some Eq.
Proof.
  destruct a as [s|s| |s m e]; simpl; intros H; try reflexivity; try (destruct s; reflexivity).
  - contradiction.
  - destruct s; rewrite Z.compare_refl, Pos.compare_cont_refl; reflexivity.
Qed.

Lemma SFcompare_None (a b : spec_float) :
  SFcompare a b = None -> a = S754_nan \/ b = S754_nan.
Proof.
  destruct a as [s1|s1| |s1 m1 e1], b as [s2|s2| |s2 m2 e2]; simpl; intros H;
    try discriminate; auto.
Qed.

Lemma is_nan_false (x : float) : PrimFloat.is_nan x = false <-> Prim2SF x <> S754_nan.
Proof.
  unfold PrimFloat.is_nan. rewrite eqb_spec. unfold SFeqb. split.
  - intros H Hn. rewrite Hn in H. discriminate.
  - intros H. now rewrite SFcompare_refl.
Qed.

Lemma ltb_leb (x y : float) : PrimFloat.ltb x y = true -> PrimFloat.leb x y = true.
Proof.
  rewrite ltb_spec, leb_spec. unfold SFltb, SFleb.
  now destruct (SFcompare _ _) as [[]|].
Qed.

Lemma not_ltb_leb (x y : float) :
  PrimFloat.is_nan x = false -> PrimFloat.is_nan y = false ->
  PrimFloat.ltb x y = false -> PrimFloat.leb y x = true.
Proof.
  rewrite !is_nan_false, ltb_spec, leb_spec. unfold SFltb, SFleb.
  intros Hx Hy. rewrite (SFcompare_antisym (Prim2SF x) (Prim2SF y)).
  destruct (SFcompare (Prim2SF x) (Prim2SF y)) as [[]|] eqn:Hc; simpl; try easy.
  destruct (SFcompare_None _ _ Hc); contradiction.
Qed.

Lemma ltb_not_nan (x y : float) :
  PrimFloat.ltb x y = true -> PrimFloat.is_nan x = false /\ PrimFloat.is_nan y = false.
Proof.
  rewrite !is_nan_false, ltb_spec. unfold SFltb.
  intros H. split; intros Hn; rewrite Hn in H; simpl in H; try discriminate.
  destruct (Prim2SF x); discriminate.
Qed.

Lemma orZero_not_nan (n : float) : PrimFloat.is_nan (orZero n) = false.
Proof.
  unfold orZero, truthy. destruct (PrimFloat.is_nan n) eqn:Hn; simpl; [reflexivity|].
  destruct (PrimFloat.is_zero n); simpl; [reflexivity|exact Hn].
Qed.


Lemma clamp_inside (w : float) :
  PrimFloat.ltb 0 w = true -> PrimFloat.leb w 100 = true ->
  Math_max 0 (Math_min 100 (orZero w)) = w.
Proof.
  intros H0 H100. destruct (ltb_not_nan _ _ H0) as [_ Hn].
  assert (Hz : PrimFloat.is_zero w = false).
  { unfold PrimFloat.is_zero. rewrite eqb_spec. unfold SFeqb.
    rewrite ltb_spec in H0. unfold SFltb in H0.
    change (Prim2SF zero) with (Prim2SF 0).
    rewrite (SFcompare_antisym (Prim2SF 0) (Prim2SF w)).
    now destruct (SFcompare (Prim2SF 0) (Prim2SF w)) as [[]|]. }
  unfold orZero, truthy. rewrite Hn, Hz. simpl.
  assert (Hm : Math_min 100 w = w).
  { unfold Math_min. rewrite Hn. simpl.
    assert (H1 : PrimFloat.ltb 100 w = false).
    { rewrite ltb_spec. rewrite leb_spec in H100. unfold SFltb, SFleb in *.
      rewrite (SFcompare_antisym (Prim2SF w) (Prim2SF 100)).
      now destruct (SFcompare (Prim2SF w) (Prim2SF 100)) as [[]|]. }
    rewrite H1. now destruct (PrimFloat.ltb w 100). }
  rewrite Hm. unfold Math_max. rewrite Hn, H0. reflexivity.
Qed.



(** ** Assignments to one player *)

Lemma quiet_updated (k : string) (p p2 : Player.t) (s : Server) :
  quiet s -> Map_get k (players s) = Some p -> Player.ws p2 = Player.ws p ->
  quiet (updated k p2 s).
Proof.
  intros Hq Hget Hws k0 p0 Hin. simpl in Hin.
  apply In_Map_set in Hin as [[-> ->]|Hin]; [|now apply (Hq k0)].
  rewrite Hws. apply (Hq k). now apply Map_get_In.
Qed.

Lemma snapshot_updated (k : string) (p2 : Player.t) (m : Map Player.t)
    (location : string) :
  getPlayersInLocation (Map_set k p2 m) location (Some k) =
  getPlayersInLocation m location (Some k).
Proof.
  induction m as [|[k0 p0] m IH]; simpl.
  - now rewrite String.eqb_refl.
  - destruct (String.eqb_spec k0 k) as [->|Hne]; simpl.
    + now rewrite String.eqb_refl.
    + destruct (String.eqb_spec k0 k); [contradiction|]. now rewrite IH.
Qed.

(** ** Moves *)

Lemma obj_set_frame (k1 k2 k : JSString) (v1 v2 : Value) (o : Object) :
  k <> k1 -> k <> k2 -> obj_get k (obj_set k2 v2 (obj_set k1 v1 o)) = obj_get k o.
Proof. intros H1 H2. now rewrite !obj_get_set_neq by congruence. Qed.





(** ** Replies of [handlePlayerMessage] *)

Lemma sendToPlayer_open (fuel : nat) (k : string) (message : Message.t) (s : Server)
    (p : Player.t) :
  Map_get k (players s) = Some p ->
  WebSocket.isOpen (Player.ws p) = true -> WebSocket.sendFails (Player.ws p) = false ->
  sendToPlayer fuel k message s = Normal (transmit k message s).
Proof.
  intros Hget Hopen Hsend. unfold sendToPlayer, sendToPlayer_.
  now rewrite Hget, Hopen, Hsend.
Qed.

Lemma dispatch_unknown (parseFloat : Value -> float) (fuel : nat) (now : float)
    (k : string) (message type : Value) (s : Server) :
  isKnownType type = false ->
  dispatch parseFloat fuel now k message type s =
  sendToPlayer fuel k (error "Unknown message type") s.
Proof.
  unfold dispatch, isKnownType.
  destruct (strictEq type "player_join"); [discriminate|].
  destruct (strictEq type "player_leave"); [discriminate|].
  destruct (strictEq type "chat_message"); [discriminate|].
  destruct (strictEq type "player_move"); [discriminate|reflexivity].
Qed.

Lemma handlePlayerMessage_typed (parseFloat : Value -> float) (fuel : nat)
    (now now' : float) (k : string) (message : Value) (s : Server) (player : Player.t) :
  Map_get k (players s) = Some player ->
  isNullish message = false ->
  ToString_throws (get message "type") = false ->
  handlePlayerMessage parseFloat fuel now now' k (Some message) s =
  match
    dispatch parseFloat fuel now' k message (get message "type")
      (updated k (Player.set_lastActivity now player) s)
  with
  | Normal s' => Normal s'
  | Throw s' => sendToPlayer fuel k (error "Invalid message format") s'
  end.
Proof.
  intros Hget Hnull Htype. unfold handlePlayerMessage, JSON_parse, getProp.
  now rewrite Hget, Hnull, Htype.
Qed.

Lemma get_not_nullish (message : Value) (k : JSString) (v : Value) :
  get message k = v -> v <> VUndefined -> isNullish message = false.
Proof. destruct message; simpl; congruence. Qed.

Lemma handlePlayerMessage_of_type (parseFloat : Value -> float) (fuel : nat)
    (now now' : float) (k : string) (message : Value) (t : string) (s : Server)
    (player : Player.t) :
  Map_get k (players s) = Some player ->
  get message "type" = VString t ->
  handlePlayerMessage parseFloat fuel now now' k (Some message) s =
  match
    dispatch parseFloat fuel now' k message (VString t)
      (updated k (Player.set_lastActivity now player) s)
  with
  | Normal s' => Normal s'
  | Throw s' => sendToPlayer fuel k (error "Invalid message format") s'
  end.
Proof.
  intros Hget Htype.
  rewrite (handlePlayerMessage_typed parseFloat fuel now now' k message s player Hget);
    [now rewrite Htype| |now rewrite Htype].
  apply (get_not_nullish message "type" (VString t) Htype). discriminate.
Qed.

Lemma refreshed_get (k : string) (now : float) (player : Player.t) (s : Server) :
  Map_get k (players (updated k (Player.set_lastActivity now player) s)) =
  Some (Player.set_lastActivity now player).
Proof. apply Map_get_set_eq. Qed.

(** ** A [player_move] is not rejected, unless it cannot be read *)




(** ** Malformed envelopes and unknown types *)

(** C6, as the code has it: a registered sender whose socket is open and
    takes the send gets exactly one [error] envelope for a frame that does
    not parse, for a [null] envelope and for an envelope of unknown type
    ("Unknown message type", or "Invalid message format" when the type does
    not even convert to a string for the log); nothing is written to anyone
    else, nobody is added or removed, and no profile, location or socket
    changes.  What does change is the sender's [lastActivity], refreshed for
    every frame that parses; a frame that does not parse changes nothing. *)
Theorem malformed_or_unknown_reply (parseFloat : Value -> float) (fuel : nat)
    (now now' : float) (playerId : string) (s : Server) (player : Player.t) :
  Map_get playerId (players s) = Some player ->
  WebSocket.isOpen (Player.ws player) = true ->
  WebSocket.sendFails (Player.ws player) = false ->
  let refreshed := Player.set_lastActivity now player in
  let reply (text : string) :=
    (playerId, Message.mk "error" (VObject ["message" |-> VString text])) in
  handlePlayerMessage parseFloat fuel now now' playerId None s =
    Normal (mkServer (players s) (wire s ++ [reply "Invalid message format"])) /\
  (forall message,
      isNullish message = true ->
      handlePlayerMessage parseFloat fuel now now' playerId (Some message) s =
      Normal (mkServer (Map_set playerId refreshed (players s))
                (wire s ++ [reply "Invalid message format"]))) /\
  (forall message,
      isNullish message = false -> isKnownType (get message "type") = false ->
      handlePlayerMessage parseFloat fuel now now' playerId (Some message) s =
      Normal (mkServer (Map_set playerId refreshed (players s))
                (wire s ++
                 [reply (if ToString_throws (get message "type")
                         then "Invalid message format"
                         else "Unknown message type")]))) /\
  (Player.id refreshed = Player.id player /\
   Player.ws refreshed = Player.ws player /\
   Player.data refreshed = Player.data player /\
   Player.location refreshed = Player.location player /\
   Player.lastActivity refreshed = now) /\
  (map fst (Map_set playerId refreshed (players s)) = map fst (players s) /\
   Map_get playerId (Map_set playerId refreshed (players s)) = Some refreshed /\
   forall k, k <> playerId ->
             Map_get k (Map_set playerId refreshed (players s)) = Map_get k (players s)).
Proof.
  intros Hget Hopen Hsend refreshed reply.
  assert (Hget' : Map_get playerId (players (updated playerId refreshed s)) = Some refreshed)
    by apply Map_get_set_eq.
  split; [|split; [|split; [|split]]].
  - unfold handlePlayerMessage, JSON_parse.
    now rewrite (sendToPlayer_open _ _ _ _ player).
  - intros message Hnull. unfold handlePlayerMessage, JSON_parse, getProp.
    rewrite Hget, Hnull. fold refreshed.
    now rewrite (sendToPlayer_open _ _ _ _ refreshed).
  - intros message Hnull Hunknown. unfold handlePlayerMessage, JSON_parse, getProp.
    rewrite Hget, Hnull. fold refreshed.
    destruct (ToString_throws (get message "type")).
    + now rewrite (sendToPlayer_open _ _ _ _ refreshed).
    + rewrite dispatch_unknown by assumption.
      now rewrite (sendToPlayer_open _ _ _ _ refreshed).
  - repeat split.
  - split; [now apply (Map_set_keys _ _ player)|]. split; [apply Map_get_set_eq|].
    intros k Hne. apply Map_get_set_neq. congruence.
Qed.

Lemma malformed_or_unknown_reply_witness :
  handlePlayerMessage parseFloat_sample 0 5000 5001 "d" bogus withGuest =
  Normal (mkServer (Map_set "d" (connected "d" openSocket 5000) (players withGuest))
            (wire withGuest ++
             [("d", Message.mk "error"
                      (VObject ["message" |-> VString "Unknown message type"]))])).
Proof.
  exact (proj1 (proj2 (proj2
    (malformed_or_unknown_reply parseFloat_sample 0 5000 5001 "d" withGuest
       (connected "d" openSocket 3000) eq_refl eq_refl eq_refl)))
    (VObject ["type" |-> VString "bogus"]) eq_refl eq_refl).
Defined.

(** C6, as stated, fails: Di, connected and not joined, sends an envelope of
    unknown type; Di gets the one [error] envelope and the profile stays
    unset, but the session is mutated: [lastActivity] goes from 3000 to
    5000. *)
Lemma bogus_refreshes_lastActivity :
  exists s' p p',
    handlePlayerMessage parseFloat_sample 0 5000 5001 "d" bogus withGuest = Normal s' /\
    Map_get "d" (players withGuest) = Some p /\
    Map_get "d" (players s') = Some p' /\
    Player.data p' = None /\
    Player.lastActivity p = 3000%float /\
    Player.lastActivity p' = 5000%float /\
    PrimFloat.eqb (Player.lastActivity p) (Player.lastActivity p') = false.
Proof.
  eexists. exists (connected "d" openSocket 3000), (connected "d" openSocket 5000).
  split; [reflexivity|]. repeat split.
Qed.

(** ** Chat: [trim] and [substring] *)

Lemma trimStart_spec (s : JSString) :
  exists lead,
    s = lead ++ trimStart s /\ allWhiteSpace lead = true /\
    forall c r, trimStart s = c :: r -> isWhiteSpace c = false.
Proof.
  induction s as [|c s (lead & Hs & Hlead & Hhead)]; simpl.
  - exists []. repeat split. discriminate.
  - destruct (isWhiteSpace c) eqn:Hc.
    + exists (c :: lead). simpl. rewrite Hc, Hlead, <- Hs. repeat split. exact Hhead.
    + exists []. repeat split. now intros c' r [= <- _].
Qed.

Lemma trimEnd_spec (s : JSString) :
  exists trail,
    s = trimEnd s ++ trail /\ allWhiteSpace trail = true /\
    forall r c, trimEnd s = r ++ [c] -> isWhiteSpace c = false.
Proof.
  induction s as [|c s (trail & Hs & Htrail & Hlast)]; simpl.
  - exists []. repeat split. intros [|a r] c' H; discriminate.
  - destruct (trimEnd s) as [|a t] eqn:Ht.
    + simpl in Hs. subst trail. destruct (isWhiteSpace c) eqn:Hc.
      * exists (c :: s). simpl. rewrite Hc, Htrail. repeat split.
        intros [|a r] c' H; discriminate.
      * exists s. repeat split; [exact Htrail|].
        intros [|a r] c' H; [now injection H as <-|].
        injection H as _ H. now destruct r.
    + exists trail. split; [simpl in *; now f_equal|]. split; [exact Htrail|].
      intros [|b r] c' H; [discriminate|].
      injection H as _ H. now apply (Hlast r).
Qed.

Lemma trimEnd_head (s : JSString) (c : N) (r : JSString) :
  trimEnd s = c :: r -> exists r0, s = c :: r0.
Proof.
  destruct s as [|a s]; simpl; [discriminate|].
  destruct (trimEnd s); [destruct (isWhiteSpace a)|]; intros [= <- _]; now eexists.
Qed.

Lemma trim_spec (str : JSString) : trimmed str (trim str).
Proof.
  unfold trim.
  destruct (trimStart_spec str) as (lead & Hs & Hlead & Hhead).
  destruct (trimEnd_spec (trimStart str)) as (trail & Ht & Htrail & Hlast).
  exists lead, trail. split; [now rewrite <- Ht|].
  split; [exact Hlead|]. split; [exact Htrail|]. split; [|exact Hlast].
  intros c r Hc. apply trimEnd_head in Hc as (r0 & Hr0). now apply (Hhead c r0).
Qed.

Lemma trimStart_bare (s : JSString) :
  (forall c r, s = c :: r -> isWhiteSpace c = false) -> trimStart s = s.
Proof. destruct s as [|c r]; simpl; [reflexivity|]. intros H. now rewrite (H c r). Qed.

Lemma trimEnd_bare (s : JSString) :
  (forall r c, s = r ++ [c] -> isWhiteSpace c = false) -> trimEnd s = s.
Proof.
  induction s as [|a s IH]; simpl; [reflexivity|]. intros H.
  destruct s as [|b s].
  - simpl. now rewrite (H [] a).
  - rewrite IH; [reflexivity|]. intros r c Hr. apply (H (a :: r)). simpl. now rewrite Hr.
Qed.

Lemma trim_bare (s : JSString) : bare s -> trim s = s.
Proof. intros [Hh Hl]. unfold trim. rewrite trimStart_bare by exact Hh. now apply trimEnd_bare. Qed.

Lemma trimStart_blank (s : JSString) : trimStart s = [] <-> allWhiteSpace s = true.
Proof.
  induction s as [|c s IH]; simpl; [tauto|].
  destruct (isWhiteSpace c); simpl; [exact IH|]. split; discriminate.
Qed.

Lemma trimEnd_nil (s : JSString) : trimEnd s = [] -> allWhiteSpace s = true.
Proof.
  induction s as [|c s IH]; simpl; [reflexivity|].
  destruct (trimEnd s); [|discriminate].
  destruct (isWhiteSpace c); [|discriminate]. intros _. now apply IH.
Qed.

Lemma allWhiteSpace_app (a b : JSString) :
  allWhiteSpace (a ++ b) = allWhiteSpace a && allWhiteSpace b.
Proof. apply forallb_app. Qed.

(** A text is dropped exactly when all of it is white space. *)
Lemma trim_blank_iff (s : JSString) : trim s = [] <-> allWhiteSpace s = true.
Proof.
  split.
  - intros H. destruct (trimStart_spec s) as (lead & Hs & Hlead & _).
    unfold trim in H. apply trimEnd_nil in H.
    rewrite Hs, allWhiteSpace_app, Hlead. exact H.
  - intros H. unfold trim. apply trimStart_blank in H. now rewrite H.
Qed.

Lemma length_zero (t : JSString) : List.length t = 0 <-> t = [].
Proof. destruct t; simpl; split; congruence. Qed.

Lemma substring_0 (n : nat) (t : JSString) : substring 0 n t = firstn n t.
Proof. unfold substring. now rewrite Nat.sub_0_r. Qed.

Example trim_both : trim "  hello there  " = "hello there".
Proof. reflexivity. Qed.

Example trim_blank : trim "   " = [].
Proof. reflexivity. Qed.

(** White space beyond Latin-1 goes too: an ideographic space, a byte order
    mark and a line separator around [hi]. *)
Example trim_wide : trim [12288; 65279; 104; 105; 8232]%N = "hi".
Proof. reflexivity. Qed.

(** X20: the text of a chat.  A [chat_message] of an active player whose
    [data.text] is a string.  Let [t] be the text without the white space
    (of any kind JavaScript knows) at its two ends.  If [t] is empty, the
    handler returns at once: nothing is written, and through
    [handlePlayerMessage] no [error] either (only [lastActivity] is
    refreshed).  Otherwise, provided the sender's [nickname] converts to a
    string, the handler is the broadcast, to the player's location and
    leaving the player out, of one [chat_message] carrying the player's id,
    [username] and [nickname], the timestamp, and as text the first 200 code
    units of [t]: at most 200 long, and exactly 200 long when [t] is 250
    long; a text of 250 code units with no white space at its ends is
    delivered as its first 200. *)
Theorem handleChatMessage_text (parseFloat : Value -> float) (fuel : nat)
    (now : float) (playerId : string) (messageData : Value) (s : Server)
    (player : Player.t) (profile : Object) (str : JSString) :
  wf s ->
  Map_get playerId (players s) = Some player ->
  Player.data player = Some profile ->
  isNullish messageData = false ->
  get messageData "text" = VString str ->
  exists t,
    trimmed str t /\
    let text := firstn 200 t in
    let message :=
      Message.mk "chat_message"
        (VObject ["playerId" |-> VString playerId;
                  "username" |-> obj_get "username" profile;
                  "nickname" |-> obj_get "nickname" profile;
                  "text" |-> VString text;
                  "timestamp" |-> VNumber now]) in
    (t = [] ->
     handleChatMessage fuel now playerId messageData s = Normal s /\
     forall envelope now0,
       get envelope "type" = VString "chat_message" ->
       get envelope "data" = messageData ->
       handlePlayerMessage parseFloat fuel now0 now playerId (Some envelope) s =
       Normal (mkServer
                 (Map_set playerId (Player.set_lastActivity now0 player) (players s))
                 (wire s))) /\
    (t <> [] -> ToString_throws (obj_get "nickname" profile) = false ->
     handleChatMessage fuel now playerId messageData s =
       broadcastToLocation fuel (Player.location player) message (Some playerId) s /\
     (forall c,
         handleChatMessage fuel now playerId messageData s = c ->
         exists sent,
           wire (stateOf c) = wire s ++ sent /\
           forall e, In e sent ->
             cast (players s) (Player.location player) message (Some playerId) e \/
             left_notice (players s) e) /\
     (quiet s ->
      handleChatMessage fuel now playerId messageData s =
      Normal (mkServer (players s)
                (wire s ++
                 deliveries message
                   (getPlayersInLocation (players s) (Player.location player)
                      (Some playerId)))))) /\
    (List.length text <= 200 /\
     (exists rest, t = text ++ rest) /\
     (List.length t = 250 -> List.length text = 200) /\
     (List.length str = 250 -> bare str ->
      text = firstn 200 str /\ List.length text = 200)).
Proof.
  intros Hwf Hget Hdata Hnull Htext. exists (trim str).
  split; [apply trim_spec|]. intros text message.
  assert (Hlen : List.length text = Nat.min 200 (List.length (trim str)))
    by apply length_firstn.
  assert (Hshape : handleChatMessage fuel now playerId messageData s =
            if negb (truthy (VString str)) then Normal s
            else if (List.length (trim str) =? 0)%nat then Normal s
            else if ToString_throws (obj_get "nickname" profile) then Throw s
            else broadcastToLocation fuel (Player.location player) message
                   (Some playerId) s).
  { unfold handleChatMessage, getProp. rewrite Hget, Hdata, Hnull, Htext.
    cbv beta iota zeta. now rewrite substring_0. }
  split; [|split].
  - intros Hblank.
    assert (Hrun : handleChatMessage fuel now playerId messageData s = Normal s).
    { rewrite Hshape. destruct (negb (truthy (VString str))); [reflexivity|].
      now rewrite Hblank. }
    split; [exact Hrun|].
    intros envelope now0 Htype Hd.
    rewrite (handlePlayerMessage_of_type parseFloat fuel now0 now playerId envelope
               "chat_message" s player Hget Htype).
    change (dispatch parseFloat fuel now playerId envelope (VString "chat_message")
              (updated playerId (Player.set_lastActivity now0 player) s))
      with (handleChatMessage fuel now playerId (get envelope "data")
              (updated playerId (Player.set_lastActivity now0 player) s)).
    rewrite Hd. unfold handleChatMessage, getProp. rewrite refreshed_get.
    cbn [Player.data Player.set_lastActivity]. rewrite Hdata, Hnull, Htext.
    cbv beta iota zeta. destruct (negb (truthy (VString str))); [reflexivity|].
    now rewrite Hblank.
  - intros Hsome Hnick.
    assert (Hrun : handleChatMessage fuel now playerId messageData s =
              broadcastToLocation fuel (Player.location player) message
                (Some playerId) s).
    { rewrite Hshape, Hnick.
      assert (Htruthy : truthy (VString str) = true).
      { destruct str; [now contradiction Hsome|reflexivity]. }
      rewrite Htruthy. cbn [negb].
      destruct (Nat.eqb_spec (List.length (trim str)) 0) as [H0|_]; [|reflexivity].
      apply length_zero in H0. contradiction. }
    split; [exact Hrun|]. split.
    + intros c Hc. rewrite Hrun in Hc.
      destruct (broadcastToLocation_tidy _ _ _ _ _ _ (onSendFailure_tidy fuel) Hwf Hc)
        as [_ (sent & Hw & Hall)].
      exists sent. split; [exact Hw|]. now apply Forall_forall.
    + intros Hq. rewrite Hrun. unfold broadcastToLocation.
      now rewrite broadcastToLocation_quiet.
  - split; [rewrite Hlen; apply Nat.le_min_l|]. split; [|split].
    + exists (skipn 200 (trim str)). symmetry. apply firstn_skipn.
    + intros H250. now rewrite Hlen, H250.
    + intros H250 Hbare. pose proof (trim_bare str Hbare) as Htrim. split.
      * unfold text. now rewrite Htrim.
      * now rewrite Hlen, Htrim, H250.
Qed.

Lemma handleChatMessage_text_witness :
  exists t,
    trimmed (letters 250) t /\
    handleChatMessage 0 7000 "a" (VObject ["text" |-> VString (letters 250)]) lobby =
    Normal
      (mkServer (players lobby)
         [("b",
           Message.mk "chat_message"
             (VObject ["playerId" |-> VString "a"; "username" |-> VUndefined;
                       "nickname" |-> VString "Al";
                       "text" |-> VString (firstn 200 t);
                       "timestamp" |-> VNumber 7000]))]).
Proof.
  destruct (handleChatMessage_text parseFloat_sample 0 7000 "a"
              (VObject ["text" |-> VString (letters 250)]) lobby
              (joined "a" "Al" "Park" openSocket 1000) _ (letters 250)
              wf_lobby eq_refl eq_refl eq_refl eq_refl) as (t & Ht & _ & Hsome & _).
  exists t. split; [exact Ht|].
  assert (Hne : t <> []).
  { destruct Ht as (lead & trail & Hstr & Hlead & Htrail & _). intros ->.
    apply (f_equal allWhiteSpace) in Hstr.
    rewrite !allWhiteSpace_app, Hlead, Htrail in Hstr. discriminate Hstr. }
  exact (proj2 (proj2 (Hsome Hne eq_refl)) quiet_lobby).
Defined.

Example chat_leading_blank :
  substring 0 200 (trim (32%N :: letters 249)) = letters 200.
Proof. reflexivity. Qed.

(** C4, where the code breaks it: Di joined under a nickname that does not
    convert to a string (the profile was stored all the same); now active, Di
    sends the chat text [hi].  The log line of [handleChatMessage] raises on
    the nickname: Al and Bo, active in the same location behind open sockets,
    get nothing, and Di gets an [error] envelope. *)
Theorem chat_under_unconvertible_nickname :
  exists s' p,
    Map_get "d" (players masked) = Some p /\
    Player.data p =
      Some ["nickname" |-> unconvertible; "id" |-> VString "d";
            "joinTime" |-> VNumber 4001] /\
    map Player.id (getPlayersInLocation (players masked) "Park" (Some "d")) =
      ["a"; "b"] /\
    handlePlayerMessage parseFloat_sample 0 5000 5001 "d"
      (Some (VObject ["type" |-> VString "chat_message";
                      "data" |-> VObject ["text" |-> VString "hi"]]))
      masked = Normal s' /\
    wire s' =
      wire masked ++
      [("d", Message.mk "error"
               (VObject ["message" |-> VString "Invalid message format"]))].
Proof. do 2 eexists. repeat split. Qed.

(** ** Joining *)

Lemma cast_mono (s s' : Server) (location : string) (message : Message.t)
    (excludePlayerId : option string) (e : string * Message.t) :
  restricts s s' ->
  cast (players s') location message excludePlayerId e ->
  cast (players s) location message excludePlayerId e.
Proof.
  intros Hr (Hmsg & p & Hp & Hrest). split; [exact Hmsg|].
  exists p. split; [eapply restricts_get; eassumption|exact Hrest].
Qed.

Lemma deliver_quiet_wire (k : string) (message : Message.t) (s : Server) (p : Player.t) :
  Map_get k (players s) = Some p ->
  deliver k message s =
  mkServer (players s)
    (wire s ++ if WebSocket.isOpen (Player.ws p) then [(k, message)] else []).
Proof.
  intros Hget. unfold deliver. rewrite Hget.
  destruct (WebSocket.isOpen (Player.ws p)); [reflexivity|].
  rewrite app_nil_r. now destruct s.
Qed.

Lemma dataValue_profileOf (l : list Player.t) :
  (forall q, In q l -> Player.data q <> None) ->
  map Player.dataValue l = map (fun q => VObject (profileOf q)) l.
Proof.
  intros Hl. apply map_ext_in. intros q Hq. unfold Player.dataValue, profileOf.
  destruct (Player.data q) eqn:Hd; [reflexivity|]. now contradiction (Hl q Hq).
Qed.

(** X21: joining.  A [player_join] of a registered player sets the
    profile to the client's fields with [id] overwritten by the player's id
    and [joinTime] set to the current time.  Provided the [nickname] so
    stored converts to a string, the handler then sends the player the
    [player_list] holding exactly the profiles of the other active players
    of the location (none when alone) and broadcasts [player_joined] with the
    new profile to those players: however it ends, every envelope written is
    that list going to the player, the [player_joined] going to another
    active player of the location, or the [player_left] notice of a cleanup
    started by a failing send.  When no transport raises the join returns
    and writes exactly the list (if the player's socket is open) and then one
    [player_joined] to each of the others whose socket is open. *)
Theorem handlePlayerJoin_profile (fuel : nat) (now : float) (playerId : string)
    (playerData : Value) (s : Server) (player : Player.t) :
  wf s ->
  Map_get playerId (players s) = Some player ->
  ToString_throws (obj_get "nickname" (spread playerData)) = false ->
  let profile :=
    obj_set "joinTime" (VNumber now)
      (obj_set "id" (VString playerId) (spread playerData)) in
  let member := Player.set_data (Some profile) player in
  let others :=
    getPlayersInLocation (players s) (Player.location player) (Some playerId) in
  let list :=
    Message.mk "player_list" (VArray (map (fun q => VObject (profileOf q)) others)) in
  let announcement := Message.mk "player_joined" (VObject profile) in
  (obj_get "id" profile = VString playerId /\
   obj_get "joinTime" profile = VNumber now /\
   forall k : JSString, k <> "id" -> k <> "joinTime" ->
                        obj_get k profile = obj_get k (spread playerData)) /\
  (forall q, In q others <->
             Map_get (Player.id q) (players s) = Some q /\
             Player.data q = Some (profileOf q) /\
             Player.location q = Player.location player /\ Player.id q <> playerId) /\
  (forall c,
      handlePlayerJoin fuel now playerId playerData s = c ->
      (forall p', Map_get playerId (players (stateOf c)) = Some p' -> p' = member) /\
      exists sent,
        wire (stateOf c) = wire s ++ sent /\
        forall e, In e sent ->
          e = (playerId, list) \/
          cast (players (updated playerId member s)) (Player.location player)
            announcement (Some playerId) e \/
          left_notice (players (updated playerId member s)) e) /\
  (quiet s ->
   handlePlayerJoin fuel now playerId playerData s =
   Normal (mkServer (Map_set playerId member (players s))
             (wire s ++
              (if WebSocket.isOpen (Player.ws player)
               then [(playerId, list)] else []) ++
              deliveries announcement others))).
Proof.
  intros Hwf Hget Hnick profile member others list announcement.
  destruct (wf_updated playerId player member s Hwf Hget eq_refl) as [Hwf2 Hget2].
  assert (Hothers :
    getPlayersInLocation (players (updated playerId member s))
      (Player.location member) (Some playerId) = others).
  { simpl. apply snapshot_updated. }
  assert (Hactive : forall q, In q others -> Player.data q <> None).
  { intros q Hq. now apply getPlayersInLocation_In in Hq as (k & _ & _ & _ & Hd). }
  assert (Hlist : player_list others = list).
  { unfold player_list, list. now rewrite dataValue_profileOf. }
  assert (Hfields : forall k : JSString, k <> "id" -> k <> "joinTime" ->
                      obj_get k profile = obj_get k (spread playerData)).
  { intros k Hid Hjt. unfold profile. now apply obj_set_frame. }
  assert (Hrun : handlePlayerJoin fuel now playerId playerData s =
    do s1 <- sendToPlayer fuel playerId list (updated playerId member s);
    broadcastToLocation fuel (Player.location player) announcement (Some playerId) s1).
  { unfold handlePlayerJoin. rewrite Hget. fold profile. fold member.
    rewrite Hfields by ne_lit. rewrite Hnick, Hothers, Hlist. reflexivity. }
  split; [|split; [|split]].
  - unfold profile. split; [|split; [apply obj_get_set_eq|exact Hfields]].
    rewrite obj_get_set_neq by ne_lit. apply obj_get_set_eq.
  - intros q. unfold others. rewrite getPlayersInLocation_In. split.
    + intros (k & Hin & Hex & Hloc & Hd).
      destruct (wf_get _ _ _ Hwf Hin) as [Hq Hk]. rewrite <- Hk in Hex.
      repeat split; try assumption; [|congruence].
      unfold profileOf. destruct (Player.data q); [reflexivity|contradiction].
    + intros (Hq & Hd & Hloc & Hne). exists (Player.id q).
      split; [now apply Map_get_In|]. repeat split; try assumption; congruence.
  - intros c Hjoin. rewrite Hrun in Hjoin.
    assert (Hfirst : forall c1,
              sendToPlayer fuel playerId list (updated playerId member s) = c1 ->
              restricts (updated playerId member s) (stateOf c1) /\
              exists sent1,
                wire (stateOf c1) = wire s ++ sent1 /\
                forall e, In e sent1 ->
                  e = (playerId, list) \/
                  left_notice (players (updated playerId member s)) e).
    { intros c1 Hsend.
      destruct (sendToPlayer_tidy _ _ _ _ _ (onSendFailure_tidy fuel) Hwf2 Hsend)
        as [Hr1 (sent1 & Hw1 & Hall1)].
      split; [exact Hr1|]. exists sent1. split; [exact Hw1|]. intros e Hin.
      apply (proj1 (Forall_forall _ _) Hall1) in Hin.
      destruct Hin as [[-> _]|Hin]; [now left|now right]. }
    destruct (sendToPlayer fuel playerId list (updated playerId member s))
      as [s1|s1] eqn:Hsend; simpl in Hjoin;
      destruct (Hfirst _ eq_refl) as [Hr1 (sent1 & Hw1 & Hall1)]; simpl in Hr1, Hw1.
    + assert (Hwf1 : wf s1) by (eapply wf_restricts; eassumption).
      destruct (broadcastToLocation_tidy _ _ _ _ _ _ (onSendFailure_tidy fuel) Hwf1 Hjoin)
        as [Hr2 (sent2 & Hw2 & Hall2)].
      split.
      * intros p' Hp'. apply (restricts_get _ _ _ _ Hr2) in Hp'.
        apply (restricts_get _ _ _ _ Hr1) in Hp'. congruence.
      * exists (sent1 ++ sent2). split; [rewrite Hw2, Hw1; now rewrite app_assoc|].
        intros e Hin. apply in_app_or in Hin as [Hin|Hin].
        -- destruct (Hall1 e Hin) as [H|H]; [now left|right; now right].
        -- apply (proj1 (Forall_forall _ _) Hall2) in Hin. right.
           destruct Hin as [Hin|Hin].
           ++ left. eapply cast_mono; eassumption.
           ++ right. eapply left_notice_mono; eassumption.
    + subst c. simpl. split.
      * intros p' Hp'. apply (restricts_get _ _ _ _ Hr1) in Hp'. congruence.
      * exists sent1. split; [exact Hw1|]. intros e Hin.
        destruct (Hall1 e Hin) as [H|H]; [now left|right; now right].
  - intros Hq. rewrite Hrun.
    assert (Hq2 : quiet (updated playerId member s))
      by now apply (quiet_updated _ player).
    unfold sendToPlayer. rewrite sendToPlayer_quiet by exact Hq2.
    rewrite (deliver_quiet_wire _ _ _ member Hget2). cbn [andThen].
    unfold broadcastToLocation. rewrite broadcastToLocation_quiet.
    + simpl. rewrite snapshot_updated. fold others. now rewrite app_assoc.
    + eapply wf_restricts; [exact Hwf2|apply restricts_wire].
    + eapply restricts_quiet; [apply restricts_wire|exact Hq2].
Qed.

Lemma handlePlayerJoin_profile_witness :
  handlePlayerJoin 0 4001 "d"
    (VObject ["nickname" |-> VString "Di"; "id" |-> VString "a"]) withGuest =
  Normal
    (mkServer
       (Map_set "d"
          (Player.set_data
             (Some ["nickname" |-> VString "Di"; "id" |-> VString "d";
                    "joinTime" |-> VNumber 4001])
             (connected "d" openSocket 3000))
          (players withGuest))
       (wire withGuest ++
        [("d", Message.mk "player_list"
                 (VArray [VObject ["nickname" |-> VString "Al"; "id" |-> VString "a";
                                   "joinTime" |-> VNumber 1002];
                          VObject ["nickname" |-> VString "Bo"; "id" |-> VString "b";
                                   "joinTime" |-> VNumber 2002]]));
         ("a", Message.mk "player_joined"
                 (VObject ["nickname" |-> VString "Di"; "id" |-> VString "d";
                           "joinTime" |-> VNumber 4001]));
         ("b", Message.mk "player_joined"
                 (VObject ["nickname" |-> VString "Di"; "id" |-> VString "d";
                           "joinTime" |-> VNumber 4001]))])).
Proof.
  assert (Hwf : wf withGuest)
    by (apply reachable_wf with (parseFloat := parseFloat_sample), after_reachable).
  assert (Hq : quiet withGuest) by solve_quiet.
  exact (proj2 (proj2 (proj2
    (handlePlayerJoin_profile 0 4001 "d"
       (VObject ["nickname" |-> VString "Di"; "id" |-> VString "a"]) withGuest
       (connected "d" openSocket 3000) Hwf eq_refl eq_refl))) Hq).
Defined.

(** C5, where the code breaks it: Di sends a [player_join] whose nickname is
    [{"toString": null}].  The profile is set, but the log line that follows
    raises on the nickname: Di is sent no [player_list], Al and Bo get no
    [player_joined], and the [catch] of [handlePlayerMessage] answers Di
    with an [error] envelope.  Di is active all the same from then on: the
    next [player_list] made for Al would list Di. *)
Theorem join_under_unconvertible_nickname :
  exists s' p',
    handlePlayerMessage parseFloat_sample 0 4000 4001 "d"
      (Some (VObject ["type" |-> VString "player_join";
                      "data" |-> VObject ["nickname" |-> unconvertible]]))
      withGuest = Normal s' /\
    wire s' =
      wire withGuest ++
      [("d", Message.mk "error"
               (VObject ["message" |-> VString "Invalid message format"]))] /\
    Map_get "d" (players s') = Some p' /\
    Player.data p' =
      Some ["nickname" |-> unconvertible; "id" |-> VString "d";
            "joinTime" |-> VNumber 4001] /\
    map Player.id (getPlayersInLocation (players withGuest) "Park" (Some "d")) =
      ["a"; "b"] /\
    map Player.id (getPlayersInLocation (players s') "Park" (Some "a")) =
      ["b"; "d"].
Proof. do 2 eexists. repeat split. Qed.

(** ** Disconnect cleanup *)

(** C7, where the code breaks it: Al and Bo, both active in the park, both
    behind a socket that is open and raises on [send].  The cleanup of Al
    notifies Bo; the send raises, so Bo is cleaned up, which notifies Al, who
    is still registered (a player is deleted only after its broadcast); and
    so on, until the call stack is exhausted.  Whatever room the stack has,
    [handlePlayerDisconnect] ends in the RangeError and leaves the registry
    as it was, Al included; raised in the [close] listener, nothing catches
    it. *)
Theorem handlePlayerDisconnect_mutual_failure (fuel : nat) :
  handlePlayerDisconnect fuel "a" bothFailing = Throw bothFailing /\
  Map_get "a" (players bothFailing) =
    Some (joined "a" "Al" "Park" failingSocket 1000) /\
  step parseFloat_sample fuel (WsClose "a") bothFailing = None.
Proof.
  destruct (mutual_failure_never_returns fuel) as [Ha _].
  split; [exact Ha|]. split; [reflexivity|].
  cbn [step]. now rewrite Ha.
Qed.

(** ** The reaper *)

Lemma restricts_disconnected (k : string) (s : Server) : restricts s (disconnected k s).
Proof.
  unfold disconnected. destruct (Map_get k (players s)); [|apply restricts_refl].
  now exists (fun x => negb (x =? k)).
Qed.

Lemma sweep_spec (fuel : nat) (now : float) (s0 : Server) :
  wf s0 ->
  forall keys s s',
    restricts s0 s ->
    forEachLive (reapStep fuel now) keys s = Normal s' ->
    restricts s s' /\ wrote (left_notice (players s0)) s s' /\
    forall k p, In k keys -> Map_get k (players s') = Some p -> isStale now p = false.
Proof.
  intros Hwf0. induction keys as [|k keys IH]; intros s s' Hr; simpl.
  - intros [= <-]. split; [apply restricts_refl|]. split; [apply wrote_refl|].
    intros k p [].
  - destruct (Map_get k (players s)) as [p|] eqn:Hget.
    + unfold reapStep at 1. destruct (isStale now p) eqn:Hstale.
      * intros H. apply andThen_Normal in H as (s1 & Hd & Hrest).
        assert (Hwf : wf s) by (eapply wf_restricts; eassumption).
        destruct (handlePlayerDisconnect_tidy fuel _ _ _ Hwf Hd) as [Hr1 Hw1].
        simpl in Hr1, Hw1.
        destruct (IH s1 s' (restricts_trans _ _ _ Hr Hr1) Hrest) as (Hr2 & Hw2 & Hns).
        split; [eapply restricts_trans; eassumption|]. split.
        -- eapply wrote_trans; [|exact Hw2]. eapply wrote_impl; [|exact Hw1].
           intros e He. eapply left_notice_mono; eassumption.
        -- intros k0 p0 [<-|Hin] Hp0; [|now apply (Hns k0)].
           apply (restricts_get _ _ _ _ Hr2) in Hp0.
           rewrite (handlePlayerDisconnect_absent _ _ _ _ Hd) in Hp0. discriminate.
      * cbn [andThen]. intros Hrest. destruct (IH s s' Hr Hrest) as (Hr2 & Hw2 & Hns).
        split; [exact Hr2|]. split; [exact Hw2|].
        intros k0 p0 [<-|Hin] Hp0; [|now apply (Hns k0)].
        apply (restricts_get _ _ _ _ Hr2) in Hp0. congruence.
    + intros Hrest. destruct (IH s s' Hr Hrest) as (Hr2 & Hw2 & Hns).
      split; [exact Hr2|]. split; [exact Hw2|].
      intros k0 p0 [<-|Hin] Hp0; [|now apply (Hns k0)].
      apply (restricts_get _ _ _ _ Hr2) in Hp0. congruence.
Qed.

Lemma sweep_quiet (fuel : nat) (now : float) (keys : list string) :
  forall s, wf s -> quiet s ->
            forEachLive (reapStep fuel now) keys s = Normal (fold_left (reapOne now) keys s).
Proof.
  induction keys as [|k keys IH]; intros s Hwf Hq; simpl; [reflexivity|].
  unfold reapOne at 2. destruct (Map_get k (players s)) as [p|]; [|now apply IH].
  unfold reapStep at 1. destruct (isStale now p); [|now apply IH].
  rewrite handlePlayerDisconnect_quiet by assumption. cbn [andThen].
  apply IH.
  - eapply wf_restricts; [exact Hwf|apply restricts_disconnected].
  - eapply restricts_quiet; [apply restricts_disconnected|exact Hq].
Qed.

Lemma sweep_idle (fuel : nat) (now : float) (keys : list string) (s : Server) :
  (forall k p, In k keys -> Map_get k (players s) = Some p -> isStale now p = false) ->
  forEachLive (reapStep fuel now) keys s = Normal s.
Proof.
  induction keys as [|k keys IH]; intros Hidle; simpl; [reflexivity|].
  assert (IH' := IH (fun k0 p0 Hin => Hidle k0 p0 (or_intror Hin))).
  destruct (Map_get k (players s)) as [p|] eqn:Hget; [|exact IH'].
  unfold reapStep at 1. now rewrite (Hidle k p (or_introl eq_refl) Hget).
Qed.

Lemma sweep_app (f : string -> Player.t -> Server -> Completion)
    (l1 l2 : list string) (s : Server) :
  forEachLive f (l1 ++ l2) s = do s1 <- forEachLive f l1 s; forEachLive f l2 s1.
Proof.
  revert s. induction l1 as [|k l1 IH]; intros s; simpl; [reflexivity|].
  destruct (Map_get k (players s)) as [p|]; [|apply IH].
  destruct (f k p s); simpl; [apply IH|reflexivity].
Qed.

Lemma sweep_sole (fuel : nat) (now : float) (k : string) (p : Player.t) (s : Server) :
  wf s -> Map_get k (players s) = Some p -> isStale now p = true ->
  (forall k' p', Map_get k' (players s) = Some p' -> isStale now p' = true -> k' = k) ->
  cleanupDisconnectedPlayers fuel now s = handlePlayerDisconnect fuel k s.
Proof.
  intros Hwf Hget Hstale Hsole.
  change (cleanupDisconnectedPlayers fuel now s)
    with (forEachLive (reapStep fuel now) (map fst (players s)) s).
  assert (Hin : In k (map fst (players s))).
  { apply Map_get_In in Hget. now apply (in_map fst) in Hget. }
  apply in_split in Hin as (l1 & l2 & Hkeys). rewrite Hkeys.
  assert (Hl1 : ~ In k l1).
  { destruct Hwf as [Hnd _]. rewrite Hkeys in Hnd.
    apply NoDup_remove_2 in Hnd. intros Hin. apply Hnd, in_or_app. now left. }
  rewrite sweep_app, sweep_idle.
  - simpl. rewrite Hget. unfold reapStep at 1. rewrite Hstale.
    destruct (handlePlayerDisconnect fuel k s) as [s1|s1] eqn:Hd; [|reflexivity].
    cbn [andThen].
    apply sweep_idle. intros k' p' _ Hp'.
    destruct (isStale now p') eqn:Hs'; [|reflexivity]. exfalso.
    destruct (handlePlayerDisconnect_tidy fuel _ _ _ Hwf Hd) as [Hr _]. simpl in Hr.
    pose proof (restricts_get _ _ _ _ Hr Hp') as Hp0.
    pose proof (Hsole k' p' Hp0 Hs') as Hk. subst k'.
    rewrite (handlePlayerDisconnect_absent _ _ _ _ Hd) in Hp'. discriminate.
  - intros k' p' Hin' Hp'. destruct (isStale now p') eqn:Hs'; [|reflexivity].
    exfalso. apply Hl1. now rewrite <- (Hsole k' p' Hp' Hs').
Qed.

Lemma stale_beside_failing (fuel : nat) :
  handlePlayerDisconnect fuel "a" staleBesideFailing = Throw staleBesideFailing /\
  handlePlayerDisconnect fuel "b" staleBesideFailing = Throw staleBesideFailing.
Proof.
  induction fuel as [|fuel [IHa IHb]]; [split; reflexivity|].
  split; rewrite handlePlayerDisconnect_eq; cbn -[handlePlayerDisconnect];
    [now rewrite IHb|now rewrite IHa].
Qed.

(** C9, where the code breaks it: Ed, active in the park, is stale (the
    socket is closed); Al and Bo, active in the park too, are behind sockets
    that are open and raise on [send].  The sweep starts the cleanup of Ed,
    whose notice to Al raises; the cleanup of Al notifies Bo, whose cleanup
    notifies Al, and so on until the call stack is exhausted.  Whatever room
    the stack has, the sweep ends in the RangeError with the registry as it
    was: Ed, stale, is still there.  Raised in the timer, nothing catches
    it. *)
Theorem cleanupDisconnectedPlayers_mutual_failure (fuel : nat) :
  isStale 6000 (joined "e" "Ed" "Park" closedSocket 5000) = true /\
  cleanupDisconnectedPlayers fuel 6000 staleBesideFailing = Throw staleBesideFailing /\
  Map_get "e" (players staleBesideFailing) =
    Some (joined "e" "Ed" "Park" closedSocket 5000) /\
  step parseFloat_sample fuel (ReaperTick 6000) staleBesideFailing = None.
Proof.
  assert (Hrun : cleanupDisconnectedPlayers fuel 6000 staleBesideFailing =
                 Throw staleBesideFailing).
  { unfold cleanupDisconnectedPlayers. cbn -[handlePlayerDisconnect].
    rewrite handlePlayerDisconnect_eq. cbn -[handlePlayerDisconnect onSendFailure].
    destruct fuel as [|fuel]; [reflexivity|]. cbn -[handlePlayerDisconnect].
    now rewrite (proj1 (stale_beside_failing fuel)). }
  split; [reflexivity|]. split; [exact Hrun|]. split; [reflexivity|].
  cbn [step]. now rewrite Hrun.
Qed.

(** ** Who is written to, however a call ends *)

Lemma hears_mono (s s' : Server) (e : string * Message.t) :
  restricts s s' -> hears (players s') e -> hears (players s) e.
Proof.
  intros Hr (p & Hp & Hrest). exists p.
  split; [eapply restricts_get; eassumption|exact Hrest].
Qed.

Lemma sendToPlayer_discreet (h : string -> Server -> Completion) (k : string)
    (message : Message.t) (s : Server) (c : Completion) :
  discreet h -> sendToPlayer_ h k message s = c ->
  restricts s (stateOf c) /\ wrote (hears (players s)) s (stateOf c).
Proof.
  intros Hh. unfold sendToPlayer_.
  destruct (Map_get k (players s)) as [p|] eqn:Hget.
  - destruct (WebSocket.isOpen (Player.ws p)) eqn:Hopen.
    + destruct (WebSocket.sendFails (Player.ws p)) eqn:Hsend.
      * now apply Hh.
      * intros <-. split; [apply restricts_wire|].
        apply wrote_transmit. now exists p.
    + intros <-. split; [apply restricts_refl|apply wrote_refl].
  - intros <-. split; [apply restricts_refl|apply wrote_refl].
Qed.

Lemma forEach_send_discreet (h : string -> Server -> Completion)
    (message : Message.t) (s0 : Server) (l : list Player.t) :
  discreet h ->
  forall s c,
    restricts s0 s ->
    forEach (fun player => sendToPlayer_ h (Player.id player) message) l s = c ->
    restricts s (stateOf c) /\ wrote (hears (players s0)) s (stateOf c).
Proof.
  intros Hh. induction l as [|p l IH]; intros s c Hr; simpl.
  - intros <-. split; [apply restricts_refl|apply wrote_refl].
  - destruct (sendToPlayer_ h (Player.id p) message s) as [s1|s1] eqn:Hsend;
      destruct (sendToPlayer_discreet _ _ _ _ _ Hh Hsend) as [Hr1 Hw1];
      simpl in Hr1, Hw1 |- *;
      assert (Hw1' : wrote (hears (players s0)) s s1)
        by (eapply wrote_impl; [|exact Hw1]; intros e He; eapply hears_mono; eassumption).
    + intros Hrest.
      destruct (IH s1 c (restricts_trans _ _ _ Hr Hr1) Hrest) as [Hr2 Hw2].
      split; [eapply restricts_trans; eassumption|eapply wrote_trans; eassumption].
    + intros <-. now split.
Qed.

Lemma handlePlayerDisconnect_discreet_step (fuel : nat) :
  discreet (onSendFailure fuel) -> discreet (handlePlayerDisconnect fuel).
Proof.
  intros Hh k s c. rewrite handlePlayerDisconnect_eq.
  destruct (Map_get k (players s)) as [player|].
  - destruct (Player.data player) as [profile|].
    + destruct (broadcastToLocation _ _ _ _ _) as [s1|s1] eqn:Hb; simpl; intros <-;
        unfold broadcastToLocation, broadcastToLocation_ in Hb;
        destruct (forEach_send_discreet _ _ s _ Hh _ _ (restricts_refl s) Hb) as [Hr Hw];
        simpl in Hr, Hw |- *.
      * split; [eapply restricts_trans; [exact Hr|apply restricts_delete]|].
        now apply wrote_players.
      * now split.
    + simpl. intros <-. simpl.
      split; [apply restricts_delete|apply wrote_players, wrote_refl].
  - intros <-. split; [apply restricts_refl|apply wrote_refl].
Qed.

Lemma onSendFailure_discreet (fuel : nat) : discreet (onSendFailure fuel).
Proof.
  induction fuel as [|fuel IH]; simpl.
  - intros k s c <-. split; [apply restricts_refl|apply wrote_refl].
  - now apply handlePlayerDisconnect_discreet_step.
Qed.

Lemma sendToPlayer_restricts (fuel : nat) (k : string) (message : Message.t)
    (s : Server) (c : Completion) :
  sendToPlayer fuel k message s = c -> restricts s (stateOf c).
Proof.
  intros Hsend.
  now apply (sendToPlayer_discreet _ _ _ _ _ (onSendFailure_discreet fuel) Hsend).
Qed.

Lemma broadcastToLocation_restricts (fuel : nat) (location : string)
    (message : Message.t) (excludePlayerId : option string) (s : Server)
    (c : Completion) :
  broadcastToLocation fuel location message excludePlayerId s = c ->
  restricts s (stateOf c).
Proof.
  intros Hcast. unfold broadcastToLocation, broadcastToLocation_ in Hcast.
  now apply (forEach_send_discreet _ _ s _ (onSendFailure_discreet fuel) _ _
               (restricts_refl s) Hcast).
Qed.

Lemma handlePlayerDisconnect_restricts (fuel : nat) (k : string) (s : Server)
    (c : Completion) :
  handlePlayerDisconnect fuel k s = c -> restricts s (stateOf c).
Proof.
  intros Hd.
  now apply (handlePlayerDisconnect_discreet_step fuel (onSendFailure_discreet fuel)
               _ _ _ Hd).
Qed.

(** ** What a handler leaves of the connections *)

Lemma sameLinks_refl (s : Server) : sameLinks s s.
Proof. intros k p Hp. now exists p. Qed.

Lemma sameLinks_trans (s1 s2 s3 : Server) :
  sameLinks s1 s2 -> sameLinks s2 s3 -> sameLinks s1 s3.
Proof.
  intros H12 H23 k p3 Hp3. destruct (H23 k p3 Hp3) as (p2 & Hp2 & Hw & Hl & Hi).
  destruct (H12 k p2 Hp2) as (p1 & Hp1 & Hw' & Hl' & Hi').
  exists p1. repeat split; congruence.
Qed.

Lemma restricts_sameLinks (s s' : Server) : restricts s s' -> sameLinks s s'.
Proof. intros Hr k p Hp. exists p. split; [eapply restricts_get; eassumption|tauto]. Qed.

Lemma sameLinks_set_data (k : string) (p : Player.t) (d : option Object) (s : Server) :
  Map_get k (players s) = Some p -> sameLinks s (updated k (Player.set_data d p) s).
Proof.
  intros Hget k0 p0. simpl. destruct (String.eqb_spec k k0) as [<-|Hne].
  - rewrite Map_get_set_eq. intros [= <-]. now exists p.
  - rewrite Map_get_set_neq by assumption. intros H. now exists p0.
Qed.

Lemma handlePlayerJoin_sameLinks (fuel : nat) (now : float) (k : string)
    (playerData : Value) (s : Server) (c : Completion) :
  handlePlayerJoin fuel now k playerData s = c -> sameLinks s (stateOf c).
Proof.
  unfold handlePlayerJoin.
  destruct (Map_get k (players s)) as [p|] eqn:Hget;
    [|intros <-; apply sameLinks_refl].
  set (profile := obj_set "joinTime" _ _).
  assert (Hset : sameLinks s (updated k (Player.set_data (Some profile) p) s))
    by now apply sameLinks_set_data.
  destruct (ToString_throws _); [now intros <-|].
  destruct (sendToPlayer _ _ _ _) as [s1|s1] eqn:Hsend; simpl;
    apply sendToPlayer_restricts, restricts_sameLinks in Hsend; simpl in Hsend.
  - intros Hcast. apply broadcastToLocation_restricts, restricts_sameLinks in Hcast.
    eapply sameLinks_trans; [exact Hset|]. eapply sameLinks_trans; eassumption.
  - intros <-. eapply sameLinks_trans; eassumption.
Qed.

Lemma handlePlayerLeave_sameLinks (fuel : nat) (k : string) (s : Server)
    (c : Completion) :
  handlePlayerLeave fuel k s = c -> sameLinks s (stateOf c).
Proof.
  unfold handlePlayerLeave.
  destruct (Map_get k (players s)) as [p|]; [|intros <-; apply sameLinks_refl].
  destruct (Player.data p) as [profile|]; [|intros <-; apply sameLinks_refl].
  destruct (ToString_throws _); [intros <-; apply sameLinks_refl|].
  destruct (broadcastToLocation _ _ _ _ _) as [s1|s1] eqn:Hcast; simpl; intros <-;
    apply broadcastToLocation_restricts, restricts_sameLinks in Hcast; simpl in Hcast |- *.
  - eapply sameLinks_trans; [exact Hcast|].
    apply restricts_sameLinks, restricts_delete.
  - exact Hcast.
Qed.

Lemma handleChatMessage_sameLinks (fuel : nat) (now : float) (k : string)
    (messageData : Value) (s : Server) (c : Completion) :
  handleChatMessage fuel now k messageData s = c -> sameLinks s (stateOf c).
Proof.
  unfold handleChatMessage.
  assert (Hsame : forall c0 : Completion, stateOf c0 = s -> c0 = c ->
                                         sameLinks s (stateOf c)).
  { intros c0 H0 <-. rewrite H0. apply sameLinks_refl. }
  destruct (Map_get k (players s)) as [p|]; [|now apply Hsame].
  destruct (Player.data p) as [profile|]; [|now apply Hsame].
  destruct (getProp messageData "text") as [text|]; [|now apply Hsame].
  destruct (negb (truthy text)); [now apply Hsame|].
  destruct text; try now apply Hsame.
  destruct (List.length (trim s0) =? 0)%nat; [now apply Hsame|].
  destruct (ToString_throws _); [now apply Hsame|].
  intros Hcast. now apply broadcastToLocation_restricts, restricts_sameLinks in Hcast.
Qed.

Section Links.

Variable parseFloat : Value -> float.

Lemma handlePlayerMove_sameLinks (fuel : nat) (k : string) (moveData : Value)
    (s : Server) (c : Completion) :
  handlePlayerMove parseFloat fuel k moveData s = c -> sameLinks s (stateOf c).
Proof.
  unfold handlePlayerMove.
  assert (Hsame : forall c0 : Completion, stateOf c0 = s -> c0 = c ->
                                         sameLinks s (stateOf c)).
  { intros c0 H0 <-. rewrite H0. apply sameLinks_refl. }
  destruct (Map_get k (players s)) as [p|] eqn:Hget; [|now apply Hsame].
  destruct (Player.data p) as [profile|]; [|now apply Hsame].
  destruct (getProp moveData "x") as [mx|]; [|now apply Hsame].
  destruct (ToString_throws mx); [now apply Hsame|].
  destruct (ToString_throws (get moveData "y")); [now apply Hsame|].
  set (profile' := obj_set "y" _ _).
  intros Hcast. apply broadcastToLocation_restricts, restricts_sameLinks in Hcast.
  eapply sameLinks_trans; [|exact Hcast]. now apply sameLinks_set_data.
Qed.

Lemma dispatch_sameLinks (fuel : nat) (now : float) (k : string) (message type : Value)
    (s : Server) (c : Completion) :
  dispatch parseFloat fuel now k message type s = c -> sameLinks s (stateOf c).
Proof.
  unfold dispatch.
  destruct (strictEq type "player_join"); [apply handlePlayerJoin_sameLinks|].
  destruct (strictEq type "player_leave"); [apply handlePlayerLeave_sameLinks|].
  destruct (strictEq type "chat_message"); [apply handleChatMessage_sameLinks|].
  destruct (strictEq type "player_move"); [apply handlePlayerMove_sameLinks|].
  intros Hsend. now apply sendToPlayer_restricts, restricts_sameLinks in Hsend.
Qed.

(** Where [handlePlayerMessage] ends, in terms of what its [try] block
    did. *)
Lemma handlePlayerMessage_shape (fuel : nat) (now now' : float) (k : string)
    (rawMessage : RawMessage) (s : Server) (player : Player.t) :
  Map_get k (players s) = Some player ->
  exists s1,
    (rawMessage = None /\ s1 = s \/
     rawMessage <> None /\
     sameLinks (updated k (Player.set_lastActivity now player) s) s1) /\
    (handlePlayerMessage parseFloat fuel now now' k rawMessage s = Normal s1 \/
     handlePlayerMessage parseFloat fuel now now' k rawMessage s =
     sendToPlayer fuel k (error "Invalid message format") s1).
Proof.
  intros Hget. unfold handlePlayerMessage, JSON_parse.
  destruct rawMessage as [message|]; [|exists s; split; [now left|now right]].
  rewrite Hget. set (s0 := updated k (Player.set_lastActivity now player) s).
  assert (Hsome : Some message <> None) by discriminate.
  destruct (getProp message "type") as [type|].
  2:{ exists s0. split; [right; split; [exact Hsome|apply sameLinks_refl]|now right]. }
  destruct (ToString_throws type).
  { exists s0. split; [right; split; [exact Hsome|apply sameLinks_refl]|now right]. }
  destruct (dispatch _ _ _ _ _ _ _) as [s1|s1] eqn:Hc;
    apply dispatch_sameLinks in Hc; simpl in Hc; exists s1;
    (split; [right; split; [exact Hsome|exact Hc]|]); [now left|now right].
Qed.

(** A sender whose socket does not raise is always answered: whatever the
    other transports do and whatever room the stack has, the handling of its
    frame returns. *)
Lemma handlePlayerMessage_answers (fuel : nat) (now now' : float) (k : string)
    (rawMessage : RawMessage) (s : Server) :
  (forall p, Map_get k (players s) = Some p ->
             WebSocket.isOpen (Player.ws p) = false \/
             WebSocket.sendFails (Player.ws p) = false) ->
  exists s', handlePlayerMessage parseFloat fuel now now' k rawMessage s = Normal s'.
Proof.
  intros Hok.
  assert (Hcatch : forall s1 message,
            (forall p1, Map_get k (players s1) = Some p1 ->
                        exists p, Map_get k (players s) = Some p /\
                                  Player.ws p1 = Player.ws p) ->
            exists s', sendToPlayer fuel k message s1 = Normal s').
  { intros s1 message Hsame. unfold sendToPlayer, sendToPlayer_.
    destruct (Map_get k (players s1)) as [p1|] eqn:Hp1; [|now eexists].
    destruct (Hsame p1 eq_refl) as (p & Hp & Hws). rewrite Hws.
    destruct (WebSocket.isOpen (Player.ws p)) eqn:Hopen; [|now eexists].
    destruct (Hok p Hp) as [H|H]; [congruence|]. rewrite H. now eexists. }
  destruct (Map_get k (players s)) as [player|] eqn:Hget.
  - destruct (handlePlayerMessage_shape fuel now now' k rawMessage s player Hget)
      as (s1 & Hs1 & [Hrun|Hrun]); rewrite Hrun; [now eexists|].
    apply Hcatch. intros p1 Hp1. destruct Hs1 as [[_ ->]|[_ Hlinks]].
    + exists p1. rewrite <- Hget, Hp1. now split.
    + destruct (Hlinks k p1 Hp1) as (p0 & Hp0 & Hws & _). simpl in Hp0.
      rewrite Map_get_set_eq in Hp0. injection Hp0 as <-. now exists player.
  - unfold handlePlayerMessage, JSON_parse. destruct rawMessage as [message|].
    + rewrite Hget. now eexists.
    + apply Hcatch. intros p1 Hp1. congruence.
Qed.

End Links.

(** ** Every event is handled when no registered transport raises *)

Lemma wf_players (s s' : Server) : players s' = players s -> wf s -> wf s'.
Proof. unfold wf. now intros ->. Qed.

Lemma quiet_players (s s' : Server) : players s' = players s -> quiet s -> quiet s'.
Proof. unfold quiet. now intros ->. Qed.

Lemma deliver_players (k : string) (message : Message.t) (s : Server) :
  players (deliver k message s) = players s.
Proof.
  unfold deliver. destruct (Map_get k (players s)) as [p|]; [|reflexivity].
  now destruct (WebSocket.isOpen (Player.ws p)).
Qed.

Lemma sendToPlayer_returns (fuel : nat) (k : string) (message : Message.t) (s : Server) :
  quiet s ->
  exists s', sendToPlayer fuel k message s = Normal s' /\ players s' = players s.
Proof.
  intros Hq. exists (deliver k message s).
  split; [now apply sendToPlayer_quiet|apply deliver_players].
Qed.

Lemma shutdown_returns (fuel : nat) (s : Server) :
  quiet s -> exists s', shutdown fuel s = Normal s'.
Proof.
  unfold shutdown. generalize (map fst (players s)) as keys.
  intros keys. revert s. induction keys as [|k keys IH]; intros s Hq; simpl.
  - now exists s.
  - destruct (Map_get k (players s)) as [p|]; [|now apply IH].
    destruct (sendToPlayer_returns fuel k server_shutdown s Hq) as (s1 & -> & Hp1).
    cbn [andThen]. apply IH. now apply (quiet_players s).
Qed.

Section Returns.

Variable parseFloat : Value -> float.

Lemma handlePlayerMessage_returns (fuel : nat) (now now' : float) (k : string)
    (rawMessage : RawMessage) (s : Server) :
  quiet s ->
  exists s', handlePlayerMessage parseFloat fuel now now' k rawMessage s = Normal s'.
Proof.
  intros Hq. apply handlePlayerMessage_answers. intros p Hp. right.
  apply (Hq k). now apply Map_get_In.
Qed.

(** One unit of fuel is for a new connection whose own socket raises on the
    welcome message: its cleanup has nobody to notify. *)
Lemma step_returns (fuel : nat) (e : Event) (s : Server) :
  wf s -> quiet s -> exists s', step parseFloat (S fuel) e s = Some s'.
Proof.
  intros Hwf Hq. destruct e as [k ws ip now|k raw now now'|k|k|now| | |k ws]; cbn [step].
  - unfold handleNewConnection, sendToPlayer, sendToPlayer_, updated, setPlayers.
    cbn [players]. rewrite Map_get_set_eq. cbn [Player.ws onSendFailure].
    destruct (WebSocket.isOpen ws); [|now eexists].
    destruct (WebSocket.sendFails ws); [|now eexists].
    rewrite handlePlayerDisconnect_eq. cbn [players setPlayers].
    rewrite Map_get_set_eq. cbn [Player.data]. now eexists.
  - destruct (handlePlayerMessage_returns (S fuel) now now' k raw s Hq) as (s' & ->).
    now exists s'.
  - eexists. now rewrite handlePlayerDisconnect_quiet.
  - eexists. now rewrite handlePlayerDisconnect_quiet.
  - eexists. unfold cleanupDisconnectedPlayers.
    now rewrite (sweep_quiet (S fuel) now).
  - now exists s.
  - destruct (shutdown_returns (S fuel) s Hq) as (s' & ->). now exists s'.
  - now eexists.
Qed.

End Returns.
(** ** Invariants of the transition system *)

Lemma touches_registered (e : Event) (s s1 : Server) (k : string) (q : Player.t) :
  touches e s s1 -> Map_get k (players s1) = Some q -> Player.data q <> None ->
  exists q0, Map_get k (players s) = Some q0.
Proof.
  intros [|k0 p' Hid Hd Hloc|k0 p p' Hget Hid Hloc Hd]; simpl.
  - intros H _. now exists q.
  - destruct (String.eqb_spec k0 k) as [->|Hne].
    + rewrite Map_get_set_eq. intros [= <-] Hq. contradiction.
    + rewrite Map_get_set_neq by assumption. intros H _. now exists q.
  - destruct (String.eqb_spec k0 k) as [->|Hne].
    + intros _ _. now exists p.
    + rewrite Map_get_set_neq by assumption. intros H _. now exists q.
Qed.

(** C2: a player whose profile is unset is invisible.  In every reachable
    state and for every transition that is not this player's own
    [player_join], none of the envelopes written lists the player in a
    [player_list] (the list holds profiles of registered players whose
    profile is set), none of the four location broadcasts goes to the
    player, and none names the player as the one who joined, left, moved or
    spoke.  (When no registered transport raises, the transition exists:
    the step returns.) *)
Theorem unjoined_invisible (parseFloat : Value -> float) (e : Event)
    (s : Server) (sid : string) (p : Player.t) :
  reachable parseFloat s ->
  Map_get sid (players s) = Some p -> Player.data p = None ->
  isJoinBy e sid = false ->
  (forall fuel s',
      step parseFloat fuel e s = Some s' ->
      exists sent,
        wire s' = wire s ++ sent /\
        forall rid message, In (rid, message) sent ->
          (Message.type message = "player_list" ->
           exists others,
             message = player_list others /\
             forall q, In q others ->
               Player.id q <> sid /\ Player.data q <> None /\
               exists q0, Map_get (Player.id q) (players s) = Some q0) /\
          (isBroadcast (Message.type message) = true ->
           rid <> sid /\ actorOf message <> VString sid)) /\
  (quiet s -> forall fuel, exists s', step parseFloat (S fuel) e s = Some s').
Proof.
  intros Hs Hp Hnone Hjoin.
  split; [|intros Hq fuel; apply step_returns; [now apply reachable_wf in Hs|exact Hq]].
  intros fuel s' Hstep.
  destruct (step_sound _ _ _ _ _ (reachable_wf _ _ Hs) Hstep)
    as (s1 & Ht & _ & sent & Hw & Hall).
  destruct (touches_unjoined _ _ _ _ _ Ht Hp Hnone Hjoin) as (p1 & Hp1 & Hnone1).
  exists sent. split.
  - rewrite Hw. f_equal. now destruct Ht.
  - intros rid message Hin.
    apply (proj1 (Forall_forall _ _) Hall) in Hin.
    unfold emitted, listing, visible in Hin. cbn [fst snd] in Hin.
    destruct Hin as [[Hb Hl]|[(pr & others & Hmsg & Hpr & Hdr & Hq)|[Hb Hv]]].
    + split; [intros Hl'; contradiction|intros Hb'; congruence].
    + subst message. split; [|discriminate].
      intros _. exists others. split; [reflexivity|].
      intros q Hin. destruct (Hq q Hin) as (Hgq & Hdq & _).
      split; [intros Heq; rewrite Heq in Hgq; congruence|].
      split; [exact Hdq|]. eapply touches_registered; eassumption.
    + split.
      * intros Hl. rewrite Hl in Hb. discriminate.
      * intros _. destruct Hv as (pr & a & pa & Hpr & Hdr & Ha & Hda & _ & _ & Hact).
        split.
        -- intros ->. congruence.
        -- rewrite Hact. intros [= Heq]. apply lit_inj in Heq. subst a. congruence.
Qed.

Lemma unjoined_invisible_witness :
  exists sent,
    wire afterMove = wire withGuest ++ sent /\
    forall rid message, In (rid, message) sent ->
      (Message.type message = "player_list" ->
       exists others,
         message = player_list others /\
         forall q, In q others ->
           Player.id q <> "d" /\ Player.data q <> None /\
           exists q0, Map_get (Player.id q) (players withGuest) = Some q0) /\
      (isBroadcast (Message.type message) = true ->
       rid <> "d" /\ actorOf message <> VString "d").
Proof.
  refine (proj1 (unjoined_invisible parseFloat_sample moveOut withGuest "d"
                   (connected "d" openSocket 3000) _ eq_refl eq_refl eq_refl)
            0 afterMove eq_refl).
  apply after_reachable.
Defined.

(** C10: in every reachable state every session is in location "Park".  A
    player object is created there, and no transition assigns the field
    afterwards: a player found in the registry after a step is a new
    connection in the park or has the location it had before.  So a lookup
    for any other location finds nobody, and the recipients of a broadcast
    to the park are all the active players but the excluded one.  (When
    no registered transport raises, every event is handled: the step
    returns.) *)
Theorem location_always_Park (parseFloat : Value -> float) (s : Server) :
  reachable parseFloat s ->
  (forall k p, In (k, p) (players s) -> Player.location p = "Park") /\
  (forall fuel e s' k p',
      step parseFloat fuel e s = Some s' -> Map_get k (players s') = Some p' ->
      Player.location p' = "Park" /\
      (forall p, Map_get k (players s) = Some p ->
                 Player.location p' = Player.location p)) /\
  (forall location excludePlayerId,
      location <> "Park" ->
      getPlayersInLocation (players s) location excludePlayerId = []) /\
  (forall excludePlayerId p,
      In p (getPlayersInLocation (players s) "Park" excludePlayerId) <->
      Map_get (Player.id p) (players s) = Some p /\ Player.data p <> None /\
      excludePlayerId <> Some (Player.id p)) /\
  (quiet s -> forall fuel e, exists s', step parseFloat (S fuel) e s = Some s').
Proof.
  intros Hs. assert (Hwf := reachable_wf _ _ Hs).
  assert (Hpark : forall k p, In (k, p) (players s) -> Player.location p = "Park").
  { intros k p Hin. apply (reachable_Park _ _ Hs (Player.id p)).
    now destruct (wf_get _ _ _ Hwf Hin). }
  split; [exact Hpark|]. split; [|split; [|split]].
  - intros fuel e s' k p' Hstep Hget.
    assert (Hs' : reachable parseFloat s') by (eapply reachable_step; eassumption).
    split; [now apply (reachable_Park _ _ Hs' k)|].
    intros p Hp. rewrite (reachable_Park _ _ Hs' k p' Hget).
    symmetry. now apply (reachable_Park _ _ Hs k).
  - intros location excludePlayerId Hne.
    destruct (getPlayersInLocation _ _ _) as [|p l] eqn:Hl; [reflexivity|].
    assert (Hin : In p (getPlayersInLocation (players s) location excludePlayerId))
      by (rewrite Hl; now left).
    apply getPlayersInLocation_In in Hin as (k & Hin & _ & Hloc & _).
    rewrite (Hpark _ _ Hin) in Hloc. congruence.
  - intros excludePlayerId p. rewrite getPlayersInLocation_In. split.
    + intros (k & Hin & Hex & _ & Hd).
      destruct (wf_get _ _ _ Hwf Hin) as [Hget Hk]. rewrite <- Hk in Hex. tauto.
    + intros (Hget & Hd & Hex). exists (Player.id p).
      apply Map_get_In in Hget. split; [exact Hget|].
      split; [exact Hex|]. split; [now apply (Hpark _ _ Hget)|exact Hd].
  - intros Hq fuel e. now apply step_returns.
Qed.

Lemma location_always_Park_witness :
  reachable parseFloat_sample twoPlayers /\
  forall k p, In (k, p) (players twoPlayers) -> Player.location p = "Park".
Proof.
  split; [exact reachable_twoPlayers|].
  exact (proj1 (location_always_Park parseFloat_sample twoPlayers reachable_twoPlayers)).
Defined.

(** * Further properties of the code *)

(** ** New connections *)

(** X1: [handleNewConnection] under a fresh id.  The player is appended to
    the registry, not joined, in the park, with [lastActivity] the time of
    connection; every other entry is as before; and the only envelope
    written is the welcome [connection_established] carrying the id, to the
    new player (none if the socket is not open).  If the welcome raises on
    an open socket, the new player is cleaned up at once: the server is
    exactly as it was, nobody is told. *)
Theorem handleNewConnection_fresh (fuel : nat) (now : float) (playerId : string)
    (ws : WebSocket.t) (clientIP : string) (s : Server) :
  Map_get playerId (players s) = None ->
  let player := Player.mk playerId ws None "Park" now clientIP in
  (WebSocket.sendFails ws = false ->
   handleNewConnection fuel now playerId ws clientIP s =
   Normal (mkServer (players s ++ [(playerId, player)])
             (wire s ++
              if WebSocket.isOpen ws
              then [(playerId, connection_established playerId)] else []))) /\
  (WebSocket.isOpen ws = false ->
   handleNewConnection fuel now playerId ws clientIP s =
   Normal (mkServer (players s ++ [(playerId, player)]) (wire s))) /\
  (WebSocket.isOpen ws = true -> WebSocket.sendFails ws = true ->
   handleNewConnection (S fuel) now playerId ws clientIP s = Normal s) /\
  (Map_get playerId (players s ++ [(playerId, player)]) = Some player /\
   forall k, k <> playerId ->
             Map_get k (players s ++ [(playerId, player)]) = Map_get k (players s)).
Proof.
  intros Hfresh player.
  assert (Hset : Map_set playerId player (players s) = players s ++ [(playerId, player)]).
  { clear - Hfresh. induction (players s) as [|[k' v'] m IH]; simpl in *; [reflexivity|].
    destruct (String.eqb_spec k' playerId) as [->|Hne]; [discriminate|].
    now rewrite IH. }
  assert (Hupd : updated playerId player s =
                 mkServer (players s ++ [(playerId, player)]) (wire s)).
  { unfold updated, setPlayers. now rewrite Hset. }
  assert (Hrun : forall n,
            handleNewConnection n now playerId ws clientIP s =
            sendToPlayer n playerId (connection_established playerId)
              (mkServer (players s ++ [(playerId, player)]) (wire s))).
  { intros n. rewrite <- Hupd. reflexivity. }
  assert (Hget : Map_get playerId (players s ++ [(playerId, player)]) = Some player).
  { rewrite <- Hset. apply Map_get_set_eq. }
  split; [|split; [|split]].
  - intros Hok. rewrite Hrun. unfold sendToPlayer, sendToPlayer_.
    cbn [players]. rewrite Hget. cbn [Player.ws player]. rewrite Hok.
    destruct (WebSocket.isOpen ws); [reflexivity|]. now rewrite app_nil_r.
  - intros Hclosed. rewrite Hrun. unfold sendToPlayer, sendToPlayer_.
    cbn [players]. rewrite Hget. cbn [Player.ws player]. now rewrite Hclosed.
  - intros Hopen Hfails. rewrite Hrun. unfold sendToPlayer, sendToPlayer_.
    cbn [players]. rewrite Hget. cbn [Player.ws player onSendFailure].
    rewrite Hopen, Hfails, handlePlayerDisconnect_eq. cbn [players].
    rewrite Hget. cbn [Player.data player andThen]. unfold setPlayers. cbn [players wire].
    rewrite <- Hset, Map_delete_set, Map_delete_absent by assumption. now destruct s.
  - split; [exact Hget|]. rewrite <- Hset.
    intros k Hne. apply Map_get_set_neq. congruence.
Qed.

Lemma handleNewConnection_fresh_witness :
  handleNewConnection 0 7000 "f" openSocket "10.0.0.9" lounge =
  Normal (mkServer
            (players lounge ++
             [("f", Player.mk "f" openSocket None "Park" 7000 "10.0.0.9")])
            [("f", Message.mk "connection_established"
                     (VObject ["playerId" |-> VString "f"]))]).
Proof.
  exact (proj1 (handleNewConnection_fresh 0 7000 "f" openSocket "10.0.0.9" lounge eq_refl)
           eq_refl).
Defined.

(** ** Leaving and disconnecting *)

(** X2: for a player who has joined under a nickname that converts to a
    string, and for an id that is not registered, [handlePlayerLeave] is
    [handlePlayerDisconnect]: same notices, same removal, same end, whatever
    the transports do.  They differ on a player who is registered and has not
    joined: a [player_leave] keeps the connection in the registry, a
    disconnect removes it; neither writes anything.  And they differ on a
    joined player whose nickname does not convert: the log line of
    [handlePlayerLeave] raises before anything is sent or removed. *)
Theorem handlePlayerLeave_is_disconnect (fuel : nat) (playerId : string) (s : Server) :
  ((forall p, Map_get playerId (players s) = Some p ->
              exists profile,
                Player.data p = Some profile /\
                ToString_throws (obj_get "nickname" profile) = false) ->
   handlePlayerLeave fuel playerId s = handlePlayerDisconnect fuel playerId s) /\
  (forall p,
      Map_get playerId (players s) = Some p -> Player.data p = None ->
      handlePlayerLeave fuel playerId s = Normal s /\
      handlePlayerDisconnect fuel playerId s =
      Normal (mkServer (Map_delete playerId (players s)) (wire s))) /\
  (forall p profile,
      Map_get playerId (players s) = Some p -> Player.data p = Some profile ->
      ToString_throws (obj_get "nickname" profile) = true ->
      handlePlayerLeave fuel playerId s = Throw s).
Proof.
  split; [|split].
  - intros Hjoined. rewrite handlePlayerDisconnect_eq. unfold handlePlayerLeave.
    destruct (Map_get playerId (players s)) as [p|]; [|reflexivity].
    destruct (Hjoined p eq_refl) as (profile & -> & ->). reflexivity.
  - intros p Hget Hdata. rewrite handlePlayerDisconnect_eq. unfold handlePlayerLeave.
    now rewrite Hget, Hdata.
  - intros p profile Hget Hdata Hnick. unfold handlePlayerLeave.
    now rewrite Hget, Hdata, Hnick.
Qed.

Lemma handlePlayerLeave_is_disconnect_witness :
  handlePlayerLeave 0 "a" lounge = handlePlayerDisconnect 0 "a" lounge /\
  handlePlayerLeave 0 "d" lounge = Normal lounge /\
  handlePlayerLeave 0 "d" masked = Throw masked.
Proof.
  split; [|split].
  - apply (proj1 (handlePlayerLeave_is_disconnect 0 "a" lounge)).
    intros p [= <-]. eexists. split; reflexivity.
  - exact (proj1 (proj1 (proj2 (handlePlayerLeave_is_disconnect 0 "d" lounge))
                    (connected "d" openSocket 4000) eq_refl eq_refl)).
  - exact (proj2 (proj2 (handlePlayerLeave_is_disconnect 0 "d" masked))
             (Player.mk "d" openSocket
                (Some ["nickname" |-> unconvertible; "id" |-> VString "d";
                       "joinTime" |-> VNumber 4001])
                "Park" 4000 "10.0.0.7") _ eq_refl eq_refl eq_refl).
Defined.

(** ** Frames from players the registry does not know *)

(** X3: once a player is not registered (after a leave, a cleanup or a
    sweep; the socket may still be open), whatever arrives under its id is
    ignored: a frame of any type, a frame that does not parse, a close or an
    error event leave the server exactly as it is, and no [error] envelope is
    written. *)
Theorem unregistered_ignored (parseFloat : Value -> float) (fuel : nat)
    (now now' : float) (playerId : string) (rawMessage : RawMessage) (s : Server) :
  Map_get playerId (players s) = None ->
  handlePlayerMessage parseFloat fuel now now' playerId rawMessage s = Normal s /\
  handlePlayerDisconnect fuel playerId s = Normal s /\
  handlePlayerLeave fuel playerId s = Normal s /\
  (forall message, sendToPlayer fuel playerId message s = Normal s).
Proof.
  intros Hnone.
  assert (Hsend : forall message, sendToPlayer fuel playerId message s = Normal s).
  { intros message. unfold sendToPlayer, sendToPlayer_. now rewrite Hnone. }
  split; [|split; [|split]].
  - unfold handlePlayerMessage, JSON_parse. destruct rawMessage; [|apply Hsend].
    now rewrite Hnone.
  - rewrite handlePlayerDisconnect_eq. now rewrite Hnone.
  - unfold handlePlayerLeave. now rewrite Hnone.
  - exact Hsend.
Qed.

Lemma unregistered_ignored_witness :
  handlePlayerMessage parseFloat_sample 0 7000 7001 "z" None lounge = Normal lounge.
Proof.
  exact (proj1 (unregistered_ignored parseFloat_sample 0 7000 7001 "z" None lounge eq_refl)).
Defined.

(** ** Frames from players who have not joined *)

(** X4: a registered player who has not joined cannot leave, speak or move:
    a [player_leave], [chat_message] or [player_move] frame, whatever its
    [data] (missing included), writes no envelope, not even an [error], and
    changes nothing but the player's [lastActivity]. *)
Theorem unjoined_frames_dropped (parseFloat : Value -> float) (fuel : nat)
    (now now' : float) (playerId : string) (message : Value) (t : string)
    (s : Server) (player : Player.t) :
  Map_get playerId (players s) = Some player ->
  Player.data player = None ->
  get message "type" = VString t ->
  t = "player_leave" \/ t = "chat_message" \/ t = "player_move" ->
  handlePlayerMessage parseFloat fuel now now' playerId (Some message) s =
  Normal (mkServer (Map_set playerId (Player.set_lastActivity now player) (players s))
            (wire s)).
Proof.
  intros Hget Hdata Htype Ht.
  rewrite (handlePlayerMessage_of_type parseFloat fuel now now' playerId message t s
             player Hget Htype).
  destruct Ht as [ -> | [ -> | -> ] ].
  - change (dispatch parseFloat fuel now' playerId message (VString "player_leave")
              (updated playerId (Player.set_lastActivity now player) s))
      with (handlePlayerLeave fuel playerId
              (updated playerId (Player.set_lastActivity now player) s)).
    unfold handlePlayerLeave. rewrite refreshed_get.
    cbn [Player.data Player.set_lastActivity]. now rewrite Hdata.
  - change (dispatch parseFloat fuel now' playerId message (VString "chat_message")
              (updated playerId (Player.set_lastActivity now player) s))
      with (handleChatMessage fuel now' playerId (get message "data")
              (updated playerId (Player.set_lastActivity now player) s)).
    unfold handleChatMessage. rewrite refreshed_get.
    cbn [Player.data Player.set_lastActivity]. now rewrite Hdata.
  - change (dispatch parseFloat fuel now' playerId message (VString "player_move")
              (updated playerId (Player.set_lastActivity now player) s))
      with (handlePlayerMove parseFloat fuel playerId (get message "data")
              (updated playerId (Player.set_lastActivity now player) s)).
    unfold handlePlayerMove. rewrite refreshed_get.
    cbn [Player.data Player.set_lastActivity]. now rewrite Hdata.
Qed.

Lemma unjoined_frames_dropped_witness :
  handlePlayerMessage parseFloat_sample 0 7000 7001 "d" moveWithoutData lounge =
  Normal (mkServer
            [("a", joined "a" "Al" "Park" openSocket 1000);
             ("d", connected "d" openSocket 7000)]
            []).
Proof.
  exact (unjoined_frames_dropped parseFloat_sample 0 7000 7001 "d"
           (VObject ["type" |-> VString "player_move"]) "player_move" lounge
           (connected "d" openSocket 4000) eq_refl eq_refl eq_refl
           (or_intror (or_intror eq_refl))).
Defined.

(** ** Chat frames that are not text *)

(** X5: a [chat_message] of an active player whose socket is open and takes
    the send.  When [data] is missing or [null], or [data.text] is truthy and
    not a string (a number, [true], an array, an object), the handler raises
    and the player gets one "Invalid message format" [error]; nothing is
    broadcast.  When [data.text] is falsy (absent, [null], [false], [0], NaN,
    the empty string) the frame is dropped without a reply, whatever the
    socket.  Either way only [lastActivity] changes. *)
Theorem chat_without_text (parseFloat : Value -> float) (fuel : nat)
    (now now' : float) (playerId : string) (message : Value) (s : Server)
    (player : Player.t) (profile : Object) :
  Map_get playerId (players s) = Some player ->
  Player.data player = Some profile ->
  get message "type" = VString "chat_message" ->
  let text := get (get message "data") "text" in
  let refreshed := Map_set playerId (Player.set_lastActivity now player) (players s) in
  (isNullish (get message "data") = true \/
   (truthy text = true /\ isString text = false) ->
   WebSocket.isOpen (Player.ws player) = true ->
   WebSocket.sendFails (Player.ws player) = false ->
   handlePlayerMessage parseFloat fuel now now' playerId (Some message) s =
   Normal (mkServer refreshed
             (wire s ++
              [(playerId,
                Message.mk "error"
                  (VObject ["message" |-> VString "Invalid message format"]))]))) /\
  (isNullish (get message "data") = false -> truthy text = false ->
   handlePlayerMessage parseFloat fuel now now' playerId (Some message) s =
   Normal (mkServer refreshed (wire s))).
Proof.
  intros Hget Hdata Htype text refreshed.
  assert (Hrun : handlePlayerMessage parseFloat fuel now now' playerId (Some message) s =
            match handleChatMessage fuel now' playerId (get message "data")
                    (updated playerId (Player.set_lastActivity now player) s) with
            | Normal s1 => Normal s1
            | Throw s1 => sendToPlayer fuel playerId (error "Invalid message format") s1
            end).
  { now rewrite (handlePlayerMessage_of_type parseFloat fuel now now' playerId message
                   "chat_message" s player Hget Htype). }
  assert (Hget' := refreshed_get playerId now player s).
  split.
  - intros Hbad Hopen Hsend. rewrite Hrun. unfold handleChatMessage, getProp.
    rewrite Hget'. cbn [Player.data Player.set_lastActivity]. rewrite Hdata.
    assert (Hreply : sendToPlayer fuel playerId (error "Invalid message format")
                       (updated playerId (Player.set_lastActivity now player) s) =
                     Normal (mkServer refreshed
                               (wire s ++ [(playerId, error "Invalid message format")])))
      by now rewrite (sendToPlayer_open _ _ _ _ _ Hget' Hopen Hsend).
    destruct Hbad as [Hnull|[Htruthy Hstr]].
    + now rewrite Hnull.
    + destruct (isNullish (get message "data")); [exact Hreply|].
      fold text. rewrite Htruthy. cbn [negb].
      destruct text; try discriminate; exact Hreply.
  - intros Hnull Hfalsy. rewrite Hrun. unfold handleChatMessage, getProp.
    rewrite Hget'. cbn [Player.data Player.set_lastActivity]. rewrite Hdata, Hnull.
    fold text. now rewrite Hfalsy.
Qed.

Lemma chat_without_text_witness :
  handlePlayerMessage parseFloat_sample 0 7000 7001 "a"
    (Some (VObject ["type" |-> VString "chat_message";
                    "data" |-> VObject ["text" |-> VNumber 5]])) lounge =
  Normal (mkServer
            [("a", Player.set_lastActivity 7000 (joined "a" "Al" "Park" openSocket 1000));
             ("d", connected "d" openSocket 4000)]
            [("a", Message.mk "error"
                     (VObject ["message" |-> VString "Invalid message format"]))]).
Proof.
  pose proof (chat_without_text parseFloat_sample 0 7000 7001 "a"
           (VObject ["type" |-> VString "chat_message";
                     "data" |-> VObject ["text" |-> VNumber 5]]) lounge
           (joined "a" "Al" "Park" openSocket 1000)
           ["nickname" |-> VString "Al"; "id" |-> VString "a"; "joinTime" |-> VNumber 1000]
           eq_refl eq_refl eq_refl) as H.
  cbv zeta in H. destruct H as [H _].
  exact (H (or_intror (conj eq_refl eq_refl)) eq_refl eq_refl).
Defined.

(** ** Chat text made of white space *)

Lemma trim_head (s : JSString) (c : N) (r : JSString) :
  trim s = c :: r -> isWhiteSpace c = false.
Proof.
  intros H. destruct (trim_spec s) as (lead & trail & _ & _ & _ & Hh & _).
  now apply (Hh c r).
Qed.

(** X6: which chat texts are dropped.  For an active player and a string
    [data.text], [handleChatMessage] returns without writing anything exactly
    when every code unit of the text is white space (the empty text
    included).  Otherwise, if the sender's nickname converts to a string, it
    broadcasts, and the text it broadcasts is not empty and begins with a code
    unit that is not white space; if the nickname does not convert, it raises
    with nothing written. *)
Theorem handleChatMessage_blank (fuel : nat) (now : float) (playerId : string)
    (messageData : Value) (s : Server) (player : Player.t) (profile : Object)
    (str : JSString) :
  Map_get playerId (players s) = Some player ->
  Player.data player = Some profile ->
  isNullish messageData = false ->
  get messageData "text" = VString str ->
  (allWhiteSpace str = true ->
   handleChatMessage fuel now playerId messageData s = Normal s) /\
  (allWhiteSpace str = false ->
   ToString_throws (obj_get "nickname" profile) = false ->
   exists c rest,
     substring 0 200 (trim str) = c :: rest /\ isWhiteSpace c = false /\
     handleChatMessage fuel now playerId messageData s =
     broadcastToLocation fuel (Player.location player)
       (Message.mk "chat_message"
          (VObject ["playerId" |-> VString playerId;
                    "username" |-> obj_get "username" profile;
                    "nickname" |-> obj_get "nickname" profile;
                    "text" |-> VString (c :: rest);
                    "timestamp" |-> VNumber now]))
       (Some playerId) s) /\
  (allWhiteSpace str = false ->
   ToString_throws (obj_get "nickname" profile) = true ->
   handleChatMessage fuel now playerId messageData s = Throw s).
Proof.
  intros Hget Hdata Hnull Htext.
  assert (Hrun : handleChatMessage fuel now playerId messageData s =
            if negb (truthy (VString str)) then Normal s
            else if (List.length (trim str) =? 0)%nat then Normal s
            else if ToString_throws (obj_get "nickname" profile) then Throw s
            else broadcastToLocation fuel (Player.location player)
                   (chat_message playerId profile (substring 0 200 (trim str)) now)
                   (Some playerId) s).
  { unfold handleChatMessage, getProp. now rewrite Hget, Hdata, Hnull, Htext. }
  assert (Hsome : allWhiteSpace str = false ->
            exists c r, trim str = c :: r /\ isWhiteSpace c = false /\
                        truthy (VString str) = true).
  { intros Hall. destruct (trim str) as [|c r] eqn:Htrim.
    - apply trim_blank_iff in Htrim. congruence.
    - exists c, r. split; [reflexivity|]. split; [now apply (trim_head str c r)|].
      destruct str; [discriminate|reflexivity]. }
  split; [|split].
  - intros Hall. rewrite Hrun. apply trim_blank_iff in Hall.
    destruct (negb (truthy (VString str))); [reflexivity|]. now rewrite Hall.
  - intros Hall Hnick. destruct (Hsome Hall) as (c & r & Htrim & Hc & Htruthy).
    exists c, (firstn 199 r). rewrite substring_0, Htrim.
    split; [reflexivity|]. split; [exact Hc|].
    rewrite Hrun, Htruthy, Htrim, Hnick, substring_0. reflexivity.
  - intros Hall Hnick. destruct (Hsome Hall) as (c & r & Htrim & Hc & Htruthy).
    now rewrite Hrun, Htruthy, Htrim, Hnick.
Qed.

Lemma handleChatMessage_blank_witness :
  handleChatMessage 0 7000 "a"
    (VObject ["text" |-> VString [32; 12288; 65279; 8233]%N]) lounge =
  Normal lounge.
Proof.
  exact (proj1 (handleChatMessage_blank 0 7000 "a"
                  (VObject ["text" |-> VString [32; 12288; 65279; 8233]%N])
                  lounge (joined "a" "Al" "Park" openSocket 1000) _
                  [32; 12288; 65279; 8233]%N
                  eq_refl eq_refl eq_refl eq_refl) eq_refl).
Defined.

(** ** Who is written to *)

(** X7: nothing is ever written to a socket that is not open.  Whatever
    the transports do and however the call ends, every envelope that
    [sendToPlayer], [broadcastToLocation] or [handlePlayerDisconnect] writes
    goes to a player who was registered when the call started, with a socket
    in state OPEN on which [send] does not raise. *)
Theorem only_open_sockets_written (fuel : nat) (playerId location : string)
    (message : Message.t) (excludePlayerId : option string) (s : Server)
    (c : Completion) :
  sendToPlayer fuel playerId message s = c \/
  broadcastToLocation fuel location message excludePlayerId s = c \/
  handlePlayerDisconnect fuel playerId s = c ->
  exists sent,
    wire (stateOf c) = wire s ++ sent /\
    forall rid m, In (rid, m) sent ->
      exists p,
        Map_get rid (players s) = Some p /\
        WebSocket.readyState (Player.ws p) = WebSocket.OPEN /\
        WebSocket.sendFails (Player.ws p) = false.
Proof.
  intros Hrun.
  assert (Hw : wrote (hears (players s)) s (stateOf c)).
  { destruct Hrun as [H|[H|H]].
    - now apply (sendToPlayer_discreet _ _ _ _ _ (onSendFailure_discreet fuel) H).
    - unfold broadcastToLocation, broadcastToLocation_ in H.
      now apply (forEach_send_discreet _ _ s _ (onSendFailure_discreet fuel) _ _
                   (restricts_refl s) H).
    - now apply (handlePlayerDisconnect_discreet_step fuel
                   (onSendFailure_discreet fuel) _ _ _ H). }
  destruct Hw as (sent & Hwire & Hall). exists sent. split; [exact Hwire|].
  intros rid m Hin. apply (proj1 (Forall_forall _ _) Hall) in Hin.
  destruct Hin as (p & Hp & Hopen & Hsend). exists p. split; [exact Hp|].
  split; [|exact Hsend]. unfold WebSocket.isOpen in Hopen.
  now destruct (WebSocket.readyState (Player.ws p)).
Qed.

Lemma only_open_sockets_written_witness :
  exists sent,
    wire (mkServer [("a", joined "a" "Al" "Park" openSocket 1000)]
            [("a", player_left "b" ["nickname" |-> VString "Bo"])]) =
    wire oneFailing ++ sent /\
    forall rid m, In (rid, m) sent ->
      exists p,
        Map_get rid (players oneFailing) = Some p /\
        WebSocket.readyState (Player.ws p) = WebSocket.OPEN /\
        WebSocket.sendFails (Player.ws p) = false.
Proof.
  apply (only_open_sockets_written 1 "b" "Park" (player_moved "a" 10 20) (Some "a")
           oneFailing (Normal _)).
  right. left. reflexivity.
Defined.

(** ** A send that raises *)

(** X8: a send that raises is an abrupt disconnect.  For a registered
    player whose socket is open and raises, [sendToPlayer] is the disconnect
    cleanup of that player (one level deeper; with no room left on the stack
    the call raises and the server is as it was); so when it returns, the
    player is no longer registered, and neither the message nor anything else
    has been written to it. *)
Theorem failing_send_disconnects (fuel : nat) (playerId : string) (message : Message.t)
    (s : Server) (player : Player.t) :
  Map_get playerId (players s) = Some player ->
  WebSocket.isOpen (Player.ws player) = true ->
  WebSocket.sendFails (Player.ws player) = true ->
  sendToPlayer (S fuel) playerId message s = handlePlayerDisconnect fuel playerId s /\
  sendToPlayer 0 playerId message s = Throw s /\
  forall s',
    sendToPlayer (S fuel) playerId message s = Normal s' ->
    Map_get playerId (players s') = None /\
    exists sent,
      wire s' = wire s ++ sent /\ forall rid m, In (rid, m) sent -> rid <> playerId.
Proof.
  intros Hget Hopen Hfails.
  assert (Hrun : sendToPlayer (S fuel) playerId message s =
                 handlePlayerDisconnect fuel playerId s).
  { unfold sendToPlayer, sendToPlayer_. now rewrite Hget, Hopen, Hfails. }
  split; [exact Hrun|]. split.
  - unfold sendToPlayer, sendToPlayer_. now rewrite Hget, Hopen, Hfails.
  - intros s' Hs'. rewrite Hrun in Hs'.
    split; [now apply (handlePlayerDisconnect_absent fuel _ s)|].
    destruct (handlePlayerDisconnect_discreet_step fuel (onSendFailure_discreet fuel)
                _ _ _ Hs') as [_ (sent & Hwire & Hall)].
    exists sent. split; [exact Hwire|]. intros rid m Hin ->.
    apply (proj1 (Forall_forall _ _) Hall) in Hin.
    destruct Hin as (p & Hp & _ & Hok). simpl in Hp. congruence.
Qed.

Lemma failing_send_disconnects_witness :
  sendToPlayer 1 "b" (player_moved "a" 10 20) oneFailing =
  handlePlayerDisconnect 0 "b" oneFailing.
Proof.
  exact (proj1 (failing_send_disconnects 0 "b" (player_moved "a" 10 20) oneFailing
                  (joined "b" "Bo" "Park" failingSocket 2000) eq_refl eq_refl eq_refl)).
Defined.

(** ** Sweeping twice *)

(** X9: the reaper's sweep is idempotent.  A sweep over a registry that
    holds no stale player changes nothing and writes nothing; so once a
    sweep at time [now] has returned, a second sweep at the same time returns
    the same server. *)
Theorem cleanupDisconnectedPlayers_idempotent (fuel fuel' : nat) (now : float)
    (s s' : Server) :
  wf s ->
  cleanupDisconnectedPlayers fuel now s = Normal s' ->
  cleanupDisconnectedPlayers fuel' now s' = Normal s' /\
  ((forall k p, Map_get k (players s) = Some p -> isStale now p = false) -> s' = s).
Proof.
  intros Hwf Hsweep.
  change (cleanupDisconnectedPlayers fuel now s)
    with (forEachLive (reapStep fuel now) (map fst (players s)) s) in Hsweep.
  split.
  - change (cleanupDisconnectedPlayers fuel' now s')
      with (forEachLive (reapStep fuel' now) (map fst (players s')) s').
    apply sweep_idle. intros k p _ Hp.
    destruct (sweep_spec fuel now s Hwf _ _ _ (restricts_refl s) Hsweep)
      as (Hr & _ & Hns).
    apply (Hns k); [|exact Hp].
    apply (restricts_get _ _ _ _ Hr), Map_get_In in Hp. now apply (in_map fst) in Hp.
  - intros Hidle. rewrite sweep_idle in Hsweep; [congruence|].
    intros k p _. apply Hidle.
Qed.

Lemma cleanupDisconnectedPlayers_idempotent_witness :
  cleanupDisconnectedPlayers 0 6000
    (mkServer (Map_delete "e" (players lobby))
       [("a", player_left "e" ["nickname" |-> VString "Ed"]);
        ("b", player_left "e" ["nickname" |-> VString "Ed"])]) =
  Normal (mkServer (Map_delete "e" (players lobby))
            [("a", player_left "e" ["nickname" |-> VString "Ed"]);
             ("b", player_left "e" ["nickname" |-> VString "Ed"])]).
Proof.
  exact (proj1 (cleanupDisconnectedPlayers_idempotent 0 0 6000 lobby _ wf_lobby eq_refl)).
Defined.

(** ** Shutdown *)

Lemma forEachLive_wrote (Q : string * Message.t -> Prop)
    (f : string -> Player.t -> Server -> Completion) (s0 : Server) :
  (forall k p s c, restricts s0 s -> Map_get k (players s) = Some p ->
                   f k p s = c -> restricts s (stateOf c) /\ wrote Q s (stateOf c)) ->
  forall keys s c,
    restricts s0 s -> forEachLive f keys s = c ->
    restricts s (stateOf c) /\ wrote Q s (stateOf c).
Proof.
  intros Hf. induction keys as [|k keys IH]; intros s c Hr; simpl.
  - intros <-. split; [apply restricts_refl|apply wrote_refl].
  - destruct (Map_get k (players s)) as [p|] eqn:Hget; [|now apply IH].
    destruct (f k p s) as [s1|s1] eqn:Hstep; simpl; intros Hrest;
      destruct (Hf _ _ _ _ Hr Hget Hstep) as [Hr1 Hw1]; simpl in Hr1, Hw1.
    + destruct (IH s1 c (restricts_trans _ _ _ Hr Hr1) Hrest) as [Hr2 Hw2].
      split; [eapply restricts_trans; eassumption|eapply wrote_trans; eassumption].
    + subst c. now split.
Qed.

Lemma shutdown_quiet_wire (fuel : nat) (m : Map Player.t) (l : Map Player.t) :
  (forall k p, In (k, p) m -> WebSocket.sendFails (Player.ws p) = false) ->
  (forall k p, In (k, p) l -> Map_get k m = Some p) ->
  forall w,
    forEachLive (fun playerId _ s => sendToPlayer fuel playerId server_shutdown s)
      (map fst l) (mkServer m w) =
    Normal (mkServer m (w ++ notices server_shutdown l)).
Proof.
  intros Hq. induction l as [|[k p] l IH]; intros Hl w; simpl.
  - unfold notices. simpl. now rewrite app_nil_r.
  - rewrite (Hl k p (or_introl eq_refl)).
    unfold sendToPlayer. rewrite sendToPlayer_quiet by exact Hq.
    unfold deliver, notices. simpl. rewrite (Hl k p (or_introl eq_refl)).
    destruct (WebSocket.isOpen (Player.ws p)); simpl.
    + unfold transmit. simpl. rewrite IH by (intros k0 p0 H0; apply Hl; now right).
      unfold notices. now rewrite <- app_assoc.
    + rewrite IH by (intros k0 p0 H0; apply Hl; now right). reflexivity.
Qed.

(** X10: [shutdown] tells everyone.  When no transport raises it returns
    having written one [server_shutdown] to every registered player whose
    socket is open, joined or not, in registry order, and having removed
    nobody.  Whatever the transports do and however the shutdown ends, the
    envelopes it has written are [server_shutdown], or the [player_left]
    notices of cleanups started by failing sends. *)
Theorem shutdown_notifies_all (fuel : nat) (s : Server) :
  wf s ->
  (quiet s ->
   shutdown fuel s =
   Normal (mkServer (players s) (wire s ++ notices server_shutdown (players s)))) /\
  (forall c,
      shutdown fuel s = c ->
      (forall k p, Map_get k (players (stateOf c)) = Some p ->
                   Map_get k (players s) = Some p) /\
      exists sent,
        wire (stateOf c) = wire s ++ sent /\
        forall e, In e sent ->
          (snd e = server_shutdown /\ exists p, Map_get (fst e) (players s) = Some p) \/
          left_notice (players s) e).
Proof.
  intros Hwf. split.
  - intros Hq. unfold shutdown. destruct s as [m w]. simpl.
    apply shutdown_quiet_wire; [exact Hq|].
    intros k p Hin. destruct Hwf as [Hnd _]. now apply In_Map_get.
  - intros c Hrun. unfold shutdown in Hrun.
    apply forEachLive_wrote
      with (s0 := s)
           (Q := fun e => (snd e = server_shutdown /\
                           exists p, Map_get (fst e) (players s) = Some p) \/
                          left_notice (players s) e) in Hrun;
      [| |apply restricts_refl].
    + destruct Hrun as [Hr (sent & Hw & Hall)]. split.
      * intros k p. now apply restricts_get.
      * exists sent. split; [exact Hw|]. now apply Forall_forall.
    + intros k p s1 c1 Hr Hget Hsend.
      assert (Hwf1 : wf s1) by (eapply wf_restricts; eassumption).
      destruct (sendToPlayer_tidy _ _ _ _ _ (onSendFailure_tidy fuel) Hwf1 Hsend)
        as [Hr1 Hw1].
      split; [exact Hr1|]. eapply wrote_impl; [|exact Hw1].
      intros e [[-> (q & Hq & _)]|He].
      * left. split; [reflexivity|]. exists q. eapply restricts_get; eassumption.
      * right. eapply left_notice_mono; eassumption.
Qed.

Lemma shutdown_notifies_all_witness :
  wf lobby /\
  shutdown 0 lobby =
  Normal (mkServer (players lobby)
            (map (fun k =>
                    (k, Message.mk "server_shutdown"
                          (VObject ["message" |-> VString "Server is shutting down"])))
               ["a"; "b"; "c"; "d"])).
Proof.
  split; [exact wf_lobby|].
  exact (proj1 (shutdown_notifies_all 0 lobby wf_lobby) quiet_lobby).
Defined.

(** ** The id of a player and the id in its profile *)

Lemma owned_restricts (s s' : Server) : restricts s s' -> owned s -> owned s'.
Proof. intros Hr Ho k p Hp. apply Ho. eapply restricts_get; eassumption. Qed.

Lemma owned_updated (k : string) (p2 : Player.t) (s : Server) :
  owned s -> Player.id p2 = k ->
  (forall d, Player.data p2 = Some d ->
             obj_get "id" d = VString k /\ exists t, obj_get "joinTime" d = VNumber t) ->
  owned (updated k p2 s).
Proof.
  intros Ho Hid Hd k0 p0. simpl. destruct (String.eqb_spec k k0) as [<-|Hne].
  - rewrite Map_get_set_eq. intros [= <-]. now split.
  - rewrite Map_get_set_neq by assumption. apply Ho.
Qed.

Lemma sendToPlayer_owned (fuel : nat) (k : string) (message : Message.t) (s : Server)
    (c : Completion) :
  owned s -> sendToPlayer fuel k message s = c -> owned (stateOf c).
Proof.
  intros Ho Hsend. eapply owned_restricts; [|exact Ho].
  now apply (sendToPlayer_restricts fuel k message).
Qed.

Lemma broadcastToLocation_owned (fuel : nat) (location : string) (message : Message.t)
    (excludePlayerId : option string) (s : Server) (c : Completion) :
  owned s -> broadcastToLocation fuel location message excludePlayerId s = c ->
  owned (stateOf c).
Proof.
  intros Ho Hcast. eapply owned_restricts; [|exact Ho].
  now apply (broadcastToLocation_restricts fuel location message excludePlayerId).
Qed.

Lemma handlePlayerDisconnect_owned (fuel : nat) (k : string) (s : Server)
    (c : Completion) :
  owned s -> handlePlayerDisconnect fuel k s = c -> owned (stateOf c).
Proof.
  intros Ho Hd. eapply owned_restricts; [|exact Ho].
  now apply (handlePlayerDisconnect_restricts fuel k).
Qed.

Lemma handlePlayerJoin_owned (fuel : nat) (now : float) (k : string)
    (playerData : Value) (s : Server) (c : Completion) :
  owned s -> handlePlayerJoin fuel now k playerData s = c -> owned (stateOf c).
Proof.
  intros Ho. unfold handlePlayerJoin.
  destruct (Map_get k (players s)) as [p|] eqn:Hget; [|now intros <-].
  set (profile := obj_set "joinTime" _ _).
  set (p2 := Player.set_data (Some profile) p).
  assert (Ho2 : owned (updated k p2 s)).
  { apply owned_updated; [exact Ho|exact (proj1 (Ho k p Hget))|].
    intros d [= <-]. unfold profile. split.
    - rewrite obj_get_set_neq by ne_lit. apply obj_get_set_eq.
    - exists now. apply obj_get_set_eq. }
  destruct (ToString_throws (obj_get "nickname" profile)); [now intros <-|].
  destruct (sendToPlayer _ _ _ _) as [s1|s1] eqn:Hsend; simpl.
  - intros Hcast. eapply broadcastToLocation_owned; [|exact Hcast].
    exact (sendToPlayer_owned _ _ _ _ _ Ho2 Hsend).
  - intros <-. exact (sendToPlayer_owned _ _ _ _ _ Ho2 Hsend).
Qed.

Lemma handlePlayerLeave_owned (fuel : nat) (k : string) (s : Server) (c : Completion) :
  owned s -> handlePlayerLeave fuel k s = c -> owned (stateOf c).
Proof.
  intros Ho. unfold handlePlayerLeave.
  destruct (Map_get k (players s)) as [p|]; [|now intros <-].
  destruct (Player.data p) as [profile|]; [|now intros <-].
  destruct (ToString_throws (obj_get "nickname" profile)); [now intros <-|].
  destruct (broadcastToLocation _ _ _ _ _) as [s1|s1] eqn:Hcast; simpl; intros <-.
  - eapply owned_restricts; [apply restricts_delete|].
    exact (broadcastToLocation_owned _ _ _ _ _ _ Ho Hcast).
  - exact (broadcastToLocation_owned _ _ _ _ _ _ Ho Hcast).
Qed.

Lemma handleChatMessage_owned (fuel : nat) (now : float) (k : string)
    (messageData : Value) (s : Server) (c : Completion) :
  owned s -> handleChatMessage fuel now k messageData s = c -> owned (stateOf c).
Proof.
  intros Ho. unfold handleChatMessage.
  assert (Hsame : forall c0 : Completion, stateOf c0 = s -> c0 = c -> owned (stateOf c)).
  { intros c0 H0 <-. now rewrite H0. }
  destruct (Map_get k (players s)) as [p|]; [|now apply Hsame].
  destruct (Player.data p) as [profile|]; [|now apply Hsame].
  destruct (getProp messageData "text") as [text|]; [|now apply Hsame].
  destruct (negb (truthy text)); [now apply Hsame|].
  destruct text; try now apply Hsame.
  destruct (List.length (trim _) =? 0)%nat; [now apply Hsame|].
  destruct (ToString_throws (obj_get "nickname" profile)); [now apply Hsame|].
  now apply broadcastToLocation_owned.
Qed.

Lemma forEachLive_owned (f : string -> Player.t -> Server -> Completion) :
  (forall k p s c, owned s -> f k p s = c -> owned (stateOf c)) ->
  forall keys s c, owned s -> forEachLive f keys s = c -> owned (stateOf c).
Proof.
  intros Hf. induction keys as [|k keys IH]; intros s c Ho; simpl.
  - now intros <-.
  - destruct (Map_get k (players s)) as [p|]; [|now apply IH].
    destruct (f k p s) as [s1|s1] eqn:Hstep; simpl.
    + apply IH. exact (Hf _ _ _ _ Ho Hstep).
    + intros <-. exact (Hf _ _ _ _ Ho Hstep).
Qed.

Section Ownership.

Variable parseFloat : Value -> float.

Lemma handlePlayerMove_owned (fuel : nat) (k : string) (moveData : Value) (s : Server)
    (c : Completion) :
  owned s -> handlePlayerMove parseFloat fuel k moveData s = c -> owned (stateOf c).
Proof.
  intros Ho. unfold handlePlayerMove.
  assert (Hsame : forall c0 : Completion, stateOf c0 = s -> c0 = c -> owned (stateOf c)).
  { intros c0 H0 <-. now rewrite H0. }
  destruct (Map_get k (players s)) as [p|] eqn:Hget; [|now apply Hsame].
  destruct (Player.data p) as [profile|] eqn:Hdata; [|now apply Hsame].
  destruct (getProp moveData "x") as [mx|]; [|now apply Hsame].
  destruct (ToString_throws mx); [now apply Hsame|].
  destruct (ToString_throws (get moveData "y")); [now apply Hsame|].
  set (profile' := obj_set "y" _ _).
  apply broadcastToLocation_owned.
  destruct (Ho k p Hget) as [Hid Hprof]. destruct (Hprof profile Hdata) as [Hpid Hjt].
  apply owned_updated; [exact Ho|exact Hid|].
  intros d [= <-]. unfold profile'. now rewrite !obj_get_set_neq by ne_lit.
Qed.

Lemma dispatch_owned (fuel : nat) (now : float) (k : string) (message type : Value)
    (s : Server) (c : Completion) :
  owned s -> dispatch parseFloat fuel now k message type s = c -> owned (stateOf c).
Proof.
  intros Ho. unfold dispatch.
  destruct (strictEq type "player_join"); [now apply handlePlayerJoin_owned|].
  destruct (strictEq type "player_leave"); [now apply handlePlayerLeave_owned|].
  destruct (strictEq type "chat_message"); [now apply handleChatMessage_owned|].
  destruct (strictEq type "player_move"); [now apply handlePlayerMove_owned|].
  now apply sendToPlayer_owned.
Qed.

Lemma handlePlayerMessage_owned (fuel : nat) (now now' : float) (k : string)
    (rawMessage : RawMessage) (s : Server) (c : Completion) :
  owned s -> handlePlayerMessage parseFloat fuel now now' k rawMessage s = c ->
  owned (stateOf c).
Proof.
  intros Ho. unfold handlePlayerMessage, JSON_parse.
  destruct rawMessage as [message|]; [|now apply sendToPlayer_owned].
  destruct (Map_get k (players s)) as [p|] eqn:Hget; [|now intros <-].
  set (pa := Player.set_lastActivity now p).
  assert (Hoa : owned (updated k pa s)).
  { destruct (Ho k p Hget) as [Hid Hprof].
    apply owned_updated; [exact Ho|exact Hid|exact Hprof]. }
  destruct (getProp message "type") as [type|]; [|now apply sendToPlayer_owned].
  destruct (ToString_throws type); [now apply sendToPlayer_owned|].
  destruct (dispatch _ _ _ _ _ _ _) as [s1|s1] eqn:Hc;
    pose proof (dispatch_owned _ _ _ _ _ _ _ Hoa Hc) as Hoc; simpl in Hoc.
  - now intros <-.
  - now apply sendToPlayer_owned.
Qed.

Lemma step_owned (fuel : nat) (e : Event) (s s' : Server) :
  owned s -> step parseFloat fuel e s = Some s' -> owned s'.
Proof.
  intros Ho. destruct e as [k ws ip now|k raw now now'|k|k|now| | |k ws]; cbn [step];
    intros Hstep; try apply returned_Some in Hstep.
  - unfold handleNewConnection in Hstep.
    refine (sendToPlayer_owned _ _ _ _ _ _ Hstep).
    apply (owned_updated k (Player.mk k ws None "Park" now ip) s Ho eq_refl).
    intros d [=].
  - exact (handlePlayerMessage_owned _ _ _ _ _ _ _ Ho Hstep).
  - exact (handlePlayerDisconnect_owned _ _ _ _ Ho Hstep).
  - exact (handlePlayerDisconnect_owned _ _ _ _ Ho Hstep).
  - unfold cleanupDisconnectedPlayers in Hstep.
    refine (forEachLive_owned _ _ _ _ _ Ho Hstep).
    intros k p s1 c1 Ho1. destruct (isStale now p); [|now intros <-].
    now apply handlePlayerDisconnect_owned.
  - now injection Hstep as <-.
  - unfold shutdown in Hstep.
    refine (forEachLive_owned _ _ _ _ _ Ho Hstep).
    intros k p s1 c1 Ho1. now apply sendToPlayer_owned.
  - injection Hstep as <-. unfold transportChange.
    destruct (Map_get k (players s)) as [p|] eqn:Hget; [|exact Ho].
    destruct (Ho k p Hget) as [Hid Hprof].
    apply (owned_updated k (Player.set_ws ws p) s Ho Hid Hprof).
Qed.

End Ownership.

(** X11: the server's id is authoritative, for good.  In every reachable
    state each player is registered under its own id, and the profile of a
    player who has joined carries that same id in its [id] field, whatever
    the client sent in [player_join] and whatever moves followed, together
    with a numeric [joinTime]. *)
Theorem profile_id_is_player_id (parseFloat : Value -> float) (s : Server)
    (playerId : string) (player : Player.t) :
  reachable parseFloat s ->
  Map_get playerId (players s) = Some player ->
  Player.id player = playerId /\
  forall profile,
    Player.data player = Some profile ->
    obj_get "id" profile = VString playerId /\
    exists t, obj_get "joinTime" profile = VNumber t.
Proof.
  intros Hs. revert playerId player.
  change (owned s).
  induction Hs as [|fuel e s s' _ IH Hstep]; [intros k p [=]|].
  eapply step_owned; eassumption.
Qed.

Lemma profile_id_is_player_id_witness :
  obj_get "id"
    ["nickname" |-> VString "Bo"; "id" |-> VString "b"; "joinTime" |-> VNumber 2002] =
  VString "b".
Proof.
  exact (proj1 (proj2
    (profile_id_is_player_id parseFloat_sample twoPlayers "b"
       (Player.mk "b" openSocket
          (Some ["nickname" |-> VString "Bo"; "id" |-> VString "b";
                 "joinTime" |-> VNumber 2002])
          "Park" 2001 "10.0.0.8")
       reachable_twoPlayers eq_refl) _ eq_refl)).
Defined.

(** ** Statistics *)

Lemma tally_park (l : list Player.t) :
  (forall p, In p l -> Player.location p = "Park") ->
  forall n,
    fold_left (fun stats p => increment (Player.location p) stats) l [("Park", n)] =
    [("Park", n + List.length l)].
Proof.
  induction l as [|p l IH]; intros Hl n; simpl.
  - now rewrite Nat.add_0_r.
  - rewrite (Hl p (or_introl eq_refl)). simpl.
    rewrite IH by (intros q Hq; apply Hl; now right).
    now rewrite Nat.add_succ_r.
Qed.

(** X12: what [logServerStats] reports in a reachable state.  The total is
    the number of registered players; the active count is the number of
    those with a profile, never more than the total; and the per-location
    table is empty when nobody has joined (nothing is printed for it) and
    otherwise has the single entry "Park" with the active count. *)
Theorem logServerStats_reachable (parseFloat : Value -> float) (s : Server) :
  reachable parseFloat s ->
  let active := List.length (filter Player.isActive (map snd (players s))) in
  logServerStats s =
    (List.length (players s), active,
     if (active =? 0)%nat then [] else [("Park", active)]) /\
  active <= List.length (players s).
Proof.
  intros Hs active. split.
  - unfold logServerStats. fold active. f_equal.
    assert (Hpark : forall p, In p (filter Player.isActive (map snd (players s))) ->
                              Player.location p = "Park").
    { intros p Hin. apply filter_In in Hin as [Hin _].
      apply in_map_iff in Hin as ([k q] & <- & Hin). simpl.
      apply (reachable_Park parseFloat s Hs (Player.id q)).
      now destruct (wf_get _ _ _ (reachable_wf _ _ Hs) Hin). }
    unfold active. destruct (filter Player.isActive (map snd (players s))) as [|p l];
      [reflexivity|].
    simpl. rewrite (Hpark p (or_introl eq_refl)). simpl.
    now rewrite tally_park by (intros q Hq; apply Hpark; now right).
  - unfold active. rewrite <- (length_map snd (players s)). apply filter_length_le.
Qed.

Lemma logServerStats_reachable_witness :
  logServerStats withGuest = (3, 2, [("Park", 2)]).
Proof.
  exact (proj1 (logServerStats_reachable parseFloat_sample withGuest
                  (after_reachable _ _))).
Defined.

(** ** Echoing a position *)

Lemma Math_max_zero_cases (m : float) :
  PrimFloat.is_nan m = false ->
  Math_max 0 m = 0%float \/ (PrimFloat.ltb 0 m = true /\ Math_max 0 m = m).
Proof.
  intros Hm. unfold Math_max. rewrite Hm. simpl.
  destruct (PrimFloat.ltb 0 m); [now right|].
  destruct (PrimFloat.ltb m 0); now left.
Qed.

Lemma Math_min_hundred (w : float) :
  PrimFloat.is_nan w = false ->
  PrimFloat.is_nan (Math_min 100 w) = false /\
  PrimFloat.leb (Math_min 100 w) 100 = true.
Proof.
  intros Hw. unfold Math_min. rewrite Hw. simpl.
  destruct (PrimFloat.ltb 100 w) eqn:H1; [now split|].
  destruct (PrimFloat.ltb w 100) eqn:H2; [split; [exact Hw|now apply ltb_leb]|].
  change (PrimFloat.get_sign 100) with false. cbv iota.
  split; [exact Hw|]. now apply not_ltb_leb.
Qed.

(** X13: clamping is idempotent.  A coordinate the server has stored and
    broadcast, sent back as a number in a later [player_move], is stored
    unchanged: clamping a clamped coordinate gives the same coordinate
    (given that [parseFloat] reads that number back as itself). *)
Theorem clampCoordinate_idempotent (parseFloat : Value -> float) (v : Value) :
  parseFloat (VNumber (clampCoordinate parseFloat v)) = clampCoordinate parseFloat v ->
  clampCoordinate parseFloat (VNumber (clampCoordinate parseFloat v)) =
  clampCoordinate parseFloat v.
Proof.
  intros Hback. unfold clampCoordinate at 1. rewrite Hback.
  unfold clampCoordinate.
  destruct (Math_min_hundred _ (orZero_not_nan (parseFloat v))) as [Hn Hle].
  destruct (Math_max_zero_cases _ Hn) as [H0|[Hpos Hm]].
  - rewrite H0. reflexivity.
  - rewrite Hm. now apply clamp_inside.
Qed.

Lemma clampCoordinate_idempotent_witness :
  clampCoordinate parseFloat_sample (VNumber (clampCoordinate parseFloat_sample (VNumber 150))) =
  clampCoordinate parseFloat_sample (VNumber 150).
Proof.
  exact (clampCoordinate_idempotent parseFloat_sample (VNumber 150) eq_refl).
Defined.

(** ** What a frame refreshes *)

(** X14: what a frame changes of the connections.  When a frame that parses
    arrives from a registered player at time [now], every player still
    registered afterwards has the socket and the address it had, and the
    [lastActivity] it had, except the sender, whose [lastActivity] is [now]:
    this for every type of frame, known or not, whatever the transports do
    and however the handling ends.  A frame that does not parse refreshes
    nothing. *)
Theorem frame_refreshes_sender (parseFloat : Value -> float) (fuel : nat)
    (now now' : float) (playerId : string) (rawMessage : RawMessage)
    (s : Server) (c : Completion) (player : Player.t) :
  Map_get playerId (players s) = Some player ->
  handlePlayerMessage parseFloat fuel now now' playerId rawMessage s = c ->
  forall k p',
    Map_get k (players (stateOf c)) = Some p' ->
    exists p,
      Map_get k (players s) = Some p /\
      Player.ws p' = Player.ws p /\ Player.ip p' = Player.ip p /\
      Player.lastActivity p' =
      match rawMessage with
      | Some _ => if k =? playerId then now else Player.lastActivity p
      | None => Player.lastActivity p
      end.
Proof.
  intros Hget Hrun.
  destruct (handlePlayerMessage_shape parseFloat fuel now now' playerId rawMessage s
              player Hget) as (s1 & Hs1 & Hend).
  assert (Hlinks : sameLinks s1 (stateOf c)).
  { destruct Hend as [H|H]; rewrite H in Hrun.
    - subst c. apply sameLinks_refl.
    - apply restricts_sameLinks. exact (sendToPlayer_restricts _ _ _ _ _ Hrun). }
  intros k p' Hp'. destruct (Hlinks k p' Hp') as (p1 & Hp1 & Hw1 & Hl1 & Hi1).
  destruct Hs1 as [[-> ->]|[Hsome Hupd]].
  - exists p1. repeat split; assumption.
  - destruct rawMessage as [message|]; [|congruence].
    destruct (Hupd k p1 Hp1) as (p0 & Hp0 & Hw0 & Hl0 & Hi0). simpl in Hp0.
    destruct (String.eqb_spec k playerId) as [->|Hne].
    + rewrite Map_get_set_eq in Hp0. injection Hp0 as <-.
      cbn [Player.ws Player.ip Player.lastActivity Player.set_lastActivity] in Hw0, Hl0, Hi0.
      exists player. repeat split; congruence.
    + rewrite Map_get_set_neq in Hp0 by congruence.
      exists p0. repeat split; congruence.
Qed.

Lemma frame_refreshes_sender_witness :
  exists p,
    Map_get "a" (players withGuest) = Some p /\
    Player.ws (Player.mk "a" openSocket
                 (Some ["nickname" |-> VString "Al"; "id" |-> VString "a";
                        "joinTime" |-> VNumber 1002;
                        "x" |-> VNumber 100; "y" |-> VNumber 0])
                 "Park" 4000 "10.0.0.7") = Player.ws p /\
    Player.ip (Player.mk "a" openSocket
                 (Some ["nickname" |-> VString "Al"; "id" |-> VString "a";
                        "joinTime" |-> VNumber 1002;
                        "x" |-> VNumber 100; "y" |-> VNumber 0])
                 "Park" 4000 "10.0.0.7") = Player.ip p /\
    4000%float = 4000%float.
Proof.
  exact (frame_refreshes_sender parseFloat_sample 0 4000 4001 "a"
           (Some (VObject ["type" |-> VString "player_move";
                           "data" |-> VObject ["x" |-> VNumber 150; "y" |-> VString "-3"]]))
           withGuest (Normal afterMove)
           (Player.mk "a" openSocket
              (Some ["nickname" |-> VString "Al"; "id" |-> VString "a";
                     "joinTime" |-> VNumber 1002])
              "Park" 1001 "10.0.0.7")
           eq_refl eq_refl "a"
           (Player.mk "a" openSocket
              (Some ["nickname" |-> VString "Al"; "id" |-> VString "a";
                     "joinTime" |-> VNumber 1002;
                     "x" |-> VNumber 100; "y" |-> VNumber 0])
              "Park" 4000 "10.0.0.7")
           eq_refl).
Defined.

(** ** Who is removed *)

Lemma sendToPlayer_sparing (h : string -> Server -> Completion) (k : string)
    (message : Message.t) (s : Server) (c : Completion) :
  sparing h -> sendToPlayer_ h k message s = c ->
  restricts s (stateOf c) /\
  forall k' p', Map_get k' (players s) = Some p' ->
                Map_get k' (players (stateOf c)) = None -> failing p'.
Proof.
  intros Hh. unfold sendToPlayer_.
  assert (Hkept : Normal s = c ->
            restricts s (stateOf c) /\
            forall k' p', Map_get k' (players s) = Some p' ->
                          Map_get k' (players (stateOf c)) = None -> failing p').
  { intros <-. split; [apply restricts_refl|]. intros k' p' H1 H2. simpl in H2.
    congruence. }
  destruct (Map_get k (players s)) as [p|] eqn:Hget; [|exact Hkept].
  destruct (WebSocket.isOpen (Player.ws p)) eqn:Hopen; [|exact Hkept].
  destruct (WebSocket.sendFails (Player.ws p)) eqn:Hfails.
  - intros Hrun. destruct (Hh _ _ _ Hrun) as [Hr Hrem]. split; [exact Hr|].
    intros k' p' Hp' Hgone. destruct (Hrem k' p' Hp' Hgone) as [->|Hf]; [|exact Hf].
    rewrite Hget in Hp'. injection Hp' as <-. now split.
  - intros <-. split; [apply restricts_wire|].
    intros k' p' H1 H2. simpl in H2. congruence.
Qed.

Lemma forEach_send_sparing (h : string -> Server -> Completion)
    (message : Message.t) (l : list Player.t) :
  sparing h ->
  forall s c,
    forEach (fun player => sendToPlayer_ h (Player.id player) message) l s = c ->
    restricts s (stateOf c) /\
    forall k' p', Map_get k' (players s) = Some p' ->
                  Map_get k' (players (stateOf c)) = None -> failing p'.
Proof.
  intros Hh. induction l as [|p l IH]; intros s c; simpl.
  - intros <-. split; [apply restricts_refl|]. intros k' p' H1 H2. simpl in H2.
    congruence.
  - destruct (sendToPlayer_ h (Player.id p) message s) as [s1|s1] eqn:Hsend; simpl;
      intros Hrest;
      destruct (sendToPlayer_sparing _ _ _ _ _ Hh Hsend) as [Hr1 Hrem1];
      simpl in Hr1, Hrem1.
    + destruct (IH s1 c Hrest) as [Hr2 Hrem2].
      split; [eapply restricts_trans; eassumption|].
      intros k' p' Hp' Hgone.
      destruct (Map_get k' (players s1)) as [p1|] eqn:Hp1.
      * pose proof (restricts_get _ _ _ _ Hr1 Hp1) as Hp0.
        rewrite Hp' in Hp0. injection Hp0 as <-. now apply (Hrem2 k').
      * now apply (Hrem1 k').
    + subst c. now split.
Qed.

Lemma handlePlayerDisconnect_sparing_step (fuel : nat) :
  sparing (onSendFailure fuel) -> sparing (handlePlayerDisconnect fuel).
Proof.
  intros Hh k s c. rewrite handlePlayerDisconnect_eq.
  destruct (Map_get k (players s)) as [player|] eqn:Hget.
  - assert (Hdel : forall s1,
              restricts s s1 ->
              (forall k' p', Map_get k' (players s) = Some p' ->
                             Map_get k' (players s1) = None -> failing p') ->
              restricts s (setPlayers (Map_delete k (players s1)) s1) /\
              forall k' p', Map_get k' (players s) = Some p' ->
                Map_get k' (players (setPlayers (Map_delete k (players s1)) s1)) = None ->
                k' = k \/ failing p').
    { intros s1 Hr Hrem. split; [eapply restricts_trans; [exact Hr|apply restricts_delete]|].
      intros k' p' Hp' Hgone. simpl in Hgone. rewrite Map_get_delete in Hgone.
      destruct (String.eqb_spec k' k) as [->|Hne]; [now left|].
      right. now apply (Hrem k'). }
    destruct (Player.data player) as [profile|].
    + destruct (broadcastToLocation _ _ _ _ _) as [s1|s1] eqn:Hb; simpl; intros <-;
        unfold broadcastToLocation, broadcastToLocation_ in Hb;
        destruct (forEach_send_sparing _ _ _ Hh _ _ Hb) as [Hr Hrem];
        simpl in Hr, Hrem.
      * now apply Hdel.
      * split; [exact Hr|]. intros k' p' Hp' Hgone. right. now apply (Hrem k').
    + simpl. intros <-. apply Hdel; [apply restricts_refl|].
      intros k' p' H1 H2. congruence.
  - intros <-. split; [apply restricts_refl|]. intros k' p' H1 H2. simpl in H2.
    congruence.
Qed.

Lemma onSendFailure_sparing (fuel : nat) : sparing (onSendFailure fuel).
Proof.
  induction fuel as [|fuel IH]; simpl.
  - intros k s c <-. split; [apply restricts_refl|]. intros k' p' H1 H2. simpl in H2.
    congruence.
  - now apply handlePlayerDisconnect_sparing_step.
Qed.

(** X15: who a send, a broadcast or a cleanup removes.  [sendToPlayer] and
    [broadcastToLocation] remove a player from the registry only if that
    player's socket is open and raises on [send]; [handlePlayerDisconnect]
    removes, besides those, only the player it is called for.  Everybody
    else stays, unchanged, however the call ends. *)
Theorem removed_only_if_failing (fuel : nat) (playerId location : string)
    (message : Message.t) (excludePlayerId : option string) (s : Server)
    (c : Completion) (k : string) (p : Player.t) :
  Map_get k (players s) = Some p ->
  (sendToPlayer fuel playerId message s = c \/
   broadcastToLocation fuel location message excludePlayerId s = c ->
   Map_get k (players (stateOf c)) = Some p \/
   (Map_get k (players (stateOf c)) = None /\
    WebSocket.readyState (Player.ws p) = WebSocket.OPEN /\
    WebSocket.sendFails (Player.ws p) = true)) /\
  (handlePlayerDisconnect fuel playerId s = c ->
   Map_get k (players (stateOf c)) = Some p \/
   (Map_get k (players (stateOf c)) = None /\
    (k = playerId \/
     (WebSocket.readyState (Player.ws p) = WebSocket.OPEN /\
      WebSocket.sendFails (Player.ws p) = true)))).
Proof.
  intros Hp.
  assert (Hopen : failing p ->
            WebSocket.readyState (Player.ws p) = WebSocket.OPEN /\
            WebSocket.sendFails (Player.ws p) = true).
  { intros [Ho Hf]. split; [|exact Hf]. unfold WebSocket.isOpen in Ho.
    now destruct (WebSocket.readyState (Player.ws p)). }
  assert (Hcase : forall (Q : Prop),
            restricts s (stateOf c) ->
            (Map_get k (players (stateOf c)) = None -> Q) ->
            Map_get k (players (stateOf c)) = Some p \/
            (Map_get k (players (stateOf c)) = None /\ Q)).
  { intros Q Hr HQ. destruct (Map_get k (players (stateOf c))) as [p'|] eqn:Hp'.
    - left. apply (restricts_get _ _ _ _ Hr) in Hp'. congruence.
    - right. split; [reflexivity|now apply HQ]. }
  split.
  - intros Hrun.
    assert (H : restricts s (stateOf c) /\
                forall k' p', Map_get k' (players s) = Some p' ->
                              Map_get k' (players (stateOf c)) = None -> failing p').
    { destruct Hrun as [H|H].
      - now apply (sendToPlayer_sparing _ _ _ _ _ (onSendFailure_sparing fuel) H).
      - unfold broadcastToLocation, broadcastToLocation_ in H.
        now apply (forEach_send_sparing _ _ _ (onSendFailure_sparing fuel) _ _ H). }
    destruct H as [Hr Hrem]. apply Hcase; [exact Hr|].
    intros Hgone. apply Hopen. now apply (Hrem k).
  - intros Hrun.
    destruct (handlePlayerDisconnect_sparing_step fuel (onSendFailure_sparing fuel)
                _ _ _ Hrun) as [Hr Hrem].
    apply Hcase; [exact Hr|]. intros Hgone.
    destruct (Hrem k p Hp Hgone) as [->|Hf]; [now left|right; now apply Hopen].
Qed.

Lemma removed_only_if_failing_witness :
  Map_get "a" (players (mkServer [("a", joined "a" "Al" "Park" openSocket 1000)]
                          [("a", player_left "b" ["nickname" |-> VString "Bo"])])) =
    Some (joined "a" "Al" "Park" openSocket 1000) \/
  (Map_get "a" (players (mkServer [("a", joined "a" "Al" "Park" openSocket 1000)]
                           [("a", player_left "b" ["nickname" |-> VString "Bo"])])) =
     None /\
   WebSocket.readyState (Player.ws (joined "a" "Al" "Park" openSocket 1000)) =
     WebSocket.OPEN /\
   WebSocket.sendFails (Player.ws (joined "a" "Al" "Park" openSocket 1000)) = true).
Proof.
  apply (proj1 (removed_only_if_failing 1 "b" "Park" (player_moved "a" 10 20) (Some "a")
                  oneFailing (Normal _) "a" (joined "a" "Al" "Park" openSocket 1000)
                  eq_refl)).
  right. reflexivity.
Defined.

Lemma sweep_sparing (fuel : nat) (now : float) (keys : list string) :
  forall s c,
    forEachLive (reapStep fuel now) keys s = c ->
    restricts s (stateOf c) /\
    forall k' p', Map_get k' (players s) = Some p' ->
                  Map_get k' (players (stateOf c)) = None ->
                  isStale now p' = true \/ failing p'.
Proof.
  induction keys as [|k keys IH]; intros s c; simpl.
  - intros <-. split; [apply restricts_refl|]. intros k' p' H1 H2. simpl in H2.
    congruence.
  - destruct (Map_get k (players s)) as [p|] eqn:Hget; [|apply IH].
    unfold reapStep at 1. destruct (isStale now p) eqn:Hstale; [|apply IH].
    destruct (handlePlayerDisconnect fuel k s) as [s1|s1] eqn:Hd; simpl; intros Hrest;
      destruct (handlePlayerDisconnect_sparing_step fuel (onSendFailure_sparing fuel)
                  _ _ _ Hd) as [Hr1 Hrem1]; simpl in Hr1, Hrem1.
    + destruct (IH s1 c Hrest) as [Hr2 Hrem2].
      split; [eapply restricts_trans; eassumption|].
      intros k' p' Hp' Hgone.
      destruct (Map_get k' (players s1)) as [p1|] eqn:Hp1.
      * pose proof (restricts_get _ _ _ _ Hr1 Hp1) as Hp0.
        rewrite Hp' in Hp0. injection Hp0 as <-. now apply (Hrem2 k').
      * destruct (Hrem1 k' p' Hp' Hp1) as [->|Hf]; [|now right].
        left. congruence.
    + subst c. split; [exact Hr1|]. intros k' p' Hp' Hgone. simpl in Hgone.
      destruct (Hrem1 k' p' Hp' Hgone) as [->|Hf]; [|now right].
      left. congruence.
Qed.

(** X16: the reaper removes nobody else.  A player found in the registry
    before a sweep at time [now] and missing after it, however the sweep
    ended, was stale (socket not open, or idle for more than five minutes),
    or had an open socket that raised on a notice; so with transports that
    do not raise, every player who is not stale survives the sweep,
    unchanged. *)
Theorem cleanupDisconnectedPlayers_spares (fuel : nat) (now : float) (s : Server)
    (c : Completion) (k : string) (p : Player.t) :
  cleanupDisconnectedPlayers fuel now s = c ->
  Map_get k (players s) = Some p ->
  Map_get k (players (stateOf c)) = Some p \/
  (Map_get k (players (stateOf c)) = None /\
   (isStale now p = true \/
    (WebSocket.readyState (Player.ws p) = WebSocket.OPEN /\
     WebSocket.sendFails (Player.ws p) = true))).
Proof.
  intros Hsweep Hp.
  change (cleanupDisconnectedPlayers fuel now s)
    with (forEachLive (reapStep fuel now) (map fst (players s)) s) in Hsweep.
  destruct (sweep_sparing fuel now _ _ _ Hsweep) as [Hr Hrem].
  destruct (Map_get k (players (stateOf c))) as [p'|] eqn:Hp'.
  - left. apply (restricts_get _ _ _ _ Hr) in Hp'. congruence.
  - right. split; [reflexivity|].
    destruct (Hrem k p Hp Hp') as [Hs|[Ho Hf]]; [now left|right].
    split; [|exact Hf]. unfold WebSocket.isOpen in Ho.
    now destruct (WebSocket.readyState (Player.ws p)).
Qed.

Lemma cleanupDisconnectedPlayers_spares_witness :
  Map_get "e" (players (mkServer (Map_delete "e" (players lobby))
                          [("a", player_left "e" ["nickname" |-> VString "Ed"]);
                           ("b", player_left "e" ["nickname" |-> VString "Ed"])])) =
    Some (joined "e" "Ed" "Park" closedSocket 5000) \/
  (Map_get "e" (players (mkServer (Map_delete "e" (players lobby))
                           [("a", player_left "e" ["nickname" |-> VString "Ed"]);
                            ("b", player_left "e" ["nickname" |-> VString "Ed"])])) =
     None /\
   (isStale 6000 (joined "e" "Ed" "Park" closedSocket 5000) = true \/
    (WebSocket.readyState (Player.ws (joined "e" "Ed" "Park" closedSocket 5000)) =
       WebSocket.OPEN /\
     WebSocket.sendFails (Player.ws (joined "e" "Ed" "Park" closedSocket 5000)) = true))).
Proof.
  exact (cleanupDisconnectedPlayers_spares 0 6000 lobby (Normal _) "e"
           (joined "e" "Ed" "Park" closedSocket 5000) eq_refl eq_refl).
Defined.

(** ** Cleanups that return *)

(** X17: a disconnect cleanup that returns is idempotent.  Once
    [handlePlayerDisconnect] has returned for an id, the registry has no
    entry under it, and a second call (whatever room the stack has) returns
    the same server: nothing is written, nothing changes.  The same holds of
    any call for an id that is not registered.  When no registered transport
    raises on [send] the first call does return, whatever room the stack
    has, and it writes the [player_left] notice at most once to each player,
    never to the player itself, and only if the profile was set; so the two
    calls together broadcast it at most once. *)
Theorem handlePlayerDisconnect_returned_idempotent (fuel fuel' : nat) (playerId : string)
    (s : Server) :
  (forall s1,
      handlePlayerDisconnect fuel playerId s = Normal s1 ->
      Map_get playerId (players s1) = None /\
      handlePlayerDisconnect fuel' playerId s1 = Normal s1) /\
  (forall s0, Map_get playerId (players s0) = None ->
              handlePlayerDisconnect fuel' playerId s0 = Normal s0) /\
  (wf s -> quiet s ->
   handlePlayerDisconnect fuel playerId s = Normal (disconnected playerId s) /\
   handlePlayerDisconnect fuel' playerId (disconnected playerId s) =
   Normal (disconnected playerId s) /\
   exists sent,
     wire (disconnected playerId s) = wire s ++ sent /\ NoDup (map fst sent) /\
     (forall e, In e sent ->
        exists player profile,
          Map_get playerId (players s) = Some player /\
          Player.data player = Some profile /\
          snd e =
            Message.mk "player_left"
              (VObject ["id" |-> VString playerId;
                        "nickname" |-> obj_get "nickname" profile]) /\
          fst e <> playerId)).
Proof.
  assert (Habs : forall s0, Map_get playerId (players s0) = None ->
                            handlePlayerDisconnect fuel' playerId s0 = Normal s0).
  { intros s0 H0. rewrite handlePlayerDisconnect_eq. now rewrite H0. }
  assert (Hret : forall s1,
            handlePlayerDisconnect fuel playerId s = Normal s1 ->
            Map_get playerId (players s1) = None /\
            handlePlayerDisconnect fuel' playerId s1 = Normal s1).
  { intros s1 H1. assert (Hgone := handlePlayerDisconnect_absent _ _ _ _ H1).
    split; [exact Hgone|now apply Habs]. }
  split; [exact Hret|]. split; [exact Habs|].
  intros Hwf Hq.
  assert (H1 := handlePlayerDisconnect_quiet fuel playerId s Hwf Hq).
  split; [exact H1|]. split; [exact (proj2 (Hret _ H1))|].
  unfold disconnected. destruct (Map_get playerId (players s)) as [player|] eqn:Hget.
  - destruct (Player.data player) as [profile|] eqn:Hdata; simpl.
    + eexists. split; [reflexivity|]. split; [now apply deliveries_NoDup|].
      intros e He. apply deliveries_In in He as (p & Hp & _ & ->).
      exists player, profile. repeat split; try assumption. simpl.
      apply getPlayersInLocation_In in Hp as (k & Hin & Hex & _).
      destruct (wf_get _ _ _ Hwf Hin) as [_ ->]. congruence.
    + exists []. repeat split; [constructor|intros e []].
  - exists []. split; [now rewrite app_nil_r|]. split; [constructor|intros e []].
Qed.

Lemma handlePlayerDisconnect_returned_idempotent_witness :
  let notice :=
    Message.mk "player_left"
      (VObject ["id" |-> VString "a"; "nickname" |-> VString "Al"]) in
  handlePlayerDisconnect 0 "a" lobby =
    Normal (mkServer (Map_delete "a" (players lobby)) [("b", notice)]) /\
  handlePlayerDisconnect 0 "a"
    (mkServer (Map_delete "a" (players lobby)) [("b", notice)]) =
  Normal (mkServer (Map_delete "a" (players lobby)) [("b", notice)]).
Proof.
  destruct (proj2 (proj2 (handlePlayerDisconnect_returned_idempotent 0 0 "a" lobby))
              wf_lobby quiet_lobby) as (H1 & H2 & _).
  split; [exact H1|exact H2].
Defined.

(** X18: a sweep that returns has evicted every stale player.  After a
    returning [cleanupDisconnectedPlayers] at time [now], no registered
    player is stale, that is, has a socket that is not open or a
    [lastActivity] more than five minutes (300000 ms) behind [now]; the
    survivors are unchanged.  Every eviction is a call of the disconnect
    cleanup: the envelopes written are [player_left] notices for players whose
    profile was set, sent to other active players of their location, so a
    player who never joined goes without any; a sweep that finds one stale
    player is exactly the disconnect cleanup of that player; and when no
    registered transport raises on [send] the sweep does return, whatever
    room the stack has, having cleaned up the stale players in registry
    order. *)
Theorem cleanupDisconnectedPlayers_returned_evicts (fuel : nat) (now : float) (s : Server) :
  wf s ->
  (forall s',
      cleanupDisconnectedPlayers fuel now s = Normal s' ->
      (forall k p, Map_get k (players s') = Some p ->
                   isStale now p = false /\ Map_get k (players s) = Some p) /\
      exists sent,
        wire s' = wire s ++ sent /\
        forall e, In e sent -> left_notice (players s) e) /\
  (forall k p,
      Map_get k (players s) = Some p -> isStale now p = true ->
      (forall k' p', Map_get k' (players s) = Some p' -> isStale now p' = true ->
                     k' = k) ->
      cleanupDisconnectedPlayers fuel now s = handlePlayerDisconnect fuel k s) /\
  (quiet s -> cleanupDisconnectedPlayers fuel now s = Normal (reaped now s)) /\
  (forall p,
      isStale now p = true <->
      WebSocket.readyState (Player.ws p) <> WebSocket.OPEN \/
      PrimFloat.ltb 300000 (now - Player.lastActivity p) = true).
Proof.
  intros Hwf. split; [|split; [|split]].
  - intros s' Hsweep.
    change (cleanupDisconnectedPlayers fuel now s)
      with (forEachLive (reapStep fuel now) (map fst (players s)) s) in Hsweep.
    destruct (sweep_spec fuel now s Hwf _ _ _ (restricts_refl s) Hsweep)
      as (Hr & (sent & Hw & Hall) & Hns).
    split.
    + intros k p Hp. pose proof (restricts_get _ _ _ _ Hr Hp) as Hp0.
      split; [|exact Hp0]. apply (Hns k); [|exact Hp].
      apply Map_get_In in Hp0. now apply (in_map fst) in Hp0.
    + exists sent. split; [exact Hw|]. now apply Forall_forall.
  - intros k p. now apply sweep_sole.
  - intros Hq. now apply sweep_quiet.
  - intros p. unfold isStale, WebSocket.isOpen.
    change timeout with 300000%float. rewrite orb_true_iff.
    destruct (WebSocket.readyState (Player.ws p)); simpl; split;
      intros [H|H]; try discriminate; try (now left); try (now right);
      try (left; discriminate); try (now contradiction H).
Qed.

(** The stale-reap scenario: Ed's socket is closed; the sweep tells Al and
    Bo, who share the park with Ed, and nobody else. *)
Lemma cleanupDisconnectedPlayers_returned_evicts_witness :
  wf lobby /\
  cleanupDisconnectedPlayers 0 6000 lobby =
  Normal (mkServer (Map_delete "e" (players lobby))
            [("a", Message.mk "player_left"
                     (VObject ["id" |-> VString "e"; "nickname" |-> VString "Ed"]));
             ("b", Message.mk "player_left"
                     (VObject ["id" |-> VString "e"; "nickname" |-> VString "Ed"]))]).
Proof.
  split; [exact wf_lobby|].
  exact (proj1 (proj2 (proj2
    (cleanupDisconnectedPlayers_returned_evicts 0 6000 lobby wf_lobby))) quiet_lobby).
Defined.

(** ** Frames are answered *)

(** Cy, watching from an open socket, moves while the sockets of Al and Bo
    raise: the move is stored, the cleanups of Al and Bo call each other
    (each one telling Cy as it starts) until the stack is exhausted, here
    after two of them; the [catch] of [handlePlayerMessage] takes the
    RangeError, and Cy is answered with an [error].  Al and Bo are still
    registered. *)
Example move_among_failing_sockets :
  handlePlayerMessage parseFloat_sample 2 7000 7001 "c"
    (Some (VObject ["type" |-> VString "player_move";
                    "data" |-> VObject ["x" |-> VNumber 150; "y" |-> VString "-3"]]))
    watched =
  Normal (mkServer
            [("c", Player.mk "c" openSocket
                     (Some ["nickname" |-> VString "Cy"; "id" |-> VString "c";
                            "joinTime" |-> VNumber 3000;
                            "x" |-> VNumber 100; "y" |-> VNumber 0])
                     "Park" 7000 "10.0.0.7");
             ("a", joined "a" "Al" "Park" failingSocket 1000);
             ("b", joined "b" "Bo" "Park" failingSocket 2000)]
            [("c", Message.mk "player_left"
                     (VObject ["id" |-> VString "a"; "nickname" |-> VString "Al"]));
             ("c", Message.mk "player_left"
                     (VObject ["id" |-> VString "b"; "nickname" |-> VString "Bo"]));
             ("c", Message.mk "error"
                     (VObject ["message" |-> VString "Invalid message format"]))]).
Proof. reflexivity. Qed.

(** X19: a sender whose socket does not raise is always answered.  For a
    frame of any content (one that does not parse included) from a player
    who is not registered, or whose socket is not open, or whose socket takes
    a send without raising, [handlePlayerMessage] returns, whatever the
    sockets of the other players do and whatever room the stack has: what a
    handler raises, the RangeError of cleanups that call each other without
    end included, stays inside the [try] block.  So the [message] listener
    lets no exception out. *)
Theorem frame_always_answered (parseFloat : Value -> float) (fuel : nat)
    (now now' : float) (playerId : string) (rawMessage : RawMessage) (s : Server) :
  (forall p, Map_get playerId (players s) = Some p ->
             WebSocket.isOpen (Player.ws p) = false \/
             WebSocket.sendFails (Player.ws p) = false) ->
  exists s',
    handlePlayerMessage parseFloat fuel now now' playerId rawMessage s = Normal s' /\
    step parseFloat fuel (WsMessage playerId rawMessage now now') s = Some s'.
Proof.
  intros Hok.
  destruct (handlePlayerMessage_answers parseFloat fuel now now' playerId rawMessage s Hok)
    as (s' & Hrun).
  exists s'. split; [exact Hrun|]. cbn [step]. now rewrite Hrun.
Qed.

Lemma frame_always_answered_witness :
  exists s',
    handlePlayerMessage parseFloat_sample 0 7000 7001 "c"
      (Some (VObject ["type" |-> VString "player_move";
                      "data" |-> VObject ["x" |-> VNumber 150; "y" |-> VString "-3"]]))
      watched = Normal s' /\
    step parseFloat_sample 0
      (WsMessage "c"
         (Some (VObject ["type" |-> VString "player_move";
                         "data" |-> VObject ["x" |-> VNumber 150; "y" |-> VString "-3"]]))
         7000 7001)
      watched = Some s'.
Proof.
  apply (frame_always_answered parseFloat_sample 0 7000 7001 "c" _ watched).
  intros p Hp. vm_compute in Hp. injection Hp as <-. right. reflexivity.
Defined.
